(** * stoplight-migrator: a shallow embedding and its verified properties

    The development follows the three Python modules of the package:

    - [simple_yaml]: the restricted YAML loader/dumper ([load], [dump]);
    - [toc]: the table-of-contents normaliser ([TocParser], [slugify]);
    - [migrator]: navigation synthesis, slug allocation and the merge of the
      generated navigation into [docs.yml].

    Python values are modelled as follows.

    - A [str] is a [string]: a sequence of code points below 256.  The text
      primitives ([str.strip], [str.lower], [str.splitlines], ...) are
      written over [list ascii] and follow CPython on that range.
    - An [int] is a [Z]; [int(str)] carries the interpreter's default limit
      of 4300 digits ([max_str_digits]).  A [float] is an IEEE-754 value
      ([spec_float]);
      the two builtins [str(float)] and [float(str)] are not part of the
      package and are taken as parameters (class [PyFloatOps]); which
      literals [float(str)] accepts is modelled concretely.
    - [OrderedDict] is an association list with the update discipline of
      Python dictionaries (assignment to a present key keeps its position).
    - Exceptions are values of [exn]; a computation that may raise returns a
      [result].  Loops whose termination depends on the data carry fuel,
      and the entry points supply enough of it.  Two constructors of [exn]
      are not Python exceptions: [OutOfFuel], and [IllTyped], which the
      model returns where a raw record would put a value of another type
      than the annotations declare into a node or under a key; the program
      does not check these types, and the statements that depend on the
      difference are made for records of the declared types. *)

From Stdlib Require Import ZArith String Ascii List Lia Bool.
From Stdlib Require Import DecimalString DecimalFacts DecimalZ DecimalN DecimalPos DecimalNat.
From Stdlib Require Import Floats.SpecFloat.
From stdpp Require Import gmap strings list.

Import ListNotations.
#[local] Set Warnings "-register-all".
Open Scope Z_scope.
Open Scope string_scope.
Open Scope list_scope.

(** ** Exceptions

    [TransportError] stands for whatever a client raises when it cannot
    reach its source. *)

Inductive exn : Type :=
| YamlError (msg : string)
| AttributeError (msg : string)
| ValueError (msg : string)
| OSError (msg : string)
| TypeError (msg : string)
| TransportError (msg : string)
| IllTyped (field : string)
| OutOfFuel.

Inductive result (A : Type) : Type :=
| Ok (a : A)
| Raise (e : exn).

Arguments Ok {A} a.
Arguments Raise {A} e.

Definition rbind {A B} (r : result A) (k : A -> result B) : result B :=
  match r with
  | Ok a => k a
  | Raise e => Raise e
  end.

Declare Scope result_scope.
Delimit Scope result_scope with result.
Notation "'let!' x ':=' r 'in' k" := (rbind r (fun x => k))
  (at level 10, x pattern, r at level 100, k at level 200) : result_scope.
Open Scope result_scope.

(** ** Python text primitives *)

Module PyText.

Definition chars (s : string) : list ascii := list_ascii_of_string s.
Definition text (l : list ascii) : string := string_of_list_ascii l.

Definition code (c : ascii) : N := N_of_ascii c.

(** [str.isspace] on one code point: TAB..CR, FS..US, SPACE, NEL, NBSP. *)
Definition is_space (c : ascii) : bool :=
  let n := code c in
  ((9 <=? n) && (n <=? 13) || (28 <=? n) && (n <=? 32) || (n =? 133) || (n =? 160))%N.

(** The line boundaries of [str.splitlines]: LF, VT, FF, CR, FS, GS, RS, NEL
    (CR LF counts as one boundary, see [splitlines]). *)
Definition is_linebreak (c : ascii) : bool :=
  let n := code c in
  ((10 <=? n) && (n <=? 13) || (28 <=? n) && (n <=? 30) || (n =? 133))%N.

Definition is_upper (c : ascii) : bool :=
  let n := code c in
  ((65 <=? n) && (n <=? 90) || (192 <=? n) && (n <=? 222) && negb (n =? 215))%N.

Definition lower_char (c : ascii) : ascii :=
  if is_upper c then ascii_of_N (code c + 32) else c.

Definition lower (l : list ascii) : list ascii := map lower_char l.

Definition is_digit (c : ascii) : bool :=
  let n := code c in ((48 <=? n) && (n <=? 57))%N.

Definition LF : ascii := ascii_of_N 10.
Definition CR : ascii := ascii_of_N 13.
(** The double quote and the backslash. *)
Definition DQ : ascii := ascii_of_N 34.
Definition BS : ascii := ascii_of_N 92.

Fixpoint lstrip_by (p : ascii -> bool) (l : list ascii) : list ascii :=
  match l with
  | c :: r => if p c then lstrip_by p r else l
  | [] => []
  end.

Definition rstrip_by (p : ascii -> bool) (l : list ascii) : list ascii :=
  rev (lstrip_by p (rev l)).

Definition strip_by (p : ascii -> bool) (l : list ascii) : list ascii :=
  rstrip_by p (lstrip_by p l).

(** [s.lstrip()], [s.rstrip()], [s.strip()] *)
Definition lstrip := lstrip_by is_space.
Definition rstrip := rstrip_by is_space.
Definition strip := strip_by is_space.

(** [s.strip(c)] for a one-character argument *)
Definition strip_char (c : ascii) := strip_by (Ascii.eqb c).
Definition lstrip_char (c : ascii) := lstrip_by (Ascii.eqb c).
Definition rstrip_char (c : ascii) := rstrip_by (Ascii.eqb c).

Definition list_eqb (a b : list ascii) : bool :=
  bool_decide (a = b).

Fixpoint startswith (l p : list ascii) : bool :=
  match p, l with
  | [], _ => true
  | c :: p', d :: l' => Ascii.eqb c d && startswith l' p'
  | _ :: _, [] => false
  end.

Definition endswith (l p : list ascii) : bool :=
  startswith (rev l) (rev p).

(** [c in s] for a character [c] *)
Definition has_char (c : ascii) (l : list ascii) : bool :=
  existsb (Ascii.eqb c) l.

(** [any(ch in s for ch in cs)] *)
Definition has_any (cs l : list ascii) : bool :=
  existsb (fun ch => has_char ch l) cs.

(** [s.split(c, 1)] when [c in s]: the text before and after the first [c] *)
Fixpoint split_once (c : ascii) (l : list ascii) : option (list ascii * list ascii) :=
  match l with
  | [] => None
  | d :: r =>
      if Ascii.eqb c d then Some ([], r)
      else match split_once c r with
           | Some (a, b) => Some (d :: a, b)
           | None => None
           end
  end.

(** [s.replace(c, w)] for a one-character [c] *)
Definition replace_char (c : ascii) (w : list ascii) (l : list ascii) : list ascii :=
  flat_map (fun d => if Ascii.eqb c d then w else [d]) l.

(** [sep.join(ls)] for a one-character separator *)
Fixpoint join (sep : ascii) (ls : list (list ascii)) : list ascii :=
  match ls with
  | [] => []
  | [l] => l
  | l :: rest => l ++ sep :: join sep rest
  end.

(** [s.splitlines()]: [cur] is the line being read, reversed. *)
Fixpoint splitlines_go (cur : list ascii) (started : bool) (l : list ascii)
  : list (list ascii) :=
  match l with
  | [] => if started then [rev cur] else []
  | c :: r =>
      if is_linebreak c then
        let r' := match r with
                  | d :: r2 => if Ascii.eqb c CR && Ascii.eqb d LF then r2 else r
                  | [] => r
                  end in
        rev cur :: splitlines_go [] false r'
      else splitlines_go (c :: cur) true r
  end.

Definition splitlines (l : list ascii) : list (list ascii) :=
  splitlines_go [] false l.

(** [" " * n] *)
Definition spaces (n : nat) : list ascii := repeat " "%char n.

(** The interpreter's default limit on the number of decimal digits in a
    conversion between [int] and [str] ([sys.get_int_max_str_digits()],
    CPython 3.11 and later). *)
Definition max_str_digits : Z := 4300.

(** [str(n)] for an [int] of at most [max_str_digits] digits.  Beyond the
    limit [str(n)] raises [ValueError]; the function gives the decimal text
    there as well, and every statement on the text of an [int] that depends on
    the difference carries the limit (see [int_of_text], which refuses such a
    text, and [within_digit_limit]). *)
Definition str_of_int (z : Z) : string :=
  NilZero.string_of_int (Z.to_int z).

(** The digit groups of a numeral: digits, with single underscores allowed
    between two digits. *)
Fixpoint digitpart_from (after_digit : bool) (l : list ascii) : bool :=
  match l with
  | [] => after_digit
  | c :: r =>
      if is_digit c then digitpart_from true r
      else if Ascii.eqb c "_" then
        after_digit && match r with
                       | d :: _ => is_digit d && digitpart_from false r
                       | [] => false
                       end
      else false
  end.

Definition is_digitpart (l : list ascii) : bool := digitpart_from false l.

Definition drop_underscores (l : list ascii) : list ascii :=
  List.filter (fun c => negb (Ascii.eqb c "_")) l.

Definition split_sign (l : list ascii) : bool * list ascii :=
  match l with
  | c :: r =>
      if Ascii.eqb c "-" then (true, r)
      else if Ascii.eqb c "+" then (false, r)
      else (false, l)
  | [] => (false, l)
  end.

(** [int(s)]: [None] stands for [ValueError], which the interpreter also
    raises for a numeral of more than [max_str_digits] digits (the sign and
    the underscores are not counted, leading zeros are). *)
Definition int_of_text (s : list ascii) : option Z :=
  let '(neg, body) := split_sign (strip s) in
  if is_digitpart body then
    if (Z.of_nat (length (drop_underscores body)) <=? max_str_digits)%Z then
      match NilZero.uint_of_string (text (drop_underscores body)) with
      | Some d => Some (if neg then - Z.of_uint d else Z.of_uint d)
      | None => None
      end
    else None
  else None.

(** Whether [float(s)] accepts [s] (otherwise it raises [ValueError]). *)
Definition is_exponent (l : list ascii) : bool :=
  match l with
  | [] => true
  | c :: r =>
      (Ascii.eqb c "e" || Ascii.eqb c "E") && is_digitpart (snd (split_sign r))
  end.

Fixpoint span (p : ascii -> bool) (l : list ascii) : list ascii * list ascii :=
  match l with
  | c :: r => if p c then let '(a, b) := span p r in (c :: a, b) else ([], l)
  | [] => ([], [])
  end.

Definition is_floatnumber (l : list ascii) : bool :=
  let '(ip, rest) := span (fun c => is_digit c || Ascii.eqb c "_") l in
  match rest with
  | "."%char :: rest' =>
      let '(fp, ex) := span (fun c => is_digit c || Ascii.eqb c "_") rest' in
      match ip, fp with
      | [], [] => false
      | [], _ => is_digitpart fp && is_exponent ex
      | _, [] => is_digitpart ip && is_exponent ex
      | _, _ => is_digitpart ip && is_digitpart fp && is_exponent ex
      end
  | _ => is_digitpart ip && is_exponent rest
  end.

Definition is_float_literal (s : list ascii) : bool :=
  let body := snd (split_sign (strip s)) in
  let low := lower body in
  list_eqb low (chars "inf") || list_eqb low (chars "infinity")
  || list_eqb low (chars "nan") || is_floatnumber body.

End PyText.

Import PyText.

(** ** Python containers *)

(** [OrderedDict] with [str] keys.  [odict_set] is [d[k] = v]: a present key
    keeps its position and takes the new value, a new key goes last. *)
Fixpoint odict_set {V : Type} (k : string) (v : V) (m : list (string * V))
  : list (string * V) :=
  match m with
  | [] => [(k, v)]
  | (k', v') :: r =>
      if String.eqb k' k then (k', v) :: r else (k', v') :: odict_set k v r
  end.

(** [d.get(k)] *)
Fixpoint odict_get {V : Type} (k : string) (m : list (string * V)) : option V :=
  match m with
  | [] => None
  | (k', v') :: r => if String.eqb k' k then Some v' else odict_get k r
  end.

(** [k in d] *)
Definition odict_mem {V : Type} (k : string) (m : list (string * V)) : bool :=
  match odict_get k m with Some _ => true | None => false end.

Definition odict_keys {V : Type} (m : list (string * V)) : list string :=
  map fst m.

(** The float builtins the package relies on: [str(x)] and [float(s)] for a
    literal [s] that [float] accepts. *)
Class PyFloatOps : Type := {
  float_repr : spec_float -> string;
  float_of_literal : string -> spec_float
}.

(** * Module [simple_yaml] *)

Module simple_yaml.

(** The values the engine handles: scalars, [list] and [OrderedDict]. *)
Inductive scalar : Type :=
| SNull
| SBool (b : bool)
| SInt (z : Z)
| SFloat (f : spec_float)
| SStr (s : string).

Inductive value : Type :=
| VScalar (s : scalar)
| VList (items : list value)
| VMap (entries : list (string * value)).

Definition VStr (s : string) : value := VScalar (SStr s).

Record _Line : Type := mk_Line { line_text : list ascii; line_indent : nat }.

Definition indent_size : nat := 2.

(** The element built by [SimpleYaml.__init__] for one input line. *)
Definition make_line (line : list ascii) : _Line :=
  {| line_text := rstrip_char LF line;
     line_indent := (length line - length (lstrip_char " " line))%nat |}.

Section Engine.
Context {F : PyFloatOps}.

(** [_format_scalar] *)
Definition special_chars : list ascii :=
  LF :: chars ":#{}[]" ++ DQ :: chars "'@`".

Definition needs_quotes (t : list ascii) : bool :=
  has_any special_chars t || negb (list_eqb (strip t) t).

Definition escape (t : list ascii) : list ascii :=
  replace_char DQ [BS; DQ] (replace_char BS [BS; BS] t).

Definition _format_scalar (v : scalar) : list ascii :=
  match v with
  | SBool b => if b then chars "true" else chars "false"
  | SNull => chars "null"
  | SInt z => chars (str_of_int z)
  | SFloat f => chars (float_repr f)
  | SStr s =>
      let t := chars s in
      match t with
      | [] => chars "''"
      | _ =>
          if needs_quotes t then DQ :: escape t ++ [DQ]
          else t
      end
  end.

(** [value[1:-1]] *)
Definition drop_ends (l : list ascii) : list ascii :=
  removelast (tl l).

(** [_parse_scalar] *)
Definition _parse_scalar (v : list ascii) : scalar :=
  match v with
  | [] => SStr ""
  | _ =>
      let lowered := lower v in
      if list_eqb lowered (chars "null") then SNull
      else if list_eqb lowered (chars "true") then SBool true
      else if list_eqb lowered (chars "false") then SBool false
      else
        let numeric :=
          if has_char "." v then
            if is_float_literal v then Some (SFloat (float_of_literal (text v)))
            else None
          else
            match int_of_text v with
            | Some z => Some (SInt z)
            | None => None
            end in
        match numeric with
        | Some n => n
        | None =>
            if startswith v (chars "'") && endswith v (chars "'")
               || startswith v [DQ] && endswith v [DQ]
            then SStr (text (drop_ends v))
            else SStr (text v)
        end
  end.

(** [_dump_value] *)
Definition is_container (v : value) : bool :=
  match v with
  | VScalar _ => false
  | _ => true
  end.

Fixpoint _dump_value (v : value) (indent : nat) : list (list ascii) :=
  let prefix := spaces indent in
  match v with
  | VList items =>
      (fix each (items : list value) : list (list ascii) :=
         match items with
         | [] => []
         | item :: rest =>
             match item with
             | VScalar s => [prefix ++ chars "- " ++ _format_scalar s]
             | _ => (prefix ++ chars "-") :: _dump_value item (indent + indent_size)
             end ++ each rest
         end) items
  | VMap entries =>
      (fix each (entries : list (string * value)) : list (list ascii) :=
         match entries with
         | [] => []
         | (key, item) :: rest =>
             match item with
             | VScalar s => [prefix ++ chars key ++ chars ": " ++ _format_scalar s]
             | _ => (prefix ++ chars key ++ chars ":")
                      :: _dump_value item (indent + indent_size)
             end ++ each rest
         end) entries
  | VScalar s => [prefix ++ _format_scalar s]
  end.

(** [dump] *)
Definition dump (v : value) : string :=
  text (rstrip (join LF (_dump_value v 0)) ++ [LF]).

(** *** The parser

    The parser object holds the list of lines and an index into it.  The
    model carries the lines from the index on: [self.index >= len(self.lines)]
    is the empty list, [self.index = index + 1] drops the head, and restoring
    a saved index restores the saved list. *)

Definition is_blank_or_comment (l : _Line) : bool :=
  match strip (line_text l) with
  | [] => true
  | _ => startswith (lstrip (line_text l)) (chars "#")
  end.

(** [_peek]: skips blank and comment lines; the head of the result is the
    line returned, the empty list is the end of the input. *)
Fixpoint _peek (lines : list _Line) : list _Line :=
  match lines with
  | l :: rest => if is_blank_or_comment l then _peek rest else lines
  | [] => []
  end.

(** [_skip_blank_lines] *)
Fixpoint _skip_blank_lines (lines : list _Line) : list _Line :=
  match lines with
  | l :: rest =>
      let t := strip (line_text l) in
      match t with
      | [] => _skip_blank_lines rest
      | _ => if startswith t (chars "#") then _skip_blank_lines rest else lines
      end
  | [] => []
  end.

(** [_parse_key_value]: the key, and the value when the line carries one. *)
Definition _parse_key_value (t : list ascii) : result (string * option scalar) :=
  match split_once ":" t with
  | None => Raise (YamlError "Invalid mapping entry")
  | Some (key, remainder) =>
      let key := strip key in
      let remainder := strip remainder in
      match remainder with
      | [] => Ok (text key, None)
      | _ =>
          if list_eqb remainder (chars "|") || list_eqb remainder (chars ">")
          then Raise (YamlError "Multiline scalars are not supported")
          else Ok (text key, Some (_parse_scalar remainder))
      end
  end.

Inductive collection : Type := CNone | CList | CDict.

Definition is_item_line (t : list ascii) : bool :=
  list_eqb t (chars "-") || startswith t (chars "- ").

(** Whether a parsed scalar is the marker [__BLOCK__] that
    [_parse_block] and [_collect_additional_mapping_entries] test for. *)
Definition is_block_marker (s : scalar) : bool :=
  match s with
  | SStr m => String.eqb m "__BLOCK__"
  | _ => false
  end.

(** [_parse_block], [_parse_list_item] and
    [_collect_additional_mapping_entries].  [block_loop] is the [while True]
    loop of [_parse_block] with its three locals; every call and every loop
    iteration uses one unit of fuel. *)
Fixpoint block_loop (fuel : nat) (expected_indent : nat) (coll : collection)
  (items_list : list value) (mapping : list (string * value))
  (lines : list _Line) {struct fuel} : result (value * list _Line) :=
  match fuel with
  | O => Raise OutOfFuel
  | S fuel' =>
      let finish (rest : list _Line) : result (value * list _Line) :=
        match coll with
        | CList => Ok (VList items_list, rest)
        | CDict => Ok (VMap mapping, rest)
        | CNone => Ok (VMap [], rest)
        end in
      let saved := lines in
      match _peek lines with
      | [] => finish []
      | line :: rest =>
          if (line_indent line <? expected_indent)%nat then finish saved
          else if (expected_indent <? line_indent line)%nat then
            Raise (YamlError "Unexpected indentation")
          else
            let t := strip (line_text line) in
            if is_item_line t then
              match coll with
              | CDict => Raise (YamlError "Cannot mix list and mapping items")
              | _ =>
                  let! (v, rest') :=
                    _parse_list_item fuel' (lstrip (tl t)) expected_indent rest in
                  block_loop fuel' expected_indent CList (items_list ++ [v]) mapping rest'
              end
            else
              match coll with
              | CList => Raise (YamlError "Cannot mix list and mapping items")
              | _ =>
                  let! (key, parsed) := _parse_key_value t in
                  let! (v, rest') :=
                    match parsed with
                    | None =>
                        block_loop fuel' (expected_indent + indent_size) CNone [] [] rest
                    | Some s =>
                        if is_block_marker s then
                          block_loop fuel' (expected_indent + indent_size) CNone [] [] rest
                        else Ok (VScalar s, rest)
                    end in
                  block_loop fuel' expected_indent CDict items_list
                    (odict_set key v mapping) rest'
              end
      end
  end

with _parse_list_item (fuel : nat) (t : list ascii) (parent_indent : nat)
  (lines : list _Line) {struct fuel} : result (value * list _Line) :=
  match fuel with
  | O => Raise OutOfFuel
  | S fuel' =>
      match t with
      | [] => block_loop fuel' (parent_indent + indent_size) CNone [] [] lines
      | _ =>
          if endswith t (chars ":") then
            let key := text (strip (removelast t)) in
            let! (v, rest) :=
              block_loop fuel' (parent_indent + indent_size) CNone [] [] lines in
            Ok (VMap [(key, v)], rest)
          else
            match split_once ":" t with
            | Some (key, remainder) =>
                let key := text (strip key) in
                let remainder := strip remainder in
                let! (v, rest) :=
                  match remainder with
                  | [] => block_loop fuel' (parent_indent + indent_size) CNone [] [] lines
                  | _ => Ok (VScalar (_parse_scalar remainder), lines)
                  end in
                _collect_additional_mapping_entries fuel' (VMap [(key, v)])
                  (parent_indent + indent_size) rest
            | None =>
                _collect_additional_mapping_entries fuel'
                  (VScalar (_parse_scalar (strip t)))
                  (parent_indent + indent_size) lines
            end
      end
  end

with _collect_additional_mapping_entries (fuel : nat) (current : value)
  (indent : nat) (lines : list _Line) {struct fuel} : result (value * list _Line) :=
  match fuel with
  | O => Raise OutOfFuel
  | S fuel' =>
      match current with
      | VMap mapping =>
          let saved := lines in
          match _peek lines with
          | [] => Ok (current, [])
          | line :: rest =>
              if (line_indent line <? indent)%nat then Ok (current, _peek lines)
              else if (indent <? line_indent line)%nat then
                Raise (YamlError "Unexpected indentation in mapping")
              else
                let t := strip (line_text line) in
                if startswith t (chars "- ") then Ok (current, _peek lines)
                else
                  let! (key, parsed) := _parse_key_value t in
                  let! (v, rest') :=
                    match parsed with
                    | None => block_loop fuel' (indent + indent_size) CNone [] [] rest
                    | Some s =>
                        if is_block_marker s then
                          block_loop fuel' (indent + indent_size) CNone [] [] rest
                        else Ok (VScalar s, rest)
                    end in
                  _collect_additional_mapping_entries fuel'
                    (VMap (odict_set key v mapping)) indent rest'
          end
      | _ =>
          let saved := lines in
          match _peek lines with
          | line :: _ =>
              if (indent <=? line_indent line)%nat
                 && negb (startswith (strip (line_text line)) (chars "- "))
              then Raise (YamlError "Unexpected structure following scalar list item")
              else Ok (current, saved)
          | [] => Ok (current, saved)
          end
      end
  end.

Definition _parse_block (fuel : nat) (expected_indent : nat) (lines : list _Line)
  : result (value * list _Line) :=
  block_loop fuel expected_indent CNone [] [] lines.

(** Fuel that covers every run on [n] lines (see [load_never_out_of_fuel]). *)
Definition fuel_for (lines : list _Line) : nat := (2 * length lines + 2)%nat.

(** [SimpleYaml.parse] *)
Definition parse (lines : list _Line) : result value :=
  let! (v, rest) := _parse_block (fuel_for lines) 0 lines in
  match _skip_blank_lines rest with
  | [] => Ok v
  | _ => Raise (YamlError "Unexpected trailing content in YAML input")
  end.

(** [load] *)
Definition load (s : string) : result value :=
  parse (map make_line (splitlines (chars s))).

End Engine.

End simple_yaml.

(** * Module [toc] *)

Module toc.

(** What [json.load] returns: the raw table of contents. *)
Inductive json : Type :=
| JNull
| JBool (b : bool)
| JInt (z : Z)
| JFloat (f : spec_float)
| JStr (s : string)
| JList (items : list json)
| JDict (fields : list (string * json)).

(** [bool(x)] *)
Definition truthy (j : json) : bool :=
  match j with
  | JNull => false
  | JBool b => b
  | JInt z => negb (z =? 0)%Z
  | JFloat (S754_zero _) => false
  | JFloat _ => true
  | JStr s => negb (String.eqb s "")
  | JList l => match l with [] => false | _ => true end
  | JDict d => match d with [] => false | _ => true end
  end.

(** [a or b] *)
Definition py_or (a b : json) : json := if truthy a then a else b.

(** [item.get(key)] *)
Definition get (key : string) (fields : list (string * json)) : json :=
  match odict_get key fields with
  | Some v => v
  | None => JNull
  end.

(** The dataclass [StoplightNode], its fields with the declared types. *)
Inductive StoplightNode : Type := mkNode {
  type : string;
  title : string;
  slug : option string;
  id : option string;
  raw : json;
  children : list StoplightNode
}.

Definition str_in (s : string) (l : list string) : bool :=
  existsb (String.eqb s) l.

Definition is_markdown (n : StoplightNode) : bool :=
  str_in (type n) ["article"; "markdown"; "page"; "md"].

Definition is_section (n : StoplightNode) : bool :=
  str_in (type n) ["group"; "section"; "chapter"; "node"; "http_service"].

(** A JSON value where the dataclass declares [str]. *)
Definition as_str (field : string) (j : json) : result string :=
  match j with
  | JStr s => Ok s
  | _ => Raise (IllTyped field)
  end.

(** A JSON value where the dataclass declares [Optional[str]]. *)
Definition as_optional_str (field : string) (j : json) : result (option string) :=
  match j with
  | JNull => Ok None
  | JStr s => Ok (Some s)
  | _ => Raise (IllTyped field)
  end.

(** The first of the four child-list keys that is present and holds a list:
    [children_data], [None] when there is none. *)
Fixpoint find_children (keys : list string) (fields : list (string * json))
  : option (list json) :=
  match keys with
  | [] => None
  | key :: rest =>
      match odict_get key fields with
      | Some (JList l) => Some l
      | _ => find_children rest fields
      end
  end.

Definition child_keys : list string := ["items"; "children"; "contents"; "nodes"].
Definition group_tags : list string :=
  ["group"; "section"; "chapter"; "http_service"; "http-service"].
Definition article_tags : list string :=
  ["markdown"; "page"; "article"; "md"; "http_service.operation"].

(** [(item.get("type") or item.get("kind") or "").lower()] *)
Definition node_type_of (fields : list (string * json)) : result string :=
  match py_or (get "type" fields) (py_or (get "kind" fields) (JStr "")) with
  | JStr s => Ok (text (lower (chars s)))
  | _ => Raise (AttributeError "object has no attribute 'lower'")
  end.

Definition title_of (fields : list (string * json)) : json :=
  let t := py_or (get "title" fields) (py_or (get "name" fields) (get "label" fields)) in
  if truthy t then t
  else py_or (get "slug" fields) (py_or (get "id" fields) (JStr "Untitled")).

Definition slug_of (fields : list (string * json)) : json :=
  py_or (get "slug" fields) (py_or (get "uriSlug" fields) (get "permalink" fields)).

Definition id_of (fields : list (string * json)) : json :=
  py_or (get "id" fields) (get "targetId" fields).

(** [StoplightNode(type=..., title=title, slug=slug, id=node_id, raw=item,
    children=children)] *)
Definition build_node (kind : string) (item : json) (fields : list (string * json))
  (kids : list StoplightNode) : result (option StoplightNode) :=
  let! t := as_str "title" (title_of fields) in
  let! s := as_optional_str "slug" (slug_of fields) in
  let! i := as_optional_str "id" (id_of fields) in
  Ok (Some (mkNode kind t s i item kids)).

(** The lookup of [find_children], on the fields paired with the result of
    normalising their elements. *)
Fixpoint find_parsed {A : Type} (keys : list string)
  (parsed : list (string * option A)) : option A :=
  match keys with
  | [] => None
  | key :: rest =>
      match odict_get key parsed with
      | Some (Some r) => Some r
      | _ => find_parsed rest parsed
      end
  end.

(** [TocParser._parse_item].  The recursion is structural on the raw tree:
    [normalised] pairs every list-valued field with the normalisation of its
    elements, and the branch that needs [children_data] picks its field
    there ([_parse_item_unfold] states the function in the source's terms). *)
Fixpoint _parse_item (item : json) : result (option StoplightNode) :=
  match item with
  | JDict fields =>
      let each :=
        fix each (l : list json) : result (list StoplightNode) :=
          match l with
          | [] => Ok []
          | child :: l' =>
              let! c := _parse_item child in
              let! cs := each l' in
              Ok (match c with Some n => n :: cs | None => cs end)
          end in
      let normalised :=
        (fix per_field (fs : list (string * json))
           : list (string * option (result (list StoplightNode))) :=
           match fs with
           | [] => []
           | (k, v) :: fs' =>
               (k, match v with JList l => Some (each l) | _ => None end)
                 :: per_field fs'
           end) fields in
      let parse_children : result (list StoplightNode) :=
        match find_parsed child_keys normalised with
        | Some r => r
        | None => Ok []
        end in
      let! node_type := node_type_of fields in
      if str_in node_type group_tags then
        let! kids := parse_children in
        build_node "group" item fields kids
      else if str_in node_type article_tags then
        build_node "article" item fields []
      else
        match find_children child_keys fields with
        | Some (_ :: _) =>
            let! kids := parse_children in
            build_node "group" item fields kids
        | _ =>
            if truthy (get "markdown" fields) then build_node "article" item fields []
            else Ok None
        end
  | _ => Ok None
  end.

(** [TocParser.parse] *)
Fixpoint parse (items : list json) : result (list StoplightNode) :=
  match items with
  | [] => Ok []
  | item :: rest =>
      let! c := _parse_item item in
      let! cs := parse rest in
      Ok (match c with Some n => n :: cs | None => cs end)
  end.

(** [slugify]: [_slug_pattern.sub("-", lowered)] replaces every maximal run
    of characters outside [a-z0-9] by one hyphen. *)
Definition is_slug_char (c : ascii) : bool :=
  let n := code c in
  ((97 <=? n) && (n <=? 122) || (48 <=? n) && (n <=? 57))%N.

Fixpoint slug_sub (in_run : bool) (l : list ascii) : list ascii :=
  match l with
  | [] => []
  | c :: r =>
      if is_slug_char c then c :: slug_sub false r
      else if in_run then slug_sub true r
      else "-"%char :: slug_sub true r
  end.

Definition slugify_chars (value : list ascii) : list ascii :=
  let lowered := lower (strip value) in
  let replaced := slug_sub false lowered in
  let slug := strip_char "-" replaced in
  match slug with
  | [] => chars "page"
  | _ => slug
  end.

Definition slugify (value : string) : string :=
  text (slugify_chars (chars value)).

End toc.

(** * Module [migrator] *)

Module migrator.

Import simple_yaml toc.

(** ** Paths and the file system

    A [pathlib.Path] is the list of its parts; [Path(".")] is the empty
    list.  The file system holds the regular files with their text and the
    directories; every effective change is also appended to [fs_log].
    Failures of the operating system (permissions, a missing directory, a
    file where a directory is expected, ...) are outside the model:
    [mkdir_parents] and [write_text] always succeed, and a statement that
    a run completes names the directories that it needs. *)

Definition Path : Type := list string.

(** [p / name] for a [name] of one part *)
Definition path_join (p : Path) (name : string) : Path := p ++ [name].

(** [p.parent] *)
Definition parent (p : Path) : Path := removelast p.

Definition is_prefix_of (a b : Path) : bool :=
  bool_decide (take (length a) b = a).

(** [p.is_absolute()]: the root is the first part of an absolute path. *)
Definition is_absolute (p : Path) : bool :=
  match p with
  | first :: _ => String.eqb first "/"
  | [] => false
  end.

(** [p.relative_to(base)]: [ValueError] unless the parts of [base] begin
    those of [p]; with the empty base [Path('.')] also when [p] is absolute
    (one path is relative and the other is absolute). *)
Definition relative_to (p base : Path) : result Path :=
  if is_prefix_of base p && negb (bool_decide (base = []) && is_absolute p)
  then Ok (drop (length base) p)
  else Raise (ValueError "path is not in the subpath of base").

(** [str(p)] *)
Definition path_str (p : Path) : string :=
  match p with
  | [] => "."
  | first :: rest =>
      if String.eqb first "/" then "/" +:+ String.concat "/" rest
      else String.concat "/" p
  end.

Inductive fs_op : Type :=
| FsMkdir (p : Path)
| FsWriteText (p : Path) (content : string).

Record World : Type := mkWorld {
  files : gmap Path string;
  dirs : gset Path;
  fs_log : list fs_op;
  stdout : list string
}.

(** The non-empty prefixes of a path, shortest first. *)
Fixpoint ancestors_and_self (p : Path) : list Path :=
  match p with
  | [] => []
  | a :: rest => [a] :: map (cons a) (ancestors_and_self rest)
  end.

(** [p.mkdir(parents=True, exist_ok=True)] *)
Definition mkdir_parents (p : Path) (w : World) : World :=
  let created := filter (fun q => q ∉ dirs w) (ancestors_and_self p) in
  {| files := files w;
     dirs := dirs w ∪ list_to_set created;
     fs_log := fs_log w ++ map FsMkdir created;
     stdout := stdout w |}.

(** [p.write_text(content)] *)
Definition write_text (p : Path) (content : string) (w : World) : World :=
  {| files := <[p := content]> (files w);
     dirs := dirs w;
     fs_log := fs_log w ++ [FsWriteText p content];
     stdout := stdout w |}.

(** [print(s)] *)
Definition print (s : string) (w : World) : World :=
  {| files := files w;
     dirs := dirs w;
     fs_log := fs_log w;
     stdout := stdout w ++ [s] |}.

(** ** Configuration, client, migrator state *)

Record MigrationConfig : Type := mkConfig {
  docs_yml_path : Path;
  pages_dir : Path;
  overwrite_navigation : bool;
  dry_run : bool
}.

(** The interface [StoplightClient]. *)
Record StoplightClient : Type := mkClient {
  load_tree : result (list StoplightNode);
  get_markdown : StoplightNode -> result (option string)
}.

(** The mutable part of a [StoplightMigrator] together with the world it
    acts on.  An exception leaves the state as it was when it was raised. *)
Record State : Type := mkState {
  slug_registry : gmap string Z;
  world : World
}.

Definition M (A : Type) : Type := State -> result A * State.

Definition ret {A} (a : A) : M A := fun st => (Ok a, st).

Definition bind {A B} (c : M A) (k : A -> M B) : M B :=
  fun st =>
    match c st with
    | (Ok a, st') => k a st'
    | (Raise e, st') => (Raise e, st')
    end.

Definition lift {A} (r : result A) : M A := fun st => (r, st).

Definition with_world (f : World -> World) : M unit :=
  fun st => (Ok tt, {| slug_registry := slug_registry st; world := f (world st) |}).

Declare Scope migrator_scope.
Delimit Scope migrator_scope with M.
Notation "'do!' x ':=' c 'in' k" := (bind c (fun x => k))
  (at level 10, x pattern, c at level 100, k at level 200) : migrator_scope.

(** ** Slug allocation *)

(** [f"{base}-{counter}"] *)
Definition suffixed (base : string) (counter : Z) : string :=
  base +:+ "-" +:+ str_of_int counter.

(** The loop [while f"{base}-{counter}" in self.slug_registry: counter += 1];
    the result is the counter at which it stops. *)
Fixpoint probe (fuel : nat) (registry : gmap string Z) (base : string)
  (counter : Z) : Z :=
  match fuel with
  | O => counter
  | S fuel' =>
      if bool_decide (is_Some (registry !! suffixed base counter))
      then probe fuel' registry base (counter + 1)
      else counter
  end.

(** [_ensure_unique_slug] on the registry: the slug returned and the
    registry after the call.  The loop stops within [size registry + 1]
    tests ([probe_free]). *)
Definition ensure_unique (registry : gmap string Z) (slug : string)
  : string * gmap string Z :=
  let slug := slugify slug in
  match registry !! slug with
  | None => (slug, <[slug := 1]> registry)
  | Some c =>
      let base := slug in
      let counter := probe (S (size registry)) registry base (c + 1) in
      let unique_slug := suffixed base counter in
      (unique_slug, <[unique_slug := 1]> (<[base := counter]> registry))
  end.

Definition _ensure_unique_slug (slug : string) : M string :=
  fun st =>
    let '(s, registry) := ensure_unique (slug_registry st) slug in
    (Ok s, {| slug_registry := registry; world := world st |}).

(** [node.slug or slugify(node.title)] *)
Definition slug_or_title (node : StoplightNode) : string :=
  match slug node with
  | Some s => if String.eqb s "" then slugify (title node) else s
  | None => slugify (title node)
  end.

(** ** Page files *)

(** [_format_front_matter_value] *)
Definition _format_front_matter_value (value : string) : string :=
  let v := chars value in
  match v with
  | [] => "''"
  | _ =>
      let requires_quotes :=
        has_any [LF; ":"%char] v || negb (list_eqb v (strip v)) in
      if requires_quotes then
        text (DQ :: replace_char DQ [BS; DQ] (replace_char BS [BS; BS] v) ++ [DQ])
      else value
  end.

(** [_wrap_markdown] *)
Definition _wrap_markdown (title slug markdown : string) : string :=
  let front_matter_lines :=
    [chars "---";
     chars ("slug: " +:+ slug);
     chars ("title: " +:+ _format_front_matter_value title);
     chars "---";
     []] in
  let body := strip (chars markdown) in
  let lines :=
    match body with
    | [] => front_matter_lines
    | _ => front_matter_lines ++ [body]
    end in
  text (join LF (lines ++ [[]])).

(** ** Navigation *)

(** The [slug] fields of a navigation entry and of the entries in its
    [contents], at every depth. *)
Fixpoint nav_slugs (entry : value) : list string :=
  match entry with
  | VMap fields =>
      (fix each_field (fields : list (string * value)) : list string :=
         match fields with
         | [] => []
         | (k, v) :: rest =>
             (if String.eqb k "slug" then
                match v with VScalar (SStr s) => [s] | _ => [] end
              else if String.eqb k "contents" then
                match v with
                | VList l =>
                    (fix each (l : list value) : list string :=
                       match l with
                       | [] => []
                       | e :: l' => nav_slugs e ++ each l'
                       end) l
                | _ => []
                end
              else [])
             ++ each_field rest
         end) fields
  | _ => []
  end.

Definition navigation_slugs (navigation : list value) : list string :=
  flat_map nav_slugs navigation.

Section Run.
Context {F : PyFloatOps}.
Variable client : StoplightClient.
Variable config : MigrationConfig.

Open Scope migrator_scope.

(** [_create_page_entry] *)
Definition _create_page_entry (node : StoplightNode) : M (option value) :=
  do! markdown := lift (get_markdown client node) in
  match markdown with
  | None => ret None
  | Some markdown =>
      do! slug := _ensure_unique_slug (slug_or_title node) in
      let filename := slug +:+ ".mdx" in
      let output_path := path_join (pages_dir config) filename in
      let page_content := _wrap_markdown (title node) slug markdown in
      do! _ := (if dry_run config then ret tt
                else with_world (write_text output_path page_content)) in
      do! rel := lift (relative_to output_path (parent (docs_yml_path config))) in
      ret (Some (VMap [("page", VStr (title node));
                        ("slug", VStr slug);
                        ("path", VStr (path_str rel))]))
  end.

Definition section_entry (node : StoplightNode) (contents : list value) : M (option value) :=
  do! slug := _ensure_unique_slug (slug_or_title node) in
  ret (Some (VMap [("section", VStr (title node));
                    ("slug", VStr slug);
                    ("contents", VList contents)])).

(** [_convert_node]; [convert_children] is the loop over [node.children]
    that collects the entries which are not [None]. *)
Fixpoint _convert_node (node : StoplightNode) : M (option value) :=
  let convert_children :=
    (fix each (l : list StoplightNode) : M (list value) :=
       match l with
       | [] => ret []
       | child :: rest =>
           do! child_nav := _convert_node child in
           do! contents := each rest in
           ret (match child_nav with
                 | Some e => e :: contents
                 | None => contents
                 end)
       end) in
  if is_markdown node then _create_page_entry node
  else if is_section node then
    do! contents := convert_children (children node) in
    match contents with
    | [] => ret None
    | _ => section_entry node contents
    end
  else
    match children node with
    | _ :: _ =>
        do! contents := convert_children (children node) in
        match contents with
        | _ :: _ => section_entry node contents
        | [] => _create_page_entry node
        end
    | [] => _create_page_entry node
    end.

(** The loop of [migrate] over the root nodes. *)
Fixpoint convert_nodes (nodes : list StoplightNode) : M (list value) :=
  match nodes with
  | [] => ret []
  | node :: rest =>
      do! nav_item := _convert_node node in
      do! navigation := convert_nodes rest in
      ret (match nav_item with
            | Some e => e :: navigation
            | None => navigation
            end)
  end.

(** [_load_docs_yml] *)
Definition _load_docs_yml : M value :=
  fun st =>
    let path := docs_yml_path config in
    match files (world st) !! path with
    | Some t => (load t, st)
    | None =>
        if bool_decide (path ∈ dirs (world st)) || bool_decide (path = [])
        then (Raise (OSError "Is a directory"), st)
        else (Ok (VMap []), st)
    end.

(** [_write_docs_yml] *)
Definition _write_docs_yml (data : value) : M unit :=
  with_world (write_text (docs_yml_path config) (dump data)).

(** Lines 42-47 of [migrate]: the document that is written or printed.
    [load] returns a mapping or a list; on a list [docs_config.get] or the
    item assignment raises. *)
Definition merge_navigation (docs_config : value) (navigation : list value)
  : result value :=
  match docs_config with
  | VMap entries =>
      let navigation :=
        if negb (odict_mem "navigation" entries) || negb (overwrite_navigation config)
        then
          let existing :=
            match odict_get "navigation" entries with
            | Some (VList l) => l
            | _ => []
            end in
          existing ++ navigation
        else navigation in
      Ok (VMap (odict_set "navigation" (VList navigation) entries))
  | VList l =>
      if negb (existsb (fun v => match v with
                                 | VScalar (SStr s) => String.eqb s "navigation"
                                 | _ => false
                                 end) l)
         || negb (overwrite_navigation config)
      then Raise (AttributeError "'list' object has no attribute 'get'")
      else Raise (TypeError "list indices must be integers or slices, not str")
  | VScalar _ => Raise (TypeError "docs.yml is not a mapping")
  end.

(** [migrate] *)
Definition migrate : M unit :=
  do! nodes := lift (load_tree client) in
  do! navigation := convert_nodes nodes in
  do! docs_config := _load_docs_yml in
  do! merged := lift (merge_navigation docs_config navigation) in
  if dry_run config then with_world (print (dump merged))
  else _write_docs_yml merged.

(** [StoplightMigrator.__init__]: the state of a new migrator in world [w]. *)
Definition __init__ (w : World) : State :=
  {| slug_registry := ∅;
     world := mkdir_parents (pages_dir config) w |}.

(** One migration run, as [cli.main] performs it: construct the migrator,
    then [migrate]. *)
Definition run (w : World) : result unit * State :=
  migrate (__init__ w).

End Run.

End migrator.

(** * Module [clients]

    The helpers of the module that work on decoded JSON or on text, and the
    lookup of the markdown of a node in a local export
    ([StoplightDirectoryClient.get_markdown]).  The fields of a [JDict] are
    those of a Python [dict]: a lookup sees the first field of a key, an
    iteration sees the fields in order.  [Path.rglob] lists the file system
    in an order that Python does not fix; it is a parameter of the
    directory client. *)

Module clients.

Import toc migrator.

(** ** [extract_markdown_from_node] *)

Definition markdown_fields : list (list string) :=
  [["markdown"]; ["data"; "markdown"]; ["document"; "markdown"]; ["body"; "markdown"]].

Definition text_keys : list string := ["content"; "raw"; "plain"; "text"].

(** The loop [for key in path]: the value at the end of the path, [None]
    when the loop was left by [break]. *)
Fixpoint follow (path : list string) (current : json) : option json :=
  match path with
  | [] => Some current
  | key :: rest =>
      match current with
      | JDict fields =>
          match odict_get key fields with
          | Some v => follow rest v
          | None => None
          end
      | _ => None
      end
  end.

(** The loop [for text_key in ("content", "raw", "plain", "text")]. *)
Fixpoint first_text (keys : list string) (fields : list (string * json))
  : option string :=
  match keys with
  | [] => None
  | key :: rest =>
      match odict_get key fields with
      | Some (JStr s) => Some s
      | _ => first_text rest fields
      end
  end.

(** The loop [for path in markdown_fields]. *)
Fixpoint extract_along (paths : list (list string)) (node : json) : option string :=
  match paths with
  | [] => None
  | path :: rest =>
      match follow path node with
      | Some (JStr s) => Some s
      | Some (JDict fields) =>
          match first_text text_keys fields with
          | Some s => Some s
          | None => extract_along rest node
          end
      | _ => extract_along rest node
      end
  end.

Definition extract_markdown_from_node (node : json) : option string :=
  extract_along markdown_fields node.

(** ** [_looks_like_toc] and [find_table_of_contents] *)

(** [isinstance(item, dict) and any(k in item for k in ("type", "kind", "title"))] *)
Definition toc_like (item : json) : bool :=
  match item with
  | JDict fields => existsb (fun k => odict_mem k fields) ["type"; "kind"; "title"]
  | _ => false
  end.

Definition _looks_like_toc (items : list json) : bool :=
  let sample := take 5 items in
  match sample with
  | [] => false
  | _ => forallb toc_like sample
  end.

Definition toc_keys : list string :=
  ["tableOfContents"; "toc"; "tree"; "items"; "contents"; "children"].

(** The candidates that [visit] appends for one [dict], before it visits
    the values. *)
Definition own_candidates (fields : list (string * json)) : list (list json) :=
  flat_map (fun key =>
              match get key fields with
              | JList candidate => if _looks_like_toc candidate then [candidate] else []
              | _ => []
              end) toc_keys.

(** The list [candidates] after [visit(value)]. *)
Fixpoint toc_candidates (value : json) : list (list json) :=
  match value with
  | JDict fields =>
      own_candidates fields
      ++ (fix each (fs : list (string * json)) : list (list json) :=
            match fs with
            | [] => []
            | (_, item) :: fs' => toc_candidates item ++ each fs'
            end) fields
  | JList items =>
      (fix each (l : list json) : list (list json) :=
         match l with
         | [] => []
         | item :: l' => toc_candidates item ++ each l'
         end) items
  | _ => []
  end.

Definition find_table_of_contents (data : json) : option (list json) :=
  head (toc_candidates data).

(** ** [collect_nodes_by_id]

    The result is declared [Dict[str, dict]]; the model returns [IllTyped]
    where an [id] that is not a [str] would become a key, and [TypeError]
    where Python does (an [id] that is a list or a dict cannot be hashed). *)
Definition record_node (value : json) (fields : list (string * json))
  (nodes : list (string * json)) : result (list (string * json)) :=
  let node_id := get "id" fields in
  let node_type := py_or (get "type" fields) (get "kind" fields) in
  if truthy node_id && truthy node_type then
    match node_id with
    | JStr s => Ok (odict_set s value nodes)
    | JList _ | JDict _ => Raise (TypeError "unhashable type")
    | _ => Raise (IllTyped "id")
    end
  else Ok nodes.

(** [visit(value)] on the dictionary [nodes] built so far. *)
Fixpoint visit (value : json) (nodes : list (string * json))
  : result (list (string * json)) :=
  match value with
  | JDict fields =>
      let! nodes := record_node value fields nodes in
      (fix each (fs : list (string * json)) (nodes : list (string * json))
         : result (list (string * json)) :=
         match fs with
         | [] => Ok nodes
         | (_, item) :: fs' =>
             let! nodes := visit item nodes in
             each fs' nodes
         end) fields nodes
  | JList items =>
      (fix each (l : list json) (nodes : list (string * json))
         : result (list (string * json)) :=
         match l with
         | [] => Ok nodes
         | item :: l' =>
             let! nodes := visit item nodes in
             each l' nodes
         end) items nodes
  | _ => Ok nodes
  end.

Definition collect_nodes_by_id (data : json) : result (list (string * json)) :=
  visit data [].

(** ** [_extract_json_object]

    [scan] is the loop over [range(start, len(source))] from position
    [index] on, with the three locals; it returns the index at which the
    function returns. *)
Fixpoint scan (depth : Z) (in_string escape : bool) (l : list ascii) (index : nat)
  : option nat :=
  match l with
  | [] => None
  | char :: rest =>
      if in_string then
        if escape then scan depth in_string false rest (S index)
        else if Ascii.eqb char BS then scan depth in_string true rest (S index)
        else if Ascii.eqb char DQ then scan depth false escape rest (S index)
        else scan depth in_string escape rest (S index)
      else
        if Ascii.eqb char DQ then scan depth true escape rest (S index)
        else if Ascii.eqb char "{" then scan (depth + 1) in_string escape rest (S index)
        else if Ascii.eqb char "}" then
          let depth := depth - 1 in
          if (depth =? 0)%Z then Some index
          else scan depth in_string escape rest (S index)
        else scan depth in_string escape rest (S index)
  end.

Definition _extract_json_object (source : list ascii) (start : nat)
  : option (list ascii) :=
  match scan 0 false false (drop start source) start with
  | Some index => Some (take (index + 1 - start) (drop start source))
  | None => None
  end.

(** ** [StoplightDirectoryClient] *)

Record StoplightDirectoryClient : Type := mkDirectoryClient {
  root : Path;
  toc_filename : string;
  documents_dirname : string
}.

(** [p.exists()] *)
Definition path_exists (w : World) (p : Path) : bool :=
  bool_decide (is_Some (files w !! p)) || bool_decide (p ∈ dirs w)
  || bool_decide (p = []).

(** [p.read_text()]: only a regular file can be read. *)
Definition read_text (w : World) (p : Path) : result string :=
  match files w !! p with
  | Some t => Ok t
  | None => Raise (OSError "cannot read the file")
  end.

Definition markdown_extensions : list string := [".md"; ".mdx"; ".markdown"].

(** [slug.replace("/", "-")] *)
Definition slug_base (slug : string) : string :=
  text (replace_char "/" ["-"%char] (chars slug)).

(** [_candidate_markdown_paths] *)
Definition _candidate_markdown_paths (documents_dir : Path) (slug : string)
  : list Path :=
  map (fun extension => path_join documents_dir (slug_base slug +:+ extension))
    markdown_extensions.

Section Directory.

(** [root.rglob(pattern)] in a world: the paths under [root] whose name
    matches [pattern], in the order in which Python yields them. *)
Variable rglob : World -> Path -> string -> list Path.
Variable self : StoplightDirectoryClient.
Variable w : World.

(** [_find_markdown_file] *)
Definition _find_markdown_file (slug : string) : option Path :=
  head (flat_map (fun extension =>
                    List.filter (fun candidate =>
                                   bool_decide (documents_dirname self ∈ candidate))
                      (rglob w (root self) (slug_base slug +:+ extension)))
          markdown_extensions).

(** [node.slug or node.id or node.raw.get("slug")] *)
Definition node_slug (node : StoplightNode) : result json :=
  match slug node with
  | Some (String c s) => Ok (JStr (String c s))
  | _ =>
      match id node with
      | Some (String c s) => Ok (JStr (String c s))
      | _ =>
          match raw node with
          | JDict fields => Ok (get "slug" fields)
          | _ => Raise (AttributeError "object has no attribute 'get'")
          end
      end
  end.

(** The first of the paths that exists, read. *)
Fixpoint read_first (candidates : list Path) : option (result string) :=
  match candidates with
  | [] => None
  | candidate :: rest =>
      if path_exists w candidate then Some (read_text w candidate)
      else read_first rest
  end.

(** [get_markdown] *)
Definition get_markdown (node : StoplightNode) : result (option string) :=
  let! slug := node_slug node in
  if negb (truthy slug) then Ok None
  else
    match slug with
    | JStr slug =>
        let documents_dir := path_join (root self) (documents_dirname self) in
        match read_first (_candidate_markdown_paths documents_dir slug) with
        | Some r => let! t := r in Ok (Some t)
        | None =>
            match _find_markdown_file slug with
            | Some fallback =>
                if path_exists w fallback then
                  let! t := read_text w fallback in Ok (Some t)
                else Ok (extract_markdown_from_node (raw node))
            | None => Ok (extract_markdown_from_node (raw node))
            end
        end
    | _ => Raise (AttributeError "object has no attribute 'replace'")
    end.

End Directory.

End clients.

(** * Predicates used in the statements *)

Import simple_yaml toc migrator.

(** The float builtins restricted to NaN: closed examples are stated on this
    instance; none of them contains a float. *)
Definition nan_only : PyFloatOps :=
  {| float_repr := fun _ => "nan"; float_of_literal := fun _ => S754_nan |}.

(** A text without a hyphen next to another and made of [a-z0-9] and
    hyphens only; [after_hyphen] tells whether a hyphen precedes it. *)
Fixpoint hyphenated (after_hyphen : bool) (l : list ascii) : bool :=
  match l with
  | [] => true
  | c :: r =>
      if is_slug_char c then hyphenated false r
      else Ascii.eqb c "-" && negb after_hyphen && hyphenated true r
  end.

(** The slugs of the entry [_convert_node] returns, if any. *)
Definition entry_slugs (entry : option value) : list string :=
  match entry with
  | Some e => nav_slugs e
  | None => []
  end.

(** [slugs] were allocated between the states [st] and [st']: they are
    pairwise distinct, absent from the registry of [st], present in the
    registry of [st'], and the registry lost no key. *)
Definition allocated (st : State) (slugs : list string) (st' : State) : Prop :=
  dom (slug_registry st) ⊆ dom (slug_registry st')
  /\ NoDup slugs
  /\ (forall s, s ∈ slugs ->
        (s ∉ dom (slug_registry st)) /\ (s ∈ dom (slug_registry st'))).



(** The entries of a mapping under the keys other than [key], in order. *)
Definition other_entries (key : string) (m : list (string * value))
  : list (string * value) :=
  filter (fun kv => kv.1 <> key) m.

(** The text of a line is blank or a comment. *)
Definition blank_or_comment (l : list ascii) : Prop :=
  strip l = [] \/ startswith (lstrip l) (chars "#") = true.

(** ** Sample inputs for the closed examples *)

Definition article (t : string) (s : option string) : StoplightNode :=
  mkNode "article" t s None (JDict [("title", JStr t)]) [].

Definition group (t : string) (kids : list StoplightNode) : StoplightNode :=
  mkNode "group" t None None (JDict [("title", JStr t)]) kids.

(** A tree with repeated titles and repeated slug fields. *)
Definition sample_tree : list StoplightNode :=
  [ group "FAQ" [article "FAQ" None; article "FAQ" None; article "Setup" (Some "faq")];
    article "FAQ" (Some "FAQ 2");
    group "Setup" [article "Setup" (Some "faq-2")] ].

Definition sample_client (nodes : list StoplightNode) : StoplightClient :=
  {| load_tree := Ok nodes;
     get_markdown := fun n => Ok (Some ("# " +:+ title n)) |}.

Definition sample_config (overwrite dry : bool) : MigrationConfig :=
  {| docs_yml_path := ["docs.yml"];
     pages_dir := ["docs"; "pages"];
     overwrite_navigation := overwrite;
     dry_run := dry |}.

Definition empty_world : World :=
  {| files := ∅; dirs := ∅; fs_log := []; stdout := [] |}.

Definition fresh_state : State :=
  {| slug_registry := ∅; world := empty_world |}.

(** A world in which [docs.yml] holds the text [t] and nothing else exists. *)
Definition docs_world (t : string) : World :=
  {| files := {[ ["docs.yml"] := t ]}; dirs := ∅; fs_log := []; stdout := [] |}.



(** Two worlds with the same file system: no file was written and no
    directory created between them. *)
Definition same_file_system (w w' : World) : Prop :=
  files w' = files w /\ dirs w' = dirs w /\ fs_log w' = fs_log w.

(** The quoting rule of the encoder in the words of the specification: the
    characters that force quoting, double quoting with backslash and double
    quote escaped, and the condition under which a non-empty string is
    quoted. *)
Definition quoting_chars : list ascii :=
  [LF; ":"; "#"; "{"; "}"; "["; "]"; DQ; "'"; "@"; "`"]%char.

Definition escape_char (c : ascii) : list ascii :=
  if Ascii.eqb c BS then [BS; BS]
  else if Ascii.eqb c DQ then [BS; DQ]
  else [c].

Definition double_quoted (t : list ascii) : list ascii :=
  DQ :: flat_map escape_char t ++ [DQ].

Definition must_quote (t : list ascii) : Prop :=
  Exists (fun c => c ∈ t) quoting_chars \/ strip t <> t.

#[global] Instance must_quote_dec (t : list ascii) : Decision (must_quote t).
Proof. unfold must_quote. apply _. Defined.

(** The raw record carries no recognised discriminator: what the
    normaliser reads as its type is a text (the empty one when [type] and
    [kind] are missing or empty) that lower-cases to none of the group or
    article tags. *)
Definition unrecognised_type (fields : list (string * json)) : Prop :=
  exists s,
    py_or (get "type" fields) (py_or (get "kind" fields) (JStr "")) = JStr s
    /\ str_in (text (lower (chars s))) group_tags = false
    /\ str_in (text (lower (chars s))) article_tags = false.

(** No accepted child-list key holds a non-empty list. *)
Definition no_child_list (fields : list (string * json)) : Prop :=
  forall key l, key ∈ child_keys -> odict_get key fields = Some (JList l) -> l = [].

(** The canonical nodes of a forest, at every depth. *)
Fixpoint nodes_of (n : StoplightNode) : list StoplightNode :=
  n :: (fix each (l : list StoplightNode) : list StoplightNode :=
          match l with
          | [] => []
          | k :: l' => nodes_of k ++ each l'
          end) (children n).

Definition forest_nodes (l : list StoplightNode) : list StoplightNode :=
  flat_map nodes_of l.

(** A canonical node that is the normal form of its own raw record. *)
Definition canonical (m : StoplightNode) : Prop := _parse_item (raw m) = Ok (Some m).

(** A text that [str.splitlines] keeps in one line. *)
Definition no_linebreak (l : list ascii) : Prop :=
  Forall (fun c => is_linebreak c = false) l.

(** ** The documents on which [load] inverts [dump] *)

#[global] Instance spec_float_eq_dec : EqDecision spec_float.
Proof. solve_decision. Defined.

#[global] Instance scalar_eq_dec : EqDecision scalar.
Proof. solve_decision. Defined.

(** A text that fills a line: not empty, no white space at either end, no
    line boundary inside. *)
Definition solid (t : list ascii) : bool :=
  negb (list_eqb t []) && list_eqb (strip t) t
  && forallb (fun c => negb (is_linebreak c)) t.

Section RoundTripClass.
Context {F : PyFloatOps}.

(** An [int] that [str] and [int] convert under the interpreter's default
    limit: its decimal text has at most [max_str_digits] digits. *)
Definition within_digit_limit (z : Z) : Prop :=
  Z.abs z < 10 ^ max_str_digits.

(** The scalar survives [_format_scalar] followed by [_parse_scalar], and
    its text fills a line. *)
Definition scalar_round_trips (s : scalar) : bool :=
  solid (_format_scalar s) && bool_decide (_parse_scalar (_format_scalar s) = s).

(** A scalar as the value of a mapping entry: its text is not one of the
    block-scalar indicators that [_parse_key_value] rejects, and it is not
    the string that the parser reads as its block marker. *)
Definition entry_scalar_ok (s : scalar) : bool :=
  scalar_round_trips s
  && negb (is_block_marker s)
  && negb (list_eqb (_format_scalar s) (chars "|"))
  && negb (list_eqb (_format_scalar s) (chars ">")).

(** A scalar as a list item: its text holds no colon, which
    [_parse_list_item] would read as the start of a mapping. *)
Definition item_scalar_ok (s : scalar) : bool :=
  scalar_round_trips s && negb (has_char ":" (_format_scalar s)).

(** A key that [dump] can emit as it is: no colon, no white space at
    either end, no line boundary, and it starts neither a comment nor a
    list item. *)
Definition key_ok (k : string) : bool :=
  let kc := chars k in
  negb (has_char ":" kc)
  && list_eqb (strip kc) kc
  && forallb (fun c => negb (is_linebreak c)) kc
  && negb (startswith kc (chars "#"))
  && negb (startswith kc (chars "- ")).

(** A list or a mapping inside which no list is empty, no mapping repeats a
    key, every key is [key_ok] and every scalar is fit for its place. *)
Fixpoint container_ok (v : value) : bool :=
  match v with
  | VScalar _ => false
  | VList items =>
      match items with [] => false | _ => true end
      && (fix each (items : list value) : bool :=
            match items with
            | [] => true
            | item :: rest =>
                match item with
                | VScalar s => item_scalar_ok s
                | _ => container_ok item
                end && each rest
            end) items
  | VMap entries =>
      bool_decide (NoDup (map fst entries))
      && (fix each (entries : list (string * value)) : bool :=
            match entries with
            | [] => true
            | (key, item) :: rest =>
                key_ok key
                && match item with
                   | VScalar s => entry_scalar_ok s
                   | _ => container_ok item
                   end && each rest
            end) entries
  end.

End RoundTripClass.

(** The conditions of [container_ok] on the entries of a mapping and on the
    items of a list. *)
Section RoundTripParts.
Context {F : PyFloatOps}.

Definition entry_ok (kv : string * value) : bool :=
  key_ok kv.1
  && match kv.2 with
     | VScalar s => entry_scalar_ok s
     | _ => container_ok kv.2
     end.

Definition item_ok (item : value) : bool :=
  match item with
  | VScalar s => item_scalar_ok s
  | _ => container_ok item
  end.

(** The lines that follow a block opened at an indentation below [j]: none,
    or a line that is neither blank nor a comment, indented less than [j]. *)
Definition ends_at (j : nat) (lines : list _Line) : Prop :=
  match lines with
  | [] => True
  | l :: _ => is_blank_or_comment l = false /\ (line_indent l < j)%nat
  end.

(** The parsed form of the lines of [dump]. *)
Definition lines_of (v : value) (i : nat) : list _Line :=
  map make_line (_dump_value v i).

(** What [_parse_block] returns when its loop ends. *)
Definition block_result (coll : collection) (items_list : list value)
  (mapping : list (string * value)) : value :=
  match coll with
  | CList => VList items_list
  | CDict => VMap mapping
  | CNone => VMap []
  end.

(** What the parser makes of the lines of a container followed by [rest]. *)
Definition reads_back (v : value) : Prop :=
  container_ok v = true ->
  forall fuel i rest,
    ends_at i rest ->
    (2 * length (lines_of v i ++ rest) + 2 <= fuel)%nat ->
    block_loop fuel i CNone [] [] (lines_of v i ++ rest) = Ok (v, rest).

End RoundTripParts.

(** A line that [dump] can end its output with: it holds no line boundary
    and its last character is not white space. *)
Definition closed_line (l : list ascii) : Prop :=
  no_linebreak l /\ exists r d, l = r ++ [d] /\ is_space d = false.


(** The first character of a text is one a numeral can start with. *)
Definition starts_like_number (t : list ascii) : bool :=
  match t with
  | c :: _ =>
      is_digit c || Ascii.eqb c "+" || Ascii.eqb c "-" || Ascii.eqb c "."
      || Ascii.eqb c "_"
  | [] => false
  end.

(** The text reads, in any case of the letters, as [null], [true] or
    [false]. *)
Definition is_keyword (t : list ascii) : bool :=
  list_eqb (lower t) (chars "null") || list_eqb (lower t) (chars "true")
  || list_eqb (lower t) (chars "false").

Definition sign_or_digit (c : ascii) : Prop := is_digit c = true \/ c = "-"%char.

(** A parser result that did not run out of fuel and, when it is a value,
    leaves at most [n] lines. *)
Definition within {A} (n : nat) (r : result (A * list _Line)) : Prop :=
  match r with
  | Ok (_, rest) => (length rest <= n)%nat
  | Raise e => e <> OutOfFuel
  end.

(** A document with nested sections, a quoted string, an integer, a
    boolean, null, a nested list and empty mappings. *)
Definition sample_document : value :=
  VMap [("title", VStr "Sample Docs");
        ("version", VScalar (SInt 2));
        ("draft", VScalar (SBool false));
        ("logo", VScalar SNull);
        ("navigation",
         VList [VMap [("section", VStr "Intro: basics");
                      ("slug", VStr "intro");
                      ("contents",
                       VList [VMap [("page", VStr "Welcome");
                                    ("path", VStr "docs/pages/welcome.mdx")]])];
                VStr "plain item";
                VList [VScalar (SInt (-7)); VStr ""];
                VMap []]);
        ("extra", VMap [])].

(** * Predicates used in the further properties *)

(** The lines of the input that are neither blank nor comments. *)
Definition content_lines (lines : list _Line) : list _Line :=
  List.filter (fun l => negb (is_blank_or_comment l)) lines.

(** A parser result with [f] applied to the lines that are left. *)
Definition map_rest {A} (f : list _Line -> list _Line) (r : result (A * list _Line))
  : result (A * list _Line) :=
  match r with
  | Ok (a, rest) => Ok (a, f rest)
  | Raise e => Raise e
  end.

(** The exceptions raised inside [_parse_block], [_parse_list_item] and
    [_collect_additional_mapping_entries]. *)
Definition block_errors : list exn :=
  [OutOfFuel;
   YamlError "Unexpected indentation";
   YamlError "Cannot mix list and mapping items";
   YamlError "Invalid mapping entry";
   YamlError "Multiline scalars are not supported";
   YamlError "Unexpected indentation in mapping";
   YamlError "Unexpected structure following scalar list item"].

Definition raises_only {A} (errors : list exn) (r : result A) : Prop :=
  match r with
  | Ok _ => True
  | Raise e => e ∈ errors
  end.

(** A line that [load] can accept: blank, a comment, or indented by an
    even number of spaces. *)
Definition evenly_indented (l : _Line) : bool :=
  is_blank_or_comment l || Nat.even (line_indent l).

(** [rest] is what is left of [lines] after a prefix of lines that are all
    [evenly_indented]. *)
Definition consumed_evenly (lines rest : list _Line) : Prop :=
  exists pre, lines = pre ++ rest /\ forallb evenly_indented pre = true.

(** The text made of the given lines, each ended by a newline. *)
Definition unlines (ls : list (list ascii)) : list ascii :=
  flat_map (fun l => l ++ [LF]) ls.

Section FlatDocuments.
Context {F : PyFloatOps}.

(** The line [key: value] of a mapping entry with a scalar value. *)
Definition entry_text (kv : string * scalar) : list ascii :=
  chars kv.1 ++ chars ": " ++ _format_scalar kv.2.

(** The assignments [mapping[key] = value], in order. *)
Definition set_all (entries : list (string * scalar)) (mapping : list (string * value))
  : list (string * value) :=
  fold_left (fun m kv => odict_set kv.1 (VScalar kv.2) m) entries mapping.

Definition flat_entry_ok (kv : string * scalar) : bool :=
  key_ok kv.1 && entry_scalar_ok kv.2.

(** A list item written in the compact form: the first entry on the line
    of the hyphen, the others below it, two columns in. *)
Definition inline_item_lines (item : list (string * scalar)) : list (list ascii) :=
  match item with
  | [] => []
  | first :: more =>
      (chars "- " ++ entry_text first)
        :: map (fun kv => chars "  " ++ entry_text kv) more
  end.

(** The entries of a compact item: at least one, each with a key and a
    scalar that a mapping entry can hold, and the text of the first scalar
    does not end with a colon. *)
Definition inline_item_ok (item : list (string * scalar)) : bool :=
  match item with
  | [] => false
  | first :: more =>
      flat_entry_ok first
      && negb (endswith (_format_scalar first.2) (chars ":"))
      && forallb flat_entry_ok more
  end.

End FlatDocuments.

(** ** Pages and files *)

(** The slugs of the page entries of a navigation entry, at every depth, in
    the order of the entries. *)
Fixpoint page_slugs (entry : value) : list string :=
  match entry with
  | VMap fields =>
      let is_page := odict_mem "page" fields in
      (fix each_field (fields : list (string * value)) : list string :=
         match fields with
         | [] => []
         | (k, v) :: rest =>
             (if String.eqb k "slug" then
                match v with
                | VScalar (SStr s) => if is_page then [s] else []
                | _ => []
                end
              else if String.eqb k "contents" then
                match v with
                | VList l =>
                    (fix each (l : list value) : list string :=
                       match l with
                       | [] => []
                       | e :: l' => page_slugs e ++ each l'
                       end) l
                | _ => []
                end
              else [])
             ++ each_field rest
         end) fields
  | _ => []
  end.

Definition navigation_pages (navigation : list value) : list string :=
  flat_map page_slugs navigation.

(** The page slugs of the entry [_convert_node] returns, if any. *)
Definition entry_pages (entry : option value) : list string :=
  match entry with
  | Some e => page_slugs e
  | None => []
  end.

(** The file of the page with the given slug. *)
Definition page_file (config : MigrationConfig) (slug : string) : Path :=
  path_join (pages_dir config) (slug +:+ ".mdx").

(** The operation writes the page with the given slug: its file, with the
    front matter of that slug. *)
Definition writes_page (config : MigrationConfig) (op : fs_op) (slug : string) : Prop :=
  exists title markdown,
    op = FsWriteText (page_file config slug) (_wrap_markdown title slug markdown).

(** Between the worlds [w] and [w'] the pages [slugs] were written, in that
    order, and nothing else happened: no directory was made, nothing was
    printed, no file was removed. *)
Definition wrote_pages (config : MigrationConfig) (w : World) (slugs : list string)
  (w' : World) : Prop :=
  dirs w' = dirs w
  /\ stdout w' = stdout w
  /\ (exists ops, fs_log w' = fs_log w ++ ops /\ Forall2 (writes_page config) ops slugs)
  /\ (forall p, is_Some (files w !! p) -> is_Some (files w' !! p))
  /\ (forall s, s ∈ slugs -> is_Some (files w' !! page_file config s)).

(** The configuration with the dry-run flag set as given. *)
Definition with_dry_run (config : MigrationConfig) (dry : bool) : MigrationConfig :=
  {| docs_yml_path := docs_yml_path config;
     pages_dir := pages_dir config;
     overwrite_navigation := overwrite_navigation config;
     dry_run := dry |}.



(** The slugs of a sequence of calls of [_ensure_unique_slug]. *)
Fixpoint allocate (registry : gmap string Z) (candidates : list string) : list string :=
  match candidates with
  | [] => []
  | c :: rest =>
      let '(s, registry') := ensure_unique registry c in
      s :: allocate registry' rest
  end.

(** The registry after the slug [s] was handed out [n] times ([n >= 1]):
    its counter is [n], and of the names [s-k] none but [s-2] .. [s-n] is
    taken. *)
Definition handed_out (s : string) (n : Z) (registry : gmap string Z) : Prop :=
  registry !! s = Some n
  /\ forall k, 2 <= k <= n \/ registry !! suffixed s k = None.

(** ** Decoded JSON *)

(** [j] occurs in [v]: it is [v], or it occurs in an item or in the value
    of a field of [v]. *)
Inductive subvalue (j : json) : json -> Prop :=
| sub_here : subvalue j j
| sub_item (items : list json) (x : json) :
    x ∈ items -> subvalue j x -> subvalue j (JList items)
| sub_field (fields : list (string * json)) (k : string) (x : json) :
    (k, x) ∈ fields -> subvalue j x -> subvalue j (JDict fields).

(** A record that [collect_nodes_by_id] files under the key [k]: a [dict]
    whose [id] is the non-empty text [k] and whose [type] or [kind] is
    truthy. *)
Definition is_node (v : json) (k : string) : Prop :=
  exists fields,
    v = JDict fields
    /\ get "id" fields = JStr k
    /\ k <> ""
    /\ truthy (py_or (get "type" fields) (get "kind" fields)) = true.

(** A text without double quote and backslash: the inside of a string
    literal that needs no escape. *)
Definition plain_text (l : list ascii) : bool :=
  forallb (fun c => negb (Ascii.eqb c DQ) && negb (Ascii.eqb c BS)) l.

(** From the dictionary [nodes] to [nodes']: the keys of [nodes] are kept,
    every record among [found] is filed under its key, and every entry of
    [nodes'] is an entry of [nodes] or one of the records in [found]. *)
Definition files_nodes (found : json -> Prop) (nodes nodes' : list (string * json))
  : Prop :=
  (forall k v, odict_get k nodes' = Some v ->
               odict_get k nodes = Some v \/ (found v /\ is_node v k))
  /\ (forall k, is_Some (odict_get k nodes) -> is_Some (odict_get k nodes'))
  /\ (forall v k, found v -> is_node v k -> is_Some (odict_get k nodes')).

(** One iteration of the loop of [_extract_json_object] on the character
    [char]: the locals after it, [None] when the function returns there. *)
Definition scan_next (depth : Z) (in_string escape : bool) (char : ascii)
  : option (Z * bool * bool) :=
  if in_string then
    if escape then Some (depth, true, false)
    else if Ascii.eqb char BS then Some (depth, true, true)
    else if Ascii.eqb char DQ then Some (depth, false, escape)
    else Some (depth, true, escape)
  else
    if Ascii.eqb char DQ then Some (depth, true, escape)
    else if Ascii.eqb char "{" then Some (depth + 1, false, escape)
    else if Ascii.eqb char "}" then
      if (depth - 1 =? 0)%Z then None else Some (depth - 1, false, escape)
    else Some (depth, false, escape).

(** ** Canonical nodes *)

(** The form of a node that the normaliser builds: a group, or an article
    without children; the title is not empty; exactly one of [is_markdown]
    and [is_section] holds. *)
Definition node_shape (m : StoplightNode) : Prop :=
  (type m = "group" \/ (type m = "article" /\ children m = []))
  /\ title m <> ""
  /\ xorb (is_markdown m) (is_section m) = true.

(** ** Texts *)

(** The text made of the given lines, each ended by CR LF. *)
Definition unlines_crlf (ls : list (list ascii)) : list ascii :=
  flat_map (fun l => l ++ [CR; LF]) ls.

(** The characters that make [_format_scalar] quote a string and leave
    [_format_front_matter_value] indifferent. *)
Definition yaml_only_chars : list ascii :=
  chars "#{}[]" ++ DQ :: chars "'@`".

(** Where the markdown of a record can be: the text [s] is the value at
    the end of [path], or the value of one of the text keys in the [dict]
    at the end of [path]. *)
Definition markdown_at (path : list string) (node : json) (s : string) : Prop :=
  clients.follow path node = Some (JStr s)
  \/ exists fields key,
       clients.follow path node = Some (JDict fields)
       /\ key ∈ clients.text_keys
       /\ odict_get key fields = Some (JStr s).

(** ** Records with fields of the declared types *)

Definition is_text (j : json) : bool :=
  match j with JStr _ => true | _ => false end.

Definition is_optional_text (j : json) : bool :=
  match j with JNull | JStr _ => true | _ => false end.

(** [p] holds of every record ([dict]) of [j], at any depth. *)
Fixpoint all_records (p : list (string * json) -> bool) (j : json) : bool :=
  match j with
  | JList items => forallb (all_records p) items
  | JDict fields => p fields && forallb (fun kv => all_records p kv.2) fields
  | _ => true
  end.

(** The record gives texts where [StoplightNode] declares them: the title
    that [_parse_item] computes is a [str]; the slug and the id that it
    computes are a [str] or [None]. *)
Definition text_fields (fields : list (string * json)) : bool :=
  is_text (title_of fields)
  && is_optional_text (slug_of fields)
  && is_optional_text (id_of fields).

Definition well_typed (j : json) : bool := all_records text_fields j.

(** A record that [collect_nodes_by_id] files (a truthy [id] and a truthy
    [type] or [kind]) has a text for its [id]: the keys of the dictionary
    are of the type that [Dict[str, dict]] declares. *)
Definition text_id (fields : list (string * json)) : bool :=
  if truthy (get "id" fields) && truthy (py_or (get "type" fields) (get "kind" fields))
  then is_text (get "id" fields)
  else true.

Definition text_ids (data : json) : bool := all_records text_id data.


(** * Facts about the text primitives *)

Section TextFacts.

Lemma text_chars (s : string) : text (chars s) = s.
Proof. apply string_of_list_ascii_of_string. Qed.

Lemma chars_text (l : list ascii) : chars (text l) = l.
Proof. apply list_ascii_of_string_of_list_ascii. Qed.

Lemma chars_inj (s t : string) : chars s = chars t -> s = t.
Proof. intros H. rewrite <- (text_chars s), <- (text_chars t). now rewrite H. Qed.

Lemma text_inj (a b : list ascii) : text a = text b -> a = b.
Proof. intros H. rewrite <- (chars_text a), <- (chars_text b). now rewrite H. Qed.

Lemma chars_app (s t : string) : chars (s +:+ t) = chars s ++ chars t.
Proof. induction s as [|c s IH]; simpl; [done|]. now rewrite <- IH. Qed.

Lemma list_eqb_true (a b : list ascii) : list_eqb a b = true <-> a = b.
Proof. unfold list_eqb. apply bool_decide_eq_true. Qed.

Lemma list_eqb_false (a b : list ascii) : list_eqb a b = false <-> a <> b.
Proof. unfold list_eqb. apply bool_decide_eq_false. Qed.

Lemma lstrip_by_split (p : ascii -> bool) (l : list ascii) :
  exists t, l = t ++ lstrip_by p l /\ forallb p t = true.
Proof.
  induction l as [|c l [t [E Ht]]]; simpl.
  - exists []. done.
  - destruct (p c) eqn:Hc.
    + exists (c :: t). simpl. rewrite Hc, Ht. split; [|done]. now rewrite <- E.
    + exists []. done.
Qed.

Lemma lstrip_by_head (p : ascii -> bool) (l : list ascii) (c : ascii) (r : list ascii) :
  lstrip_by p l = c :: r -> p c = false.
Proof.
  induction l as [|d l IH]; simpl; [done|].
  destruct (p d) eqn:Hd; [apply IH|]. intros [= -> _]. done.
Qed.

Lemma lstrip_by_nop (p : ascii -> bool) (c : ascii) (l : list ascii) :
  p c = false -> lstrip_by p (c :: l) = c :: l.
Proof. intros H. simpl. now rewrite H. Qed.

Lemma lstrip_by_all (p : ascii -> bool) (t l : list ascii) :
  forallb p t = true -> lstrip_by p (t ++ l) = lstrip_by p l.
Proof.
  induction t as [|c t IH]; simpl; [done|].
  intros [Hc Ht]%andb_prop. rewrite Hc. auto.
Qed.

Lemma rstrip_by_split (p : ascii -> bool) (l : list ascii) :
  exists t, l = rstrip_by p l ++ t /\ forallb p t = true.
Proof.
  unfold rstrip_by. destruct (lstrip_by_split p (rev l)) as [t [E Ht]].
  exists (rev t). split.
  - rewrite <- rev_app_distr, <- E. now rewrite rev_involutive.
  - rewrite forallb_forall in *. intros x Hx. apply Ht. now apply in_rev.
Qed.

Lemma rstrip_by_last (p : ascii -> bool) (l r : list ascii) (c : ascii) :
  rstrip_by p l = r ++ [c] -> p c = false.
Proof.
  unfold rstrip_by. intros H.
  apply (f_equal (@rev ascii)) in H. rewrite rev_involutive, rev_app_distr in H.
  simpl in H. eapply lstrip_by_head, H.
Qed.

Lemma rstrip_by_nop (p : ascii -> bool) (l : list ascii) (c : ascii) :
  p c = false -> rstrip_by p (l ++ [c]) = l ++ [c].
Proof.
  intros H. unfold rstrip_by. rewrite rev_app_distr. simpl. rewrite H.
  change (rev (c :: rev l) = l ++ [c]). simpl. now rewrite rev_involutive.
Qed.

Lemma rstrip_by_nil (p : ascii -> bool) : rstrip_by p [] = [].
Proof. done. Qed.

Lemma rstrip_by_all (p : ascii -> bool) (l t : list ascii) :
  forallb p t = true -> rstrip_by p (l ++ t) = rstrip_by p l.
Proof.
  intros H. unfold rstrip_by. rewrite rev_app_distr, lstrip_by_all; [done|].
  rewrite forallb_forall in *. intros x Hx. apply H. now apply in_rev.
Qed.

(** A text that neither starts nor ends with a character of [p] is its own
    [strip_by p]. *)
Lemma strip_by_nop (p : ascii -> bool) (l : list ascii) :
  (forall c r, l = c :: r -> p c = false) ->
  (forall c r, l = r ++ [c] -> p c = false) ->
  strip_by p l = l.
Proof.
  intros Hh Hl. unfold strip_by.
  destruct l as [|c r]; [done|].
  rewrite lstrip_by_nop by eauto.
  destruct (exists_last (l := c :: r)) as [r' [d E]]; [done|].
  rewrite E. apply rstrip_by_nop. eauto.
Qed.

Lemma strip_by_head (p : ascii -> bool) (l r : list ascii) (c : ascii) :
  strip_by p l = c :: r -> p c = false.
Proof.
  unfold strip_by. intros H.
  destruct (rstrip_by_split p (lstrip_by p l)) as [t [E _]].
  rewrite H in E. simpl in E. eapply lstrip_by_head, E.
Qed.

Lemma strip_by_last (p : ascii -> bool) (l r : list ascii) (c : ascii) :
  strip_by p l = r ++ [c] -> p c = false.
Proof. unfold strip_by. apply rstrip_by_last. Qed.

Lemma strip_by_idem (p : ascii -> bool) (l : list ascii) :
  strip_by p (strip_by p l) = strip_by p l.
Proof.
  apply strip_by_nop.
  - intros c r. apply strip_by_head.
  - intros c r. apply strip_by_last.
Qed.

End TextFacts.

(** * [slugify] *)

Section Slugify.

Lemma slug_char_not_space (c : ascii) : is_slug_char c = true -> is_space c = false.
Proof. destruct c as [[] [] [] [] [] [] [] []]; vm_compute; congruence. Qed.

Lemma slug_char_not_hyphen (c : ascii) : is_slug_char c = true -> Ascii.eqb "-" c = false.
Proof. destruct c as [[] [] [] [] [] [] [] []]; vm_compute; congruence. Qed.

Lemma slug_char_lower (c : ascii) : is_slug_char c = true -> lower_char c = c.
Proof. destruct c as [[] [] [] [] [] [] [] []]; vm_compute; congruence. Qed.

Lemma hyphenated_slug_sub (b : bool) (x : list ascii) :
  hyphenated b (slug_sub b x) = true.
Proof.
  revert b. induction x as [|c x IH]; intros b; simpl; [done|].
  destruct (is_slug_char c) eqn:Hc; simpl.
  - now rewrite Hc.
  - destruct b; [apply IH|]. simpl. apply IH.
Qed.

Lemma slug_sub_hyphenated (b : bool) (l : list ascii) :
  hyphenated b l = true -> slug_sub b l = l.
Proof.
  revert b. induction l as [|c l IH]; intros b; simpl; [done|].
  destruct (is_slug_char c) eqn:Hc.
  - intros H. now rewrite IH.
  - intros [[Hh Hb]%andb_prop H]%andb_prop.
    apply Ascii.eqb_eq in Hh. subst c. destruct b; [done|].
    now rewrite IH.
Qed.

Lemma hyphenated_prefix (b : bool) (a t : list ascii) :
  hyphenated b (a ++ t) = true -> hyphenated b a = true.
Proof.
  revert b. induction a as [|c a IH]; intros b; simpl; [done|].
  destruct (is_slug_char c); [apply IH|].
  intros [H1 H2]%andb_prop. rewrite H1. simpl. eauto.
Qed.

Lemma hyphenated_tail (b : bool) (c : ascii) (l : list ascii) :
  hyphenated b (c :: l) = true -> exists b', hyphenated b' l = true.
Proof.
  simpl. destruct (is_slug_char c); [eauto|].
  intros [_ H]%andb_prop. eauto.
Qed.

Lemma hyphenated_head (b : bool) (c : ascii) (l : list ascii) :
  hyphenated b (c :: l) = true -> Ascii.eqb "-" c = false ->
  is_slug_char c = true /\ hyphenated false (c :: l) = true.
Proof.
  simpl. destruct (is_slug_char c); [done|].
  intros [[H _]%andb_prop _]%andb_prop Hc.
  apply Ascii.eqb_eq in H. subst c. done.
Qed.

Lemma hyphenated_suffix (b : bool) (t m : list ascii) :
  hyphenated b (t ++ m) = true -> exists b', hyphenated b' m = true.
Proof.
  revert b. induction t as [|c t IH]; intros b; simpl app; [eauto|].
  intros [b' H]%hyphenated_tail. eauto.
Qed.

Lemma hyphenated_chars (b : bool) (l : list ascii) (c : ascii) :
  hyphenated b l = true -> In c l -> is_slug_char c = true \/ c = "-"%char.
Proof.
  revert b. induction l as [|d l IH]; intros b; simpl; [done|].
  destruct (is_slug_char d) eqn:Hd.
  - intros H [->|Hin]; eauto.
  - intros [[Hh _]%andb_prop H]%andb_prop [->|Hin]; [|eauto].
    apply Ascii.eqb_eq in Hh. auto.
Qed.

(** The results of [slugify]: non-empty texts over [a-z0-9] and single
    hyphens that start and end with a character of [a-z0-9]. *)
Lemma slugify_chars_shape (x : list ascii) :
  let s := slugify_chars x in
  hyphenated false s = true
  /\ (exists c r, s = c :: r /\ is_slug_char c = true)
  /\ (exists r c, s = r ++ [c] /\ is_slug_char c = true).
Proof.
  unfold slugify_chars.
  set (r := slug_sub false (lower (strip x))).
  assert (Hr : hyphenated false r = true) by apply hyphenated_slug_sub.
  destruct (strip_char "-" r) as [|c s] eqn:E.
  { vm_compute. split; [done|]. split.
    - exists "p"%char, (chars "age"). done.
    - exists (chars "pag"), "e"%char. done. }
  unfold strip_char, strip_by in E.
  destruct (lstrip_by_split (Ascii.eqb "-") r) as [t1 [E1 _]].
  destruct (rstrip_by_split (Ascii.eqb "-") (lstrip_by (Ascii.eqb "-") r)) as [t2 [E2 _]].
  rewrite E in E2.
  rewrite E1 in Hr. apply hyphenated_suffix in Hr as [b' Hm].
  rewrite E2 in Hm. apply hyphenated_prefix in Hm.
  assert (Hc : Ascii.eqb "-" c = false).
  { eapply lstrip_by_head. rewrite E2. reflexivity. }
  destruct (hyphenated_head _ _ _ Hm Hc) as [Hsc Hf].
  split; [done|]. split; [eauto|].
  destruct (exists_last (l := c :: s)) as [s' [d Es]]; [done|].
  exists s', d. split; [done|].
  assert (Hd : Ascii.eqb "-" d = false).
  { eapply rstrip_by_last. rewrite E, Es. reflexivity. }
  destruct (hyphenated_chars false (c :: s) d Hf) as [H| ->]; [|done|done].
  rewrite Es. apply in_or_app. right. now left.
Qed.

Lemma slugify_chars_fixed (s : list ascii) :
  hyphenated false s = true ->
  (exists c r, s = c :: r /\ is_slug_char c = true) ->
  (exists r c, s = r ++ [c] /\ is_slug_char c = true) ->
  slugify_chars s = s.
Proof.
  intros Hh (c & r & E & Hc) (r' & d & E' & Hd).
  unfold slugify_chars.
  assert (Hs : strip s = s).
  { apply strip_by_nop.
    - intros c0 r0 E0. rewrite E in E0. injection E0 as <- _.
      now apply slug_char_not_space.
    - intros c0 r0 E0. rewrite E' in E0. apply app_inj_tail in E0 as [_ <-].
      now apply slug_char_not_space. }
  rewrite Hs.
  assert (Hl : lower s = s).
  { unfold lower. rewrite <- (map_id s) at 2. apply map_ext_in.
    intros a Ha. destruct (hyphenated_chars _ _ _ Hh Ha) as [H| ->]; [|done].
    now apply slug_char_lower. }
  rewrite Hl, (slug_sub_hyphenated _ _ Hh).
  assert (Hp : strip_char "-" s = s).
  { apply strip_by_nop.
    - intros c0 r0 E0. rewrite E in E0. injection E0 as <- _.
      now apply slug_char_not_hyphen.
    - intros c0 r0 E0. rewrite E' in E0. apply app_inj_tail in E0 as [_ <-].
      now apply slug_char_not_hyphen. }
  rewrite Hp, E. done.
Qed.

Lemma slugify_chars_idem (x : list ascii) :
  slugify_chars (slugify_chars x) = slugify_chars x.
Proof.
  destruct (slugify_chars_shape x) as (H1 & H2 & H3).
  now apply slugify_chars_fixed.
Qed.

Lemma slugify_idem (s : string) : slugify (slugify s) = slugify s.
Proof. unfold slugify. now rewrite chars_text, slugify_chars_idem. Qed.

End Slugify.

(** * The slug registry *)

Section Registry.

Implicit Types (registry : gmap string Z) (base : string) (counter : Z).

Lemma str_of_int_inj (a b : Z) : str_of_int a = str_of_int b -> a = b.
Proof.
  unfold str_of_int. intros H. apply DecimalZ.to_int_inj.
  assert (Hn : forall z, Z.to_int z <> Decimal.Pos Decimal.Nil
                         /\ Z.to_int z <> Decimal.Neg Decimal.Nil).
  { intros [|p|p]; simpl; split; try discriminate;
      intros [= E]; now apply DecimalPos.Unsigned.to_uint_nonnil in E. }
  destruct (Hn a) as [Ha1 Ha2], (Hn b) as [Hb1 Hb2].
  pose proof (NilZero.isi _ Ha1 Ha2) as Ea.
  pose proof (NilZero.isi _ Hb1 Hb2) as Eb.
  rewrite H in Ea. congruence.
Qed.

Lemma suffixed_inj base (a b : Z) : suffixed base a = suffixed base b -> a = b.
Proof.
  unfold suffixed. intros H. apply str_of_int_inj, chars_inj.
  apply (f_equal chars) in H. rewrite !chars_app in H.
  now do 2 apply app_inv_head in H.
Qed.

(** [probe] only reads the registry at the candidates from [counter] on. *)
Lemma probe_delete fuel registry base (k counter : Z) :
  k < counter ->
  probe fuel (delete (suffixed base k) registry) base counter
  = probe fuel registry base counter.
Proof.
  revert counter. induction fuel as [|fuel IH]; intros counter Hk; simpl; [done|].
  rewrite lookup_delete_ne by (intros E%suffixed_inj; lia).
  destruct (bool_decide _); [|done]. apply IH. lia.
Qed.

(** The loop stops, at the first candidate that is not in the registry. *)
Lemma probe_free fuel registry base counter :
  (size registry < fuel)%nat ->
  let n := probe fuel registry base counter in
  counter <= n
  /\ registry !! suffixed base n = None
  /\ forall k, counter <= k < n -> is_Some (registry !! suffixed base k).
Proof.
  revert registry counter.
  induction fuel as [|fuel IH]; intros registry counter Hsz; [lia|].
  simpl. destruct (bool_decide _) eqn:Hd.
  - apply bool_decide_eq_true in Hd.
    rewrite <- (probe_delete _ _ _ counter) by lia.
    destruct (IH (delete (suffixed base counter) registry) (counter + 1)) as (H1 & H2 & H3).
    { rewrite map_size_delete_Some by done.
      destruct (size registry) eqn:Es; [|simpl; lia].
      apply map_size_empty_iff in Es. subst registry.
      rewrite lookup_empty in Hd. now destruct Hd. }
    set (n := probe fuel _ base (counter + 1)) in *.
    split; [lia|]. split.
    + rewrite lookup_delete_ne in H2; [done|]. intros E%suffixed_inj. lia.
    + intros k Hk. destruct (decide (k = counter)) as [->|Hne]; [done|].
      specialize (H3 k ltac:(lia)).
      rewrite lookup_delete_ne in H3; [done|]. intros E%suffixed_inj. lia.
  - apply bool_decide_eq_false in Hd. split; [lia|]. split.
    + now apply eq_None_not_Some.
    + intros k Hk. lia.
Qed.

(** [_ensure_unique_slug] returns a slug that was not in the registry, and
    leaves a registry that holds it together with all the former keys. *)
Lemma ensure_unique_fresh registry (slug : string) :
  let '(s, registry') := ensure_unique registry slug in
  registry !! s = None /\ dom registry' = {[s]} ∪ dom registry.
Proof.
  unfold ensure_unique. destruct (registry !! slugify slug) as [c|] eqn:E.
  - destruct (probe_free (S (size registry)) registry (slugify slug) (c + 1)) as (_ & H & _);
      [lia|].
    split; [done|]. rewrite !dom_insert_L.
    assert (slugify slug ∈ dom registry) by (apply elem_of_dom; eauto).
    set_solver.
  - split; [done|]. now rewrite dom_insert_L.
Qed.

(** The slug returned is the normalised candidate, or the normalised
    candidate with a suffix [-n]. *)
Lemma ensure_unique_form registry (slug : string) :
  let s := fst (ensure_unique registry slug) in
  s = slugify slug \/ exists n : Z, s = suffixed (slugify slug) n.
Proof.
  unfold ensure_unique. destruct (registry !! slugify slug); simpl; eauto.
Qed.

End Registry.

(** * Navigation synthesis *)

Section Convert.
Context {F : PyFloatOps}.
Variable client : StoplightClient.
Variable config : MigrationConfig.

Lemma StoplightNode_forall_ind (P : StoplightNode -> Prop) :
  (forall ty t s i r kids, Forall P kids -> P (mkNode ty t s i r kids)) ->
  forall n, P n.
Proof.
  intros H. fix IH 1. intros [ty t s i r kids]. apply H.
  induction kids as [|k kids IHk]; constructor; [apply IH | apply IHk].
Qed.

Lemma _convert_node_unfold (node : StoplightNode) :
  _convert_node client config node =
  (if is_markdown node then _create_page_entry client config node
   else if is_section node then
     do! contents := convert_nodes client config (children node) in
     match contents with
     | [] => ret None
     | _ => section_entry node contents
     end
   else
     match children node with
     | _ :: _ =>
         do! contents := convert_nodes client config (children node) in
         match contents with
         | _ :: _ => section_entry node contents
         | [] => _create_page_entry client config node
         end
     | [] => _create_page_entry client config node
     end)%M.
Proof. destruct node. reflexivity. Qed.

Lemma nav_slugs_contents (l : list value) :
  (fix each (l : list value) : list string :=
     match l with
     | [] => []
     | e :: l' => nav_slugs e ++ each l'
     end) l = navigation_slugs l.
Proof. induction l as [|e l IH]; simpl; [done|]. now rewrite IH. Qed.

Lemma nav_slugs_section (t s : string) (contents : list value) :
  nav_slugs (VMap [("section", VStr t); ("slug", VStr s); ("contents", VList contents)])
  = s :: navigation_slugs contents.
Proof. simpl. now rewrite nav_slugs_contents, app_nil_r. Qed.

Lemma nav_slugs_page (t s p : string) :
  nav_slugs (VMap [("page", VStr t); ("slug", VStr s); ("path", VStr p)]) = [s].
Proof. reflexivity. Qed.

Lemma allocated_nil (st : State) : allocated st [] st.
Proof.
  split; [done|]. split; [constructor|]. intros s Hs. now apply elem_of_nil in Hs.
Qed.

Lemma allocated_app (st st1 st2 : State) (a b : list string) :
  allocated st a st1 -> allocated st1 b st2 -> allocated st (a ++ b) st2.
Proof.
  intros (H1 & H2 & H3) (H4 & H5 & H6). split; [set_solver|]. split.
  - apply NoDup_app. split; [done|]. split; [|done].
    intros x Ha Hb. apply H3 in Ha. apply H6 in Hb. tauto.
  - intros s [Hs|Hs]%elem_of_app.
    + apply H3 in Hs. set_solver.
    + apply H6 in Hs. set_solver.
Qed.

Lemma ensure_unique_allocated (st : State) (cand : string) (s : string) (st' : State) :
  _ensure_unique_slug cand st = (Ok s, st') -> allocated st [s] st'.
Proof.
  unfold _ensure_unique_slug.
  pose proof (ensure_unique_fresh (slug_registry st) cand) as H.
  destruct (ensure_unique (slug_registry st) cand) as [s0 r0].
  destruct H as [Hn Hd]. intros [= <- <-]. simpl.
  unfold allocated. simpl. rewrite Hd. split; [set_solver|]. split.
  - apply NoDup_singleton.
  - intros x ->%list_elem_of_singleton. split; [|set_solver].
    now apply not_elem_of_dom.
Qed.

Lemma create_page_entry_allocated (node : StoplightNode) (st st' : State) (o : option value) :
  _create_page_entry client config node st = (Ok o, st') ->
  allocated st (entry_slugs o) st'.
Proof.
  unfold _create_page_entry, bind, lift, ret.
  destruct (get_markdown client node) as [[md|]|e]; [| |done].
  2:{ intros [= <- <-]. apply allocated_nil. }
  destruct (_ensure_unique_slug (slug_or_title node) st) as [[s|e] st1] eqn:E; [|done].
  apply ensure_unique_allocated in E.
  destruct (dry_run config); unfold with_world;
    destruct (relative_to _ _); try done;
    intros [= <- <-]; simpl entry_slugs; exact E.
Qed.

Lemma section_entry_allocated (node : StoplightNode) (contents : list value)
  (st0 st st' : State) (o : option value) :
  allocated st0 (navigation_slugs contents) st ->
  section_entry node contents st = (Ok o, st') ->
  allocated st0 (entry_slugs o) st'.
Proof.
  intros Hc. unfold section_entry, bind, ret.
  destruct (_ensure_unique_slug (slug_or_title node) st) as [[s|e] st1] eqn:E; [|done].
  apply ensure_unique_allocated in E. intros [= <- <-].
  unfold entry_slugs. rewrite nav_slugs_section.
  pose proof (allocated_app _ _ _ _ _ Hc E) as (H1 & H2 & H3).
  split; [done|]. split.
  - apply NoDup_app in H2 as (Ha & Hb & _). constructor; [|done].
    intros Hin. eapply Hb; [exact Hin|]. now left.
  - intros x Hx. apply H3. set_solver.
Qed.

Lemma convert_nodes_step (P : StoplightNode -> Prop) (nodes : list StoplightNode) :
  (forall n, P n ->
     forall st o st', _convert_node client config n st = (Ok o, st') ->
                      allocated st (entry_slugs o) st') ->
  Forall P nodes ->
  forall st nav st',
    convert_nodes client config nodes st = (Ok nav, st') ->
    allocated st (navigation_slugs nav) st'.
Proof.
  intros HP Hall. induction Hall as [|n nodes Hn _ IH]; intros st nav st'.
  - intros [= <- <-]. apply allocated_nil.
  - simpl. unfold bind at 1.
    destruct (_convert_node client config n st) as [[o|e] st1] eqn:E1; [|done].
    unfold bind at 1.
    destruct (convert_nodes client config nodes st1) as [[nav'|e] st2] eqn:E2; [|done].
    intros [= <- <-].
    pose proof (HP _ Hn _ _ _ E1) as H1. pose proof (IH _ _ _ E2) as H2.
    pose proof (allocated_app _ _ _ _ _ H1 H2) as H.
    destruct o as [e|]; exact H.
Qed.

(** Every call of [_convert_node] allocates the slugs of the entry it
    returns, and no slug of that entry twice. *)
Lemma convert_node_allocated (node : StoplightNode) :
  forall st o st',
    _convert_node client config node st = (Ok o, st') ->
    allocated st (entry_slugs o) st'.
Proof.
  induction node as [ty t s i r kids IH] using StoplightNode_forall_ind.
  intros st o st'. rewrite _convert_node_unfold.
  set (node := mkNode ty t s i r kids).
  pose proof (convert_nodes_step _ kids (fun n H => H) IH) as Hkids.
  destruct (is_markdown node); [apply create_page_entry_allocated|].
  destruct (is_section node).
  - unfold bind at 1. change (children node) with kids.
    destruct (convert_nodes client config kids st) as [[contents|e] st1] eqn:E; [|done].
    apply Hkids in E. destruct contents as [|c contents].
    + intros [= <- <-]. exact E.
    + now apply section_entry_allocated.
  - change (children node) with kids. destruct kids as [|k kids'] eqn:Ek.
    + apply create_page_entry_allocated.
    + rewrite <- Ek in *. unfold bind at 1.
      destruct (convert_nodes client config kids st) as [[contents|e] st1] eqn:E; [|done].
      apply Hkids in E. destruct contents as [|c contents].
      * intros H%create_page_entry_allocated.
        pose proof (allocated_app _ _ _ _ _ E H) as H'. exact H'.
      * now apply section_entry_allocated.
Qed.

Lemma convert_nodes_allocated (nodes : list StoplightNode) :
  forall st nav st',
    convert_nodes client config nodes st = (Ok nav, st') ->
    allocated st (navigation_slugs nav) st'.
Proof.
  apply (convert_nodes_step (fun _ => True)).
  - intros n _. apply convert_node_allocated.
  - now apply Forall_forall.
Qed.

End Convert.

(** * Merging the navigation into the document *)

Section Merge.

Lemma odict_get_set_eq {V} (k : string) (v : V) (m : list (string * V)) :
  odict_get k (odict_set k v m) = Some v.
Proof.
  induction m as [|[k' v'] m IH]; simpl.
  - now rewrite String.eqb_refl.
  - destruct (String.eqb k' k) eqn:E; simpl; rewrite E; [done|apply IH].
Qed.

Lemma odict_get_set_ne {V} (k k0 : string) (v : V) (m : list (string * V)) :
  k0 <> k -> odict_get k0 (odict_set k v m) = odict_get k0 m.
Proof.
  intros Hne. induction m as [|[k' v'] m IH]; simpl.
  - destruct (String.eqb_spec k k0); [congruence|done].
  - destruct (String.eqb_spec k' k) as [->|Hk]; simpl.
    + destruct (String.eqb_spec k k0); [congruence|done].
    + destruct (String.eqb k' k0); [done|apply IH].
Qed.

Lemma other_entries_set (k : string) (v : value) (m : list (string * value)) :
  other_entries k (odict_set k v m) = other_entries k m.
Proof.
  unfold other_entries. induction m as [|[k' v'] m IH]; simpl.
  - rewrite filter_cons_False; [done|]. simpl. tauto.
  - destruct (String.eqb_spec k' k) as [->|Hk].
    + rewrite !filter_cons_False by (simpl; tauto). done.
    + rewrite !filter_cons_True by done. now rewrite IH.
Qed.

Lemma merge_navigation_mapping (config : MigrationConfig)
  (entries : list (string * value)) (navigation : list value) :
  exists final : list value,
    merge_navigation config (VMap entries) navigation
    = Ok (VMap (odict_set "navigation" (VList final) entries))
    /\ (final = navigation
        \/ exists existing, final = existing ++ navigation).
Proof.
  unfold merge_navigation.
  destruct (negb (odict_mem "navigation" entries) || negb (overwrite_navigation config));
    eexists; split; eauto.
Qed.

End Merge.

(** * Runs of the migrator *)

Section RunFacts.
Context {F : PyFloatOps}.
Variable client : StoplightClient.
Variable config : MigrationConfig.




(** In a dry run [_create_page_entry] leaves the file system alone. *)
Lemma create_page_entry_dry (n : StoplightNode) (st : State) :
  dry_run config = true ->
  world (snd (_create_page_entry client config n st)) = world st.
Proof.
  intros Hd. unfold _create_page_entry, bind, lift, ret, _ensure_unique_slug.
  destruct (get_markdown client n) as [[md|]|e]; [|done|done].
  destruct (ensure_unique (slug_registry st) (slug_or_title n)) as [s r].
  rewrite Hd. simpl. now destruct (relative_to _ _).
Qed.

Lemma section_entry_world (n : StoplightNode) (contents : list value) (st : State) :
  world (snd (section_entry n contents st)) = world st.
Proof.
  unfold section_entry, bind, ret, _ensure_unique_slug.
  now destruct (ensure_unique (slug_registry st) (slug_or_title n)).
Qed.

Lemma convert_nodes_dry_step (nodes : list StoplightNode) :
  Forall (fun n => forall st, world (snd (_convert_node client config n st)) = world st) nodes ->
  forall st, world (snd (convert_nodes client config nodes st)) = world st.
Proof.
  induction 1 as [|n nodes Hn _ IH]; intros st; [done|].
  simpl. unfold bind at 1. specialize (Hn st).
  destruct (_convert_node client config n st) as [[o|e] st1]; [|done].
  unfold bind at 1. specialize (IH st1).
  destruct (convert_nodes client config nodes st1) as [[nav|e] st2]; simpl in *; congruence.
Qed.

Lemma convert_node_dry (n : StoplightNode) :
  dry_run config = true ->
  forall st, world (snd (_convert_node client config n st)) = world st.
Proof.
  intros Hd. induction n as [ty t s i r kids IH] using StoplightNode_forall_ind.
  intros st. rewrite _convert_node_unfold.
  set (node := mkNode ty t s i r kids).
  pose proof (convert_nodes_dry_step kids IH) as Hkids.
  assert (Hsec : forall st,
    world (snd ((do! contents := convert_nodes client config kids in
                 match contents with
                 | [] => ret None
                 | _ => section_entry node contents
                 end)%M st)) = world st).
  { intros st0. unfold bind at 1. specialize (Hkids st0).
    destruct (convert_nodes client config kids st0) as [[[|c cs]|e] st1]; simpl in *;
      [done| |done].
    now rewrite section_entry_world. }
  destruct (is_markdown node); [now apply create_page_entry_dry|].
  destruct (is_section node); [apply Hsec|].
  change (children node) with kids. destruct kids as [|k kids'] eqn:Ek.
  - now apply create_page_entry_dry.
  - rewrite <- Ek in *. unfold bind at 1. specialize (Hkids st).
    destruct (convert_nodes client config kids st) as [[[|c cs]|e] st1]; simpl in *;
      [| |done].
    + rewrite create_page_entry_dry by done. done.
    + now rewrite section_entry_world.
Qed.

Lemma convert_nodes_dry (nodes : list StoplightNode) :
  dry_run config = true ->
  forall st, world (snd (convert_nodes client config nodes st)) = world st.
Proof.
  intros Hd. apply convert_nodes_dry_step, Forall_forall.
  intros n _. now apply convert_node_dry.
Qed.

(** After the constructor has run, a dry run of [migrate] writes no file and
    creates no directory, whether it completes or raises. *)
Lemma migrate_dry_run (st : State) :
  dry_run config = true ->
  same_file_system (world st) (world (snd (migrate client config st))).
Proof.
  intros Hd. unfold migrate, bind, lift.
  destruct (load_tree client) as [nodes|e]; [|done].
  pose proof (convert_nodes_dry nodes Hd st) as Hc.
  destruct (convert_nodes client config nodes st) as [[nav|e] st1]; simpl in Hc;
    [|simpl; now rewrite Hc].
  unfold _load_docs_yml.
  assert (Hm : forall r : result value,
    same_file_system (world st)
      (world (snd (match (r, st1) with
                   | (Ok a, st') =>
                       match merge_navigation config a nav with
                       | Ok merged =>
                           (if dry_run config then with_world (print (dump merged))
                            else _write_docs_yml config merged) st'
                       | Raise e => (Raise e, st')
                       end
                   | (Raise e, st') => (Raise e, st')
                   end)))).
  { intros [a|e]; [|simpl; now rewrite Hc].
    destruct (merge_navigation config a nav); [|simpl; now rewrite Hc].
    rewrite Hd. simpl. now rewrite Hc. }
  destruct (files (world st1) !! docs_yml_path config) as [t|]; [apply (Hm (load t))|].
  destruct (_ || _); [simpl; now rewrite Hc|apply (Hm (Ok (VMap [])))].
Qed.



(** What a completed run does with the merged document: it prints its dump
    in a dry run and writes it to [docs.yml] otherwise. *)
Lemma migrate_merged (st st1 : State) (nodes : list StoplightNode)
  (navigation : list value) (t : string) (docs_config merged : value) :
  load_tree client = Ok nodes ->
  convert_nodes client config nodes st = (Ok navigation, st1) ->
  files (world st1) !! docs_yml_path config = Some t ->
  load t = Ok docs_config ->
  merge_navigation config docs_config navigation = Ok merged ->
  migrate client config st
  = (Ok tt,
     {| slug_registry := slug_registry st1;
        world := (if dry_run config then print (dump merged)
                  else write_text (docs_yml_path config) (dump merged)) (world st1) |}).
Proof.
  intros Ht Hc Hf Hl Hm. unfold migrate, bind, lift. rewrite Ht, Hc.
  unfold _load_docs_yml. rewrite Hf, Hl, Hm.
  now destruct (dry_run config).
Qed.

(** Lines 42-47 of [migrate] in append mode: the existing list comes first. *)
Lemma merge_navigation_append (entries : list (string * value))
  (existing navigation : list value) :
  overwrite_navigation config = false ->
  odict_get "navigation" entries = Some (VList existing) ->
  merge_navigation config (VMap entries) navigation
  = Ok (VMap (odict_set "navigation" (VList (existing ++ navigation)) entries)).
Proof.
  intros Ho He. unfold merge_navigation. now rewrite Ho, He, orb_true_r.
Qed.

End RunFacts.

(** * Scalars *)

Section ScalarFacts.
Context {F : PyFloatOps}.

Lemma has_char_elem (c : ascii) (l : list ascii) : has_char c l = true <-> c ∈ l.
Proof.
  unfold has_char. rewrite existsb_exists, list_elem_of_In. split.
  - intros (x & Hx & ->%Ascii.eqb_eq). done.
  - intros H. exists c. split; [done|apply Ascii.eqb_refl].
Qed.

Lemma has_char_false (c : ascii) (l : list ascii) : has_char c l = false <-> c ∉ l.
Proof. rewrite <- has_char_elem. now destruct (has_char c l). Qed.

Lemma has_any_Exists (cs l : list ascii) :
  has_any cs l = true <-> Exists (fun c => c ∈ l) cs.
Proof.
  unfold has_any. rewrite existsb_exists, Exists_exists. split.
  - intros (x & Hx & H%has_char_elem). exists x. now rewrite list_elem_of_In.
  - intros (x & Hx%list_elem_of_In & H%has_char_elem). eauto.
Qed.

Lemma needs_quotes_must_quote (t : list ascii) :
  needs_quotes t = true <-> must_quote t.
Proof.
  unfold needs_quotes, must_quote. rewrite orb_true_iff, negb_true_iff.
  rewrite list_eqb_false. change special_chars with quoting_chars.
  now rewrite has_any_Exists.
Qed.

(** The two replacements of [_format_scalar] escape every character once. *)
Lemma escape_flat_map (t : list ascii) : escape t = flat_map escape_char t.
Proof.
  unfold escape, replace_char. induction t as [|c t IH]; [done|].
  cbn [flat_map]. rewrite flat_map_app, IH. f_equal.
  unfold escape_char.
  destruct (Ascii.eqb_spec BS c) as [<-|H1]; [done|].
  rewrite (proj2 (Ascii.eqb_neq c BS)) by congruence.
  cbn [flat_map]. rewrite app_nil_r. now rewrite (Ascii.eqb_sym DQ c).
Qed.

Lemma format_scalar_str (s : string) :
  _format_scalar (SStr s) =
  if bool_decide (s = "") then chars "''"
  else if bool_decide (must_quote (chars s)) then double_quoted (chars s)
  else chars s.
Proof.
  unfold _format_scalar.
  destruct s as [|c s]; [done|].
  rewrite bool_decide_eq_false_2 by done.
  change (chars (String c s)) with (c :: chars s).
  destruct (needs_quotes (c :: chars s)) eqn:E.
  - apply needs_quotes_must_quote in E. rewrite bool_decide_eq_true_2 by done.
    unfold double_quoted. now rewrite escape_flat_map.
  - rewrite bool_decide_eq_false_2; [done|].
    intros H%needs_quotes_must_quote. congruence.
Qed.

End ScalarFacts.

(** * The normaliser *)

Section TocFacts.

Lemma parse_each (l : list json) :
  (fix each (l : list json) : result (list StoplightNode) :=
     match l with
     | [] => Ok []
     | child :: l' =>
         let! c := _parse_item child in
         let! cs := each l' in
         Ok (match c with Some n => n :: cs | None => cs end)
     end) l = toc.parse l.
Proof. induction l as [|c l IH]; [done|]. simpl. now rewrite IH. Qed.

Lemma find_parsed_children (keys : list string) (fields : list (string * json)) :
  find_parsed keys
    ((fix per_field (fs : list (string * json))
        : list (string * option (result (list StoplightNode))) :=
        match fs with
        | [] => []
        | (k, v) :: fs' =>
            (k, match v with JList l => Some (toc.parse l) | _ => None end)
              :: per_field fs'
        end) fields)
  = option_map toc.parse (find_children keys fields).
Proof.
  induction keys as [|key keys IH]; [done|]. simpl. rewrite IH. clear IH.
  generalize (find_children keys fields). intros o.
  induction fields as [|[k v] fields IHf]; [done|]. simpl.
  destruct (String.eqb k key); [|done].
  now destruct v.
Qed.

(** [_parse_item] in the terms of the source: the children are the
    normalised elements of [children_data or []]. *)
Lemma _parse_item_unfold (fields : list (string * json)) :
  _parse_item (JDict fields) =
  let item := JDict fields in
  let children_data := find_children child_keys fields in
  let parse_children :=
    toc.parse (match children_data with Some l => l | None => [] end) in
  let! node_type := node_type_of fields in
  if str_in node_type group_tags then
    let! kids := parse_children in
    build_node "group" item fields kids
  else if str_in node_type article_tags then
    build_node "article" item fields []
  else
    match children_data with
    | Some (_ :: _) =>
        let! kids := parse_children in
        build_node "group" item fields kids
    | _ =>
        if truthy (get "markdown" fields) then build_node "article" item fields []
        else Ok None
    end.
Proof.
  cbn [_parse_item]. cbv zeta.
  assert (E : forall fs,
    (fix per_field (fs : list (string * json))
        : list (string * option (result (list StoplightNode))) :=
        match fs with
        | [] => []
        | (k, v) :: fs' =>
            (k, match v with
                | JList l =>
                    Some ((fix each (l : list json) : result (list StoplightNode) :=
                             match l with
                             | [] => Ok []
                             | child :: l' =>
                                 let! c := _parse_item child in
                                 let! cs := each l' in
                                 Ok (match c with Some n => n :: cs | None => cs end)
                             end) l)
                | _ => None
                end) :: per_field fs'
        end) fs
    = (fix per_field (fs : list (string * json))
        : list (string * option (result (list StoplightNode))) :=
        match fs with
        | [] => []
        | (k, v) :: fs' =>
            (k, match v with JList l => Some (toc.parse l) | _ => None end)
              :: per_field fs'
        end) fs).
  { induction fs as [|[k v] fs IH]; [done|]. rewrite IH.
    destruct v; done. }
  rewrite E, find_parsed_children.
  now destruct (find_children child_keys fields).
Qed.

(** The dropped-node law, for records whose discriminator is a text. *)
Lemma parse_item_dropped (fields : list (string * json)) :
  unrecognised_type fields ->
  no_child_list fields ->
  truthy (get "markdown" fields) = false ->
  _parse_item (JDict fields) = Ok None.
Proof.
  intros (s & Hs & Hg & Ha) Hc Hm. rewrite _parse_item_unfold. cbv zeta.
  unfold node_type_of. rewrite Hs. cbn [rbind]. rewrite Hg, Ha, Hm.
  assert (Hf : forall keys, (forall k, k ∈ keys -> k ∈ child_keys) ->
            find_children keys fields = None \/ find_children keys fields = Some []).
  { induction keys as [|key keys IH]; intros Hk; [now left|]. simpl.
    destruct (odict_get key fields) as [[]|] eqn:E;
      try (apply IH; intros; apply Hk; now right).
    right. f_equal. eapply Hc; [|exact E]. apply Hk. now left. }
  destruct (Hf child_keys) as [-> | ->]; done.
Qed.

(** A record that normalises to nothing leaves no trace in the forest. *)
Lemma parse_skip (r : json) (before after : list json) :
  _parse_item r = Ok None ->
  toc.parse (before ++ r :: after) = toc.parse (before ++ after).
Proof.
  intros H. induction before as [|b before IH].
  - cbn [app toc.parse]. rewrite H. cbn [rbind]. now destruct (toc.parse after).
  - rewrite <- !app_comm_cons. cbn [toc.parse]. now rewrite IH.
Qed.

Lemma build_node_raw (kind : string) (item : json) (fields : list (string * json))
  (kids : list StoplightNode) (n : StoplightNode) :
  build_node kind item fields kids = Ok (Some n) -> raw n = item /\ children n = kids.
Proof.
  unfold build_node.
  destruct (as_str _ _); [|done]. destruct (as_optional_str _ _); [|done].
  destruct (as_optional_str _ _); [|done]. simpl. now intros [= <-].
Qed.

Lemma json_forall_ind (P : json -> Prop) :
  P JNull -> (forall b, P (JBool b)) -> (forall z, P (JInt z)) ->
  (forall f, P (JFloat f)) -> (forall s, P (JStr s)) ->
  (forall items, Forall P items -> P (JList items)) ->
  (forall fields, Forall (fun kv => P kv.2) fields -> P (JDict fields)) ->
  forall j, P j.
Proof.
  intros H1 H2 H3 H4 H5 Hl Hd. fix IH 1.
  intros [ |b|z|f|s|items|fields];
    [apply H1|apply H2|apply H3|apply H4|apply H5| |].
  - apply Hl. induction items as [|x items IHi]; constructor; [apply IH|apply IHi].
  - apply Hd. induction fields as [|[k x] fields IHf]; constructor; [apply IH|apply IHf].
Qed.

Lemma nodes_of_unfold (n : StoplightNode) :
  nodes_of n = n :: forest_nodes (children n).
Proof.
  destruct n as [ty t s i r kids]. reflexivity.
Qed.

Lemma find_children_field (keys : list string) (fields : list (string * json))
  (l : list json) :
  find_children keys fields = Some l -> exists key, (key, JList l) ∈ fields.
Proof.
  induction keys as [|key keys IH]; [done|]. cbn [find_children].
  destruct (odict_get key fields) as [v|] eqn:E; [|exact IH].
  assert (Hin : exists k, (k, v) ∈ fields).
  { clear IH. induction fields as [|[k' v'] fields IHf]; [done|]. cbn [odict_get] in E.
    destruct (String.eqb k' key).
    - injection E as ->. exists k'. now left.
    - destruct (IHf E) as [k Hk]. exists k. now right. }
  destruct v; try exact IH. intros [= ->]. exact Hin.
Qed.

Lemma parse_canonical (l : list json) (kids : list StoplightNode) :
  Forall (fun c => forall n, _parse_item c = Ok (Some n) -> Forall canonical (nodes_of n)) l ->
  toc.parse l = Ok kids ->
  Forall canonical (forest_nodes kids).
Proof.
  intros H. revert kids. induction H as [|c l Hc _ IH]; intros kids.
  - intros [= <-]. constructor.
  - cbn [toc.parse]. destruct (_parse_item c) as [o|e] eqn:Ec; [|done]. cbn [rbind].
    destruct (toc.parse l) as [cs|e]; [|done]. cbn [rbind]. intros [= <-].
    destruct o as [n|]; [|now apply IH].
    cbn [forest_nodes flat_map]. apply Forall_app. split; [now apply Hc|now apply IH].
Qed.

Lemma parse_item_canonical (item : json) (n : StoplightNode) :
  _parse_item item = Ok (Some n) -> Forall canonical (nodes_of n).
Proof.
  revert n.
  enough (H : (forall n, _parse_item item = Ok (Some n) -> Forall canonical (nodes_of n))
              /\ (forall l, item = JList l ->
                    Forall (fun c => forall n, _parse_item c = Ok (Some n) ->
                                               Forall canonical (nodes_of n)) l))
    by apply H.
  induction item as [ |b|z|f|s|items IH|fields IH] using json_forall_ind;
    try solve [split; [intros n [=]|intros l [=]]].
  - split; [intros n [=]|]. intros l [= <-].
    eapply Forall_impl; [exact IH|]. now intros c [Hc _].
  - split; [|intros l [=]]. intros n Hn.
    assert (Hkids : forall l kids,
              find_children child_keys fields = Some l ->
              toc.parse l = Ok kids -> Forall canonical (forest_nodes kids)).
    { intros l kids [key Hin]%find_children_field. apply parse_canonical.
      rewrite Forall_forall in IH. now apply (IH _ Hin). }
    assert (Hbuild : forall kind kids,
              Forall canonical (forest_nodes kids) ->
              build_node kind (JDict fields) fields kids = Ok (Some n) ->
              Forall canonical (nodes_of n)).
    { intros kind kids Hk Hb. destruct (build_node_raw _ _ _ _ _ Hb) as [Hr Hc].
      rewrite nodes_of_unfold, Hc. constructor; [|done].
      unfold canonical. now rewrite Hr. }
    pose proof Hn as Hn'. rewrite _parse_item_unfold in Hn'. cbv zeta in Hn'.
    destruct (node_type_of fields) as [ty|e]; [|done]. cbn [rbind] in Hn'.
    destruct (str_in ty group_tags).
    { destruct (find_children child_keys fields) as [l|] eqn:El.
      - destruct (toc.parse l) as [kids|e] eqn:Ep; [|done]. cbn [rbind] in Hn'.
        eapply Hbuild; [|exact Hn']. eapply Hkids; eauto.
      - cbn [toc.parse rbind] in Hn'. eapply Hbuild; [|exact Hn']. constructor. }
    destruct (str_in ty article_tags).
    { eapply Hbuild; [|exact Hn']. constructor. }
    destruct (find_children child_keys fields) as [[|c l]|] eqn:El.
    + destruct (truthy _); [|done]. eapply Hbuild; [|exact Hn']. constructor.
    + destruct (toc.parse (c :: l)) as [kids|e] eqn:Ep; [|done]. cbn [rbind] in Hn'.
      eapply Hbuild; [|exact Hn']. eapply Hkids; eauto.
    + destruct (truthy _); [|done]. eapply Hbuild; [|exact Hn']. constructor.
Qed.

(** A record that the normaliser drops is the raw record of no canonical
    node, at any depth of the forest. *)
Lemma dropped_record_absent (r : json) (items : list json) (nodes : list StoplightNode) :
  _parse_item r = Ok None ->
  toc.parse items = Ok nodes ->
  forall m, m ∈ forest_nodes nodes -> raw m <> r.
Proof.
  intros Hr Hp m Hm E.
  assert (H : Forall canonical (forest_nodes nodes)).
  { eapply parse_canonical; [|exact Hp]. apply Forall_forall.
    intros c _ n. apply parse_item_canonical. }
  rewrite Forall_forall in H. specialize (H m Hm). unfold canonical in H.
  rewrite E, Hr in H. discriminate.
Qed.

End TocFacts.

(** * Lines *)

Section Lines.
Context {F : PyFloatOps}.

Lemma splitlines_go_no_break (n : nat) :
  forall (x cur : list ascii) (started : bool),
    (length x <= n)%nat -> no_linebreak cur ->
    Forall no_linebreak (splitlines_go cur started x).
Proof.
  induction n as [|n IH]; intros x cur started Hn Hcur.
  - destruct x; [|simpl in Hn; lia]. simpl.
    destruct started; repeat constructor. now apply Forall_rev.
  - destruct x as [|c r]; simpl.
    { destruct started; repeat constructor. now apply Forall_rev. }
    simpl in Hn. destruct (is_linebreak c) eqn:Hc.
    + constructor; [now apply Forall_rev|].
      destruct r as [|d r2]; [apply IH; [simpl; lia|constructor]|].
      destruct (_ && _); apply IH; simpl in *; try lia; constructor.
    + apply IH; [lia|]. now constructor.
Qed.

Lemma splitlines_no_break (x : list ascii) : Forall no_linebreak (splitlines x).
Proof. apply (splitlines_go_no_break (length x)); [lia|constructor]. Qed.

Lemma LF_is_linebreak : is_linebreak LF = true.
Proof. reflexivity. Qed.

Lemma no_linebreak_rstrip_LF (l : list ascii) :
  no_linebreak l -> rstrip_char LF l = l.
Proof.
  intros H. destruct l as [|c r] using rev_ind; [done|].
  apply rstrip_by_nop. apply Forall_app in H as [_ H].
  apply Forall_inv in H. destruct (Ascii.eqb_spec LF c) as [<-|]; [|done].
  now rewrite LF_is_linebreak in H.
Qed.

Lemma make_line_text (l : list ascii) :
  no_linebreak l -> line_text (make_line l) = l.
Proof. apply no_linebreak_rstrip_LF. Qed.

Lemma blank_or_comment_line (l : list ascii) :
  no_linebreak l -> blank_or_comment l -> is_blank_or_comment (make_line l) = true.
Proof.
  intros Hn H. unfold is_blank_or_comment. rewrite make_line_text by done.
  destruct H as [-> | H]; [done|]. rewrite H. now destruct (strip l).
Qed.

Lemma peek_blank (lines : list _Line) :
  Forall (fun l => is_blank_or_comment l = true) lines -> _peek lines = [].
Proof. induction 1 as [|l lines Hl _ IH]; simpl; [done|]. now rewrite Hl. Qed.

Lemma parse_blank (lines : list _Line) :
  Forall (fun l => is_blank_or_comment l = true) lines -> simple_yaml.parse lines = Ok (VMap []).
Proof.
  intros H. unfold simple_yaml.parse, _parse_block, fuel_for.
  replace (2 * length lines + 2)%nat with (S (S (2 * length lines))) by lia.
  cbn [block_loop]. now rewrite peek_blank.
Qed.

(** An input of blank and comment lines loads as the empty mapping. *)
Lemma load_blank (s : string) :
  Forall blank_or_comment (splitlines (chars s)) -> load s = Ok (VMap []).
Proof.
  intros H. unfold load. apply parse_blank. apply Forall_map.
  pose proof (splitlines_no_break (chars s)) as Hn.
  revert H Hn. generalize (splitlines (chars s)). intros ls.
  induction 1 as [|l ls Hl _ IH]; intros Hn; [constructor|].
  apply Forall_cons in Hn as [Hn1 Hn2]. constructor; [|auto].
  now apply blank_or_comment_line.
Qed.

End Lines.

(** * The lines that [dump] emits *)

Section DumpedLines.
Context {F : PyFloatOps}.

Lemma solid_inv (t : list ascii) :
  solid t = true ->
  strip t = t /\ no_linebreak t
  /\ (exists c r, t = c :: r /\ is_space c = false)
  /\ (exists r d, t = r ++ [d] /\ is_space d = false).
Proof.
  unfold solid. intros [[H1 H2]%andb_prop H3]%andb_prop.
  apply negb_true_iff, list_eqb_false in H1. apply list_eqb_true in H2.
  split; [done|]. split.
  { apply Forall_forall. intros c Hc. rewrite forallb_forall in H3.
    apply list_elem_of_In in Hc. specialize (H3 c Hc). now apply negb_true_iff in H3. }
  split.
  - destruct t as [|c r]; [done|]. exists c, r. split; [done|].
    eapply strip_by_head. exact H2.
  - destruct (exists_last H1) as [r [d E]]. exists r, d. split; [done|].
    eapply strip_by_last. unfold strip in H2. rewrite H2. exact E.
Qed.

Lemma strip_fixed_head (t : list ascii) (c : ascii) (r : list ascii) :
  strip t = t -> t = c :: r -> is_space c = false.
Proof. intros H E. eapply strip_by_head. unfold strip in H. rewrite H. exact E. Qed.

Lemma space_is_space : is_space " " = true.
Proof. reflexivity. Qed.

Lemma forallb_spaces (p : ascii -> bool) (n : nat) :
  p " "%char = true -> forallb p (spaces n) = true.
Proof. intros H. induction n as [|n IH]; simpl; [done|]. now rewrite H. Qed.

Lemma lstrip_by_spaces (p : ascii -> bool) (n : nat) (c : ascii) (r : list ascii) :
  p " "%char = true -> p c = false ->
  lstrip_by p (spaces n ++ c :: r) = c :: r.
Proof.
  intros Hs Hc. rewrite lstrip_by_all by now apply forallb_spaces.
  now apply lstrip_by_nop.
Qed.

Lemma length_spaces (n : nat) : length (spaces n) = n.
Proof. apply repeat_length. Qed.

Lemma not_space_not_blank (c : ascii) : is_space c = false -> Ascii.eqb " " c = false.
Proof.
  intros H. destruct (Ascii.eqb_spec " " c) as [<-|]; [|done]. now rewrite space_is_space in H.
Qed.

(** A line made of [n] spaces and a text [c :: r] that neither starts nor
    ends with white space and holds no line boundary. *)
Section OneLine.
Variables (n : nat) (c : ascii) (r : list ascii).
Hypothesis Hc : is_space c = false.
Hypothesis Hlast : forall r' d, c :: r = r' ++ [d] -> is_space d = false.
Hypothesis Hnb : no_linebreak (c :: r).

Lemma dumped_line_no_break : no_linebreak (spaces n ++ c :: r).
Proof.
  apply Forall_app. split; [|done].
  apply Forall_forall. intros x Hx%list_elem_of_In%repeat_spec. now subst x.
Qed.

Lemma dumped_line_make :
  make_line (spaces n ++ c :: r)
  = {| line_text := spaces n ++ c :: r; line_indent := n |}.
Proof.
  unfold make_line. rewrite no_linebreak_rstrip_LF by apply dumped_line_no_break.
  f_equal. unfold lstrip_char.
  rewrite lstrip_by_spaces; [|reflexivity|now apply not_space_not_blank].
  rewrite length_app, length_spaces. lia.
Qed.

Lemma dumped_line_lstrip : lstrip (spaces n ++ c :: r) = c :: r.
Proof. unfold lstrip. now apply lstrip_by_spaces. Qed.

Lemma dumped_line_strip : strip (spaces n ++ c :: r) = c :: r.
Proof.
  unfold strip, strip_by. rewrite lstrip_by_spaces by done.
  destruct (exists_last (l := c :: r)) as [r' [d E]]; [done|].
  rewrite E. apply rstrip_by_nop. eauto.
Qed.

Lemma dumped_line_not_blank :
  Ascii.eqb "#" c = false ->
  is_blank_or_comment (make_line (spaces n ++ c :: r)) = false.
Proof.
  intros H. rewrite dumped_line_make. unfold is_blank_or_comment. cbn [line_text].
  rewrite dumped_line_strip, dumped_line_lstrip.
  change (chars "#") with ["#"%char]. cbn [startswith]. now rewrite H.
Qed.

End OneLine.

End DumpedLines.

(** * Loading what was dumped *)

Section RoundTrip.
Context {F : PyFloatOps}.

Lemma value_forall_ind (P : value -> Prop) :
  (forall s, P (VScalar s)) ->
  (forall items, Forall P items -> P (VList items)) ->
  (forall entries, Forall (fun kv => P kv.2) entries -> P (VMap entries)) ->
  forall v, P v.
Proof.
  intros Hs Hl Hm. fix IH 1. intros [s|items|entries].
  - apply Hs.
  - apply Hl. induction items as [|x items IHi]; constructor; [apply IH|apply IHi].
  - apply Hm. induction entries as [|[k x] entries IHe]; constructor; [apply IH|apply IHe].
Qed.

Lemma container_ok_list (items : list value) :
  container_ok (VList items)
  = match items with [] => false | _ => true end && forallb item_ok items.
Proof.
  reflexivity.
Qed.

Lemma container_ok_map (entries : list (string * value)) :
  container_ok (VMap entries)
  = bool_decide (NoDup (map fst entries)) && forallb entry_ok entries.
Proof.
  cbn [container_ok]. f_equal.
  induction entries as [|[k x] entries IH]; [done|]. cbn [forallb]. rewrite <- IH.
  now destruct x.
Qed.

Lemma dump_map_cons (k : string) (item : value) (rest : list (string * value)) (i : nat) :
  _dump_value (VMap ((k, item) :: rest)) i
  = match item with
    | VScalar s => [spaces i ++ chars k ++ chars ": " ++ _format_scalar s]
    | _ => (spaces i ++ chars k ++ chars ":") :: _dump_value item (i + indent_size)
    end ++ _dump_value (VMap rest) i.
Proof. reflexivity. Qed.

Lemma dump_list_cons (item : value) (rest : list value) (i : nat) :
  _dump_value (VList (item :: rest)) i
  = match item with
    | VScalar s => [spaces i ++ chars "- " ++ _format_scalar s]
    | _ => (spaces i ++ chars "-") :: _dump_value item (i + indent_size)
    end ++ _dump_value (VList rest) i.
Proof. reflexivity. Qed.

Lemma split_once_app (c : ascii) (a b : list ascii) :
  has_char c a = false -> split_once c (a ++ c :: b) = Some (a, b).
Proof.
  induction a as [|d a IH]; simpl.
  - now rewrite Ascii.eqb_refl.
  - intros [H1 H2]%orb_false_elim. rewrite H1, IH by done. done.
Qed.

Lemma split_once_none (c : ascii) (l : list ascii) :
  has_char c l = false -> split_once c l = None.
Proof.
  induction l as [|d l IH]; simpl; [done|].
  intros [H1 H2]%orb_false_elim. now rewrite H1, IH.
Qed.

Lemma endswith_has_char (c : ascii) (l : list ascii) :
  has_char c l = false -> endswith l [c] = false.
Proof.
  intros H. unfold endswith. simpl.
  destruct (rev l) as [|d r] eqn:E; [done|]. simpl.
  destruct (Ascii.eqb_spec c d) as [<-|]; [|done].
  apply has_char_false in H. exfalso. apply H.
  apply list_elem_of_In, in_rev. rewrite E. now left.
Qed.

Lemma ends_at_peek (j : nat) (lines : list _Line) :
  ends_at j lines -> _peek lines = lines.
Proof. destruct lines as [|l r]; [done|]. simpl. now intros [-> _]. Qed.

Lemma ends_at_mono (i j : nat) (lines : list _Line) :
  (i <= j)%nat -> ends_at i lines -> ends_at j lines.
Proof. destruct lines; [done|]. simpl. intros ? [? ?]. split; [done|lia]. Qed.

(** The loop of [_parse_block] ends where the block ends. *)
Lemma block_loop_end (fuel i : nat) (coll : collection) (items : list value)
  (mapping : list (string * value)) (rest : list _Line) :
  ends_at i rest ->
  block_loop (S fuel) i coll items mapping rest = Ok (block_result coll items mapping, rest).
Proof.
  intros H. cbn [block_loop]. rewrite (ends_at_peek _ _ H).
  destruct rest as [|l r]; [now destruct coll|].
  destruct H as [_ H]. apply Nat.ltb_lt in H. rewrite H. now destruct coll.
Qed.


Lemma startswith_nil (l : list ascii) : startswith l [] = true.
Proof. now destruct l. Qed.

Lemma key_ok_inv (k : string) :
  key_ok k = true ->
  has_char ":" (chars k) = false
  /\ strip (chars k) = chars k
  /\ no_linebreak (chars k)
  /\ startswith (chars k) (chars "#") = false
  /\ startswith (chars k) (chars "- ") = false.
Proof.
  unfold key_ok. cbv zeta.
  intros [[[[H1 H2]%andb_prop H3]%andb_prop H4]%andb_prop H5]%andb_prop.
  apply negb_true_iff in H1, H4, H5. apply list_eqb_true in H2.
  repeat split; try done.
  apply Forall_forall. intros c Hc%list_elem_of_In. rewrite forallb_forall in H3.
  specialize (H3 c Hc). now apply negb_true_iff in H3.
Qed.

(** The text of a mapping entry, [key ++ ":" ++ tail], where [tail] is empty
    or a blank followed by the text of a scalar. *)
Section EntryLine.
Variables (k : string) (tail : list ascii).
Hypothesis Hk : key_ok k = true.
Hypothesis Htail : tail = [] \/ exists fmt, tail = " "%char :: fmt /\ solid fmt = true.

Lemma entry_body_cons :
  exists c r, chars k ++ ":"%char :: tail = c :: r
              /\ is_space c = false /\ Ascii.eqb "#" c = false.
Proof.
  destruct (key_ok_inv k Hk) as (_ & Hs & _ & Hh & _).
  destruct (chars k) as [|c r] eqn:E.
  - exists ":"%char, tail. done.
  - exists c, (r ++ ":"%char :: tail). split; [done|]. split.
    + eapply strip_fixed_head; [exact Hs|done].
    + change (chars "#") with ["#"%char] in Hh. cbn [startswith] in Hh.
      now rewrite startswith_nil, andb_true_r in Hh.
Qed.

Lemma entry_body_last (r' : list ascii) (d : ascii) :
  chars k ++ ":"%char :: tail = r' ++ [d] -> is_space d = false.
Proof.
  destruct Htail as [-> | (fmt & -> & Hf)].
  - change (chars k ++ [":"%char] = r' ++ [d] -> is_space d = false).
    now intros [_ <-]%app_inj_tail.
  - apply solid_inv in Hf as (_ & _ & _ & (r0 & d0 & -> & Hd)).
    change (chars k ++ ":" :: " " :: r0 ++ [d0])%char
      with (chars k ++ [":"; " "]%char ++ r0 ++ [d0]).
    rewrite !app_assoc. now intros [_ <-]%app_inj_tail.
Qed.

Lemma entry_body_no_break : no_linebreak (chars k ++ ":"%char :: tail).
Proof.
  destruct (key_ok_inv k Hk) as (_ & _ & Hn & _).
  apply Forall_app. split; [done|]. constructor; [done|].
  destruct Htail as [-> | (fmt & -> & Hf)]; [constructor|].
  constructor; [done|]. now apply solid_inv in Hf as (_ & Hf & _).
Qed.

Lemma entry_not_item : is_item_line (chars k ++ ":"%char :: tail) = false.
Proof.
  destruct (key_ok_inv k Hk) as (_ & _ & _ & _ & Hd).
  unfold is_item_line. apply orb_false_intro.
  - apply list_eqb_false. destruct (chars k) as [|a [|b r]]; try done.
  - change (chars "- ") with ["-"; " "]%char in *.
    destruct (chars k) as [|a [|b r]]; cbn [startswith app] in *.
    + reflexivity.
    + destruct (Ascii.eqb "-" a); reflexivity.
    + rewrite !startswith_nil in *. exact Hd.
Qed.

End EntryLine.


Lemma strip_blank_solid (fmt : list ascii) :
  solid fmt = true -> strip (" "%char :: fmt) = fmt.
Proof.
  intros (Hs & _ & (c & r & -> & Hc) & _)%solid_inv.
  unfold strip, strip_by in *.
  change (lstrip_by is_space (" "%char :: c :: r))
    with (if is_space " " then lstrip_by is_space (c :: r) else " "%char :: c :: r).
  rewrite space_is_space. exact Hs.
Qed.

Lemma entry_line (i : nat) (k : string) (tail : list ascii) :
  key_ok k = true ->
  (tail = [] \/ exists fmt, tail = " "%char :: fmt /\ solid fmt = true) ->
  let line := make_line (spaces i ++ chars k ++ ":"%char :: tail) in
  line_indent line = i
  /\ is_blank_or_comment line = false
  /\ strip (line_text line) = chars k ++ ":"%char :: tail.
Proof.
  intros Hk Ht.
  destruct (entry_body_cons k tail Hk) as (c & r & E & Hc & Hh).
  pose proof (entry_body_last k tail Ht) as Hl.
  pose proof (entry_body_no_break k tail Hk Ht) as Hn.
  rewrite E in *. cbv zeta.
  split; [now rewrite dumped_line_make|].
  split; [now apply dumped_line_not_blank|].
  rewrite dumped_line_make by done. cbn [line_text]. now apply dumped_line_strip.
Qed.

Lemma parse_key_value_entry (k : string) (tail : list ascii) :
  key_ok k = true ->
  _parse_key_value (chars k ++ ":"%char :: tail)
  = match strip tail with
    | [] => Ok (k, None)
    | _ =>
        if list_eqb (strip tail) (chars "|") || list_eqb (strip tail) (chars ">")
        then Raise (YamlError "Multiline scalars are not supported")
        else Ok (k, Some (_parse_scalar (strip tail)))
    end.
Proof.
  intros (Hc & Hs & _)%key_ok_inv. unfold _parse_key_value.
  rewrite split_once_app by done. rewrite Hs, text_chars. reflexivity.
Qed.

(** One iteration of the loop of [_parse_block] on a mapping entry with a
    scalar value. *)
Lemma block_loop_entry_scalar (fuel i : nat) (coll : collection) (items : list value)
  (mapping : list (string * value)) (k : string) (s : scalar) (rest : list _Line) :
  coll <> CList -> key_ok k = true -> entry_scalar_ok s = true ->
  block_loop (S fuel) i coll items mapping
    (make_line (spaces i ++ chars k ++ chars ": " ++ _format_scalar s) :: rest)
  = block_loop fuel i CDict items (odict_set k (VScalar s) mapping) rest.
Proof.
  intros Hcoll Hk Hs. unfold entry_scalar_ok in Hs.
  apply andb_prop in Hs as [[[Hrt Hm]%andb_prop Hbar]%andb_prop Hgt].
  unfold scalar_round_trips in Hrt. apply andb_prop in Hrt as [Hsolid Hparse].
  apply bool_decide_eq_true in Hparse. apply negb_true_iff in Hm, Hbar, Hgt.
  set (fmt := _format_scalar s) in *.
  change (chars k ++ chars ": " ++ fmt) with (chars k ++ ":"%char :: " "%char :: fmt).
  destruct (entry_line i k (" "%char :: fmt) Hk) as (Hi & Hb & Ht); [eauto|].
  set (line := make_line _) in *.
  cbn [block_loop _peek]. rewrite Hb, Hi, Nat.ltb_irrefl, Ht.
  rewrite entry_not_item by eauto.
  rewrite parse_key_value_entry by done. rewrite strip_blank_solid by done.
  rewrite Hbar, Hgt. cbn [orb].
  destruct (solid_inv _ Hsolid) as (_ & _ & (c & r & E & _) & _). rewrite E.
  rewrite <- E, Hparse. cbn [rbind]. rewrite Hm.
  destruct coll; done.
Qed.

(** One iteration on a mapping entry that opens a nested block. *)
Lemma block_loop_entry_block (fuel i : nat) (coll : collection) (items : list value)
  (mapping : list (string * value)) (k : string) (rest : list _Line) :
  coll <> CList -> key_ok k = true ->
  block_loop (S fuel) i coll items mapping
    (make_line (spaces i ++ chars k ++ chars ":") :: rest)
  = let! (v, rest') := block_loop fuel (i + indent_size) CNone [] [] rest in
    block_loop fuel i CDict items (odict_set k v mapping) rest'.
Proof.
  intros Hcoll Hk.
  change (chars k ++ chars ":") with (chars k ++ ":"%char :: []).
  destruct (entry_line i k [] Hk) as (Hi & Hb & Ht); [eauto|].
  set (line := make_line _) in *.
  cbn [block_loop _peek]. rewrite Hb, Hi, Nat.ltb_irrefl, Ht.
  rewrite entry_not_item by eauto.
  rewrite parse_key_value_entry by done.
  change (strip []) with (@nil ascii). cbn [rbind].
  destruct coll; done.
Qed.


Lemma item_line (i : nat) (tail : list ascii) :
  (tail = [] \/ exists fmt, tail = " "%char :: fmt /\ solid fmt = true) ->
  let line := make_line (spaces i ++ "-"%char :: tail) in
  line_indent line = i
  /\ is_blank_or_comment line = false
  /\ strip (line_text line) = "-"%char :: tail.
Proof.
  intros Ht.
  assert (Hl : forall r' d, "-"%char :: tail = r' ++ [d] -> is_space d = false).
  { intros r' d. destruct Ht as [-> | (fmt & -> & Hf)].
    - change (["-"%char]) with ([] ++ ["-"%char]). now intros [_ <-]%app_inj_tail.
    - apply solid_inv in Hf as (_ & _ & _ & (r0 & d0 & -> & Hd)).
      change ("-" :: " " :: r0 ++ [d0])%char with (["-"; " "]%char ++ r0 ++ [d0]).
      rewrite !app_assoc. now intros [_ <-]%app_inj_tail. }
  assert (Hn : no_linebreak ("-"%char :: tail)).
  { constructor; [done|]. destruct Ht as [-> | (fmt & -> & Hf)]; [constructor|].
    constructor; [done|]. now apply solid_inv in Hf as (_ & Hf & _). }
  cbv zeta. split; [now rewrite dumped_line_make|].
  split; [now apply dumped_line_not_blank|].
  rewrite dumped_line_make by done. cbn [line_text]. now apply dumped_line_strip.
Qed.

Lemma is_item_line_dash (fmt : list ascii) :
  is_item_line ("-"%char :: " "%char :: fmt) = true.
Proof.
  unfold is_item_line. apply orb_true_intro. right.
  change (chars "- ") with ["-"; " "]%char. cbn [startswith].
  now rewrite !Ascii.eqb_refl, startswith_nil.
Qed.

Lemma item_scalar_ok_inv (s : scalar) :
  item_scalar_ok s = true ->
  solid (_format_scalar s) = true
  /\ _parse_scalar (_format_scalar s) = s
  /\ has_char ":" (_format_scalar s) = false.
Proof.
  unfold item_scalar_ok, scalar_round_trips.
  intros [[H1 H2]%andb_prop H3]%andb_prop.
  apply bool_decide_eq_true in H2. now apply negb_true_iff in H3.
Qed.

(** [_collect_additional_mapping_entries] after a scalar item, when the
    next line is not indented under the item. *)
Lemma collect_after_scalar (fuel i : nat) (s : scalar) (rest : list _Line) :
  ends_at i rest ->
  _collect_additional_mapping_entries (S fuel) (VScalar s) i rest
  = Ok (VScalar s, rest).
Proof.
  intros H. cbn [_collect_additional_mapping_entries].
  rewrite (ends_at_peek _ _ H). destruct rest as [|l r]; [done|].
  destruct H as [_ H]. apply Nat.leb_gt in H. now rewrite H.
Qed.

(** One iteration of the loop of [_parse_block] on a scalar list item. *)
Lemma block_loop_item_scalar (fuel i : nat) (coll : collection) (items : list value)
  (mapping : list (string * value)) (s : scalar) (rest : list _Line) :
  coll <> CDict -> item_scalar_ok s = true -> ends_at (i + indent_size) rest ->
  block_loop (S (S (S fuel))) i coll items mapping
    (make_line (spaces i ++ chars "- " ++ _format_scalar s) :: rest)
  = block_loop (S (S fuel)) i CList (items ++ [VScalar s]) mapping rest.
Proof.
  intros Hcoll (Hsolid & Hparse & Hcolon)%item_scalar_ok_inv Hrest.
  set (fmt := _format_scalar s) in *.
  change (spaces i ++ chars "- " ++ fmt) with (spaces i ++ "-"%char :: " "%char :: fmt).
  destruct (item_line i (" "%char :: fmt)) as (Hi & Hb & Ht); [eauto|].
  set (line := make_line _) in *.
  cbn [block_loop _peek]. rewrite Hb, Hi, Nat.ltb_irrefl, Ht.
  rewrite is_item_line_dash. cbn [tl].
  destruct (solid_inv _ Hsolid) as (Hs & _ & (c & r & E & Hc) & _).
  assert (Hl : lstrip (" "%char :: fmt) = fmt).
  { unfold lstrip. rewrite E.
    change (lstrip_by is_space (" "%char :: c :: r))
      with (if is_space " " then lstrip_by is_space (c :: r) else " "%char :: c :: r).
    rewrite space_is_space. now apply lstrip_by_nop. }
  rewrite Hl. cbn [_parse_list_item]. rewrite E. rewrite <- E.
  change (chars ":") with [":"%char].
  rewrite endswith_has_char, split_once_none by done.
  rewrite Hs, Hparse, collect_after_scalar by done. cbn [rbind].
  destruct coll; done.
Qed.

(** One iteration on a list item that opens a nested block. *)
Lemma block_loop_item_block (fuel i : nat) (coll : collection) (items : list value)
  (mapping : list (string * value)) (rest : list _Line) :
  coll <> CDict ->
  block_loop (S (S fuel)) i coll items mapping
    (make_line (spaces i ++ chars "-") :: rest)
  = let! (v, rest') := block_loop fuel (i + indent_size) CNone [] [] rest in
    block_loop (S fuel) i CList (items ++ [v]) mapping rest'.
Proof.
  intros Hcoll.
  change (spaces i ++ chars "-") with (spaces i ++ "-"%char :: []).
  destruct (item_line i []) as (Hi & Hb & Ht); [eauto|].
  set (line := make_line _) in *.
  cbn [block_loop _peek]. rewrite Hb, Hi, Nat.ltb_irrefl, Ht.
  change (is_item_line ["-"%char]) with true. cbn [tl].
  change (lstrip []) with (@nil ascii). cbn [_parse_list_item].
  destruct coll; done.
Qed.


Lemma odict_set_fresh {V} (k : string) (v : V) (m : list (string * V)) :
  k ∉ map fst m -> odict_set k v m = m ++ [(k, v)].
Proof.
  induction m as [|[k' v'] m IH]; [done|]. cbn [map fst]. intros H.
  apply not_elem_of_cons in H as [H1 H2]. simpl.
  destruct (String.eqb_spec k' k); [congruence|]. now rewrite IH.
Qed.

Lemma lines_of_map_scalar (k : string) (s : scalar) (m : list (string * value)) (i : nat) :
  lines_of (VMap ((k, VScalar s) :: m)) i
  = make_line (spaces i ++ chars k ++ chars ": " ++ _format_scalar s)
      :: lines_of (VMap m) i.
Proof. reflexivity. Qed.

Lemma lines_of_map_block (k : string) (item : value) (m : list (string * value)) (i : nat) :
  is_container item = true ->
  lines_of (VMap ((k, item) :: m)) i
  = make_line (spaces i ++ chars k ++ chars ":")
      :: lines_of item (i + indent_size) ++ lines_of (VMap m) i.
Proof.
  intros H. unfold lines_of. rewrite dump_map_cons.
  destruct item; [done| |]; now rewrite map_app.
Qed.

Lemma lines_of_list_scalar (s : scalar) (l : list value) (i : nat) :
  lines_of (VList (VScalar s :: l)) i
  = make_line (spaces i ++ chars "- " ++ _format_scalar s) :: lines_of (VList l) i.
Proof. reflexivity. Qed.

Lemma lines_of_list_block (item : value) (l : list value) (i : nat) :
  is_container item = true ->
  lines_of (VList (item :: l)) i
  = make_line (spaces i ++ chars "-")
      :: lines_of item (i + indent_size) ++ lines_of (VList l) i.
Proof.
  intros H. unfold lines_of. rewrite dump_list_cons.
  destruct item; [done| |]; now rewrite map_app.
Qed.

Lemma container_ok_is_container (v : value) :
  container_ok v = true -> is_container v = true.
Proof. now destruct v. Qed.

Lemma entry_ok_inv (k : string) (item : value) :
  entry_ok (k, item) = true ->
  key_ok k = true
  /\ match item with
     | VScalar s => entry_scalar_ok s = true
     | _ => container_ok item = true
     end.
Proof. unfold entry_ok. cbn [fst snd]. intros [H1 H2]%andb_prop. now destruct item. Qed.

Lemma entry_scalar_solid (s : scalar) :
  entry_scalar_ok s = true -> solid (_format_scalar s) = true.
Proof.
  unfold entry_scalar_ok, scalar_round_trips.
  now intros [[[[H _]%andb_prop _]%andb_prop _]%andb_prop _]%andb_prop.
Qed.

(** After a block at indentation [i], the lines of further entries or items
    at [i] end every block opened deeper. *)
Lemma ends_at_entries (m : list (string * value)) (i j : nat) (rest : list _Line) :
  forallb entry_ok m = true -> (i < j)%nat -> ends_at i rest ->
  ends_at j (lines_of (VMap m) i ++ rest).
Proof.
  intros Hm Hij Hrest. destruct m as [|[k item] m].
  { apply (ends_at_mono i); [lia|done]. }
  cbn [forallb] in Hm. apply andb_prop in Hm as [[Hk Hitem]%entry_ok_inv _].
  destruct item as [s| |].
  - rewrite lines_of_map_scalar.
    change (chars k ++ chars ": " ++ _format_scalar s)
      with (chars k ++ ":"%char :: " "%char :: _format_scalar s).
    destruct (entry_line i k (" "%char :: _format_scalar s) Hk) as (Hi & Hb & _).
    { right. eexists. split; [done|]. now apply entry_scalar_solid. }
    cbn [app ends_at]. split; [done|lia].
  - rewrite lines_of_map_block by done.
    change (chars k ++ chars ":") with (chars k ++ ":"%char :: []).
    destruct (entry_line i k [] Hk) as (Hi & Hb & _); [now left|].
    cbn [app ends_at]. split; [done|lia].
  - rewrite lines_of_map_block by done.
    change (chars k ++ chars ":") with (chars k ++ ":"%char :: []).
    destruct (entry_line i k [] Hk) as (Hi & Hb & _); [now left|].
    cbn [app ends_at]. split; [done|lia].
Qed.

Lemma ends_at_items (l : list value) (i j : nat) (rest : list _Line) :
  forallb item_ok l = true -> (i < j)%nat -> ends_at i rest ->
  ends_at j (lines_of (VList l) i ++ rest).
Proof.
  intros Hl Hij Hrest. destruct l as [|item l].
  { apply (ends_at_mono i); [lia|done]. }
  cbn [forallb] in Hl. apply andb_prop in Hl as [Hitem _].
  destruct item as [s| |].
  - rewrite lines_of_list_scalar.
    apply item_scalar_ok_inv in Hitem as (Hs & _).
    change (spaces i ++ chars "- " ++ _format_scalar s)
      with (spaces i ++ "-"%char :: " "%char :: _format_scalar s).
    destruct (item_line i (" "%char :: _format_scalar s)) as (Hi & Hb & _); [eauto|].
    cbn [app ends_at]. split; [done|lia].
  - rewrite lines_of_list_block by done.
    change (spaces i ++ chars "-") with (spaces i ++ "-"%char :: []).
    destruct (item_line i []) as (Hi & Hb & _); [now left|].
    cbn [app ends_at]. split; [done|lia].
  - rewrite lines_of_list_block by done.
    change (spaces i ++ chars "-") with (spaces i ++ "-"%char :: []).
    destruct (item_line i []) as (Hi & Hb & _); [now left|].
    cbn [app ends_at]. split; [done|lia].
Qed.

Lemma read_entries (m : list (string * value)) :
  Forall (fun kv => reads_back kv.2) m ->
  forallb entry_ok m = true ->
  forall fuel i coll items acc rest,
    coll <> CList ->
    NoDup (map fst acc ++ map fst m) ->
    ends_at i rest ->
    (2 * length (lines_of (VMap m) i ++ rest) + 2 <= fuel)%nat ->
    block_loop fuel i coll items acc (lines_of (VMap m) i ++ rest)
    = Ok (match m with
          | [] => block_result coll items acc
          | _ => VMap (acc ++ m)
          end, rest).
Proof.
  induction 1 as [|[k item] m Hitem _ IH]; intros Hm fuel i coll items acc rest Hc Hnd Hrest Hf.
  { destruct fuel as [|fuel]; [lia|]. now apply block_loop_end. }
  cbn [forallb] in Hm. apply andb_prop in Hm as [[Hk Hi]%entry_ok_inv Hm].
  unfold reads_back in Hitem. cbn [snd] in Hitem.
  assert (Hfresh : k ∉ map fst acc).
  { cbn [map fst] in Hnd. apply NoDup_app in Hnd as (_ & Hnd & _).
    intros Hin. apply (Hnd k Hin). now left. }
  assert (Hnd' : forall v, NoDup (map fst (acc ++ [(k, v)]) ++ map fst m)).
  { intros v. rewrite map_app. cbn [map fst]. now rewrite <- app_assoc. }
  assert (Hres : forall v : value,
    match m with
    | [] => block_result CDict items (acc ++ [(k, v)])
    | _ => VMap ((acc ++ [(k, v)]) ++ m)
    end = VMap (acc ++ (k, v) :: m)).
  { intros v. destruct m; cbn [block_result]; [done|]. now rewrite <- app_assoc. }
  destruct fuel as [|fuel]; [lia|].
  destruct item as [s|l|mm].
  - rewrite lines_of_map_scalar in *. cbn [app length] in *.
    rewrite block_loop_entry_scalar by done.
    rewrite odict_set_fresh by done.
    rewrite IH; [now rewrite Hres|done|done|apply Hnd'|done|lia].
  - rewrite lines_of_map_block in * by done. cbn [app length] in *.
    rewrite block_loop_entry_block by done. rewrite <- app_assoc in *.
    rewrite (Hitem Hi); [|apply ends_at_entries; [done|unfold indent_size; lia|done]|lia].
    cbn [rbind]. rewrite odict_set_fresh by done.
    rewrite length_app in Hf.
    rewrite IH; [now rewrite Hres|done|done|apply Hnd'|done|lia].
  - rewrite lines_of_map_block in * by done. cbn [app length] in *.
    rewrite block_loop_entry_block by done. rewrite <- app_assoc in *.
    rewrite (Hitem Hi); [|apply ends_at_entries; [done|unfold indent_size; lia|done]|lia].
    cbn [rbind]. rewrite odict_set_fresh by done.
    rewrite length_app in Hf.
    rewrite IH; [now rewrite Hres|done|done|apply Hnd'|done|lia].
Qed.


Lemma read_items (l : list value) :
  Forall reads_back l ->
  forallb item_ok l = true ->
  forall fuel i coll acc mapping rest,
    coll <> CDict ->
    ends_at i rest ->
    (2 * length (lines_of (VList l) i ++ rest) + 2 <= fuel)%nat ->
    block_loop fuel i coll acc mapping (lines_of (VList l) i ++ rest)
    = Ok (match l with
          | [] => block_result coll acc mapping
          | _ => VList (acc ++ l)
          end, rest).
Proof.
  induction 1 as [|item l Hitem _ IH]; intros Hl fuel i coll acc mapping rest Hc Hrest Hf.
  { destruct fuel as [|fuel]; [lia|]. now apply block_loop_end. }
  cbn [forallb] in Hl. apply andb_prop in Hl as [Hi Hl].
  unfold reads_back in Hitem.
  assert (Hres : forall v : value,
    match l with
    | [] => block_result CList (acc ++ [v]) mapping
    | _ => VList ((acc ++ [v]) ++ l)
    end = VList (acc ++ v :: l)).
  { intros v. destruct l; cbn [block_result]; [done|]. now rewrite <- app_assoc. }
  assert (Hnext : ends_at (i + indent_size) (lines_of (VList l) i ++ rest)).
  { apply ends_at_items; [done|unfold indent_size; lia|done]. }
  destruct item as [s|l'|mm].
  - rewrite lines_of_list_scalar in *. cbn [app length] in *.
    destruct fuel as [|[|[|fuel]]]; [lia..|].
    rewrite block_loop_item_scalar by done.
    rewrite IH; [now rewrite Hres|done|done|done|lia].
  - rewrite lines_of_list_block in * by done. cbn [app length] in *.
    destruct fuel as [|[|fuel]]; [lia..|].
    rewrite block_loop_item_block by done. rewrite <- app_assoc in *.
    rewrite (Hitem Hi); [|done|lia].
    cbn [rbind]. rewrite length_app in Hf.
    rewrite IH; [now rewrite Hres|done|done|done|lia].
  - rewrite lines_of_list_block in * by done. cbn [app length] in *.
    destruct fuel as [|[|fuel]]; [lia..|].
    rewrite block_loop_item_block by done. rewrite <- app_assoc in *.
    rewrite (Hitem Hi); [|done|lia].
    cbn [rbind]. rewrite length_app in Hf.
    rewrite IH; [now rewrite Hres|done|done|done|lia].
Qed.

(** The parser reads the lines of every admissible container back. *)
Lemma reads_back_all (v : value) : reads_back v.
Proof.
  induction v as [s|l IH|m IH] using value_forall_ind; intros Hok fuel i rest Hrest Hf.
  - done.
  - rewrite container_ok_list in Hok. apply andb_prop in Hok as [Hne Hl].
    rewrite (read_items l IH Hl) by done. now destruct l.
  - rewrite container_ok_map in Hok. apply andb_prop in Hok as [Hnd Hm].
    apply bool_decide_eq_true in Hnd.
    rewrite (read_entries m IH Hm) by done. now destruct m.
Qed.


Lemma closed_entry_line (i : nat) (k : string) (tail : list ascii) :
  key_ok k = true ->
  (tail = [] \/ exists fmt, tail = " "%char :: fmt /\ solid fmt = true) ->
  closed_line (spaces i ++ chars k ++ ":"%char :: tail).
Proof.
  intros Hk Ht.
  destruct (entry_body_cons k tail Hk) as (c & r & E & Hc & _).
  pose proof (entry_body_last k tail Ht) as Hl.
  pose proof (entry_body_no_break k tail Hk Ht) as Hn.
  rewrite E in *. split; [now apply dumped_line_no_break|].
  destruct (exists_last (l := c :: r)) as [r' [d E']]; [done|].
  exists (spaces i ++ r'), d. rewrite E', app_assoc. eauto.
Qed.

Lemma closed_item_line (i : nat) (tail : list ascii) :
  (tail = [] \/ exists fmt, tail = " "%char :: fmt /\ solid fmt = true) ->
  closed_line (spaces i ++ "-"%char :: tail).
Proof.
  intros Ht. split.
  - apply dumped_line_no_break. constructor; [done|].
    destruct Ht as [-> | (fmt & -> & Hf)]; [constructor|].
    constructor; [done|]. now apply solid_inv in Hf as (_ & Hf & _).
  - destruct Ht as [-> | (fmt & -> & Hf)].
    + exists (spaces i), "-"%char. done.
    + apply solid_inv in Hf as (_ & _ & _ & (r0 & d0 & -> & Hd)).
      exists (spaces i ++ "-"%char :: " "%char :: r0), d0.
      split; [|done]. now rewrite <- app_assoc.
Qed.

Lemma closed_lines_dump (v : value) :
  container_ok v = true -> forall i, Forall closed_line (_dump_value v i).
Proof.
  induction v as [s|l IH|m IH] using value_forall_ind; intros Hok i; [done| |].
  - rewrite container_ok_list in Hok. apply andb_prop in Hok as [_ Hl].
    induction IH as [|item l Hitem _ IHl]; [constructor|].
    cbn [forallb] in Hl. apply andb_prop in Hl as [Hi Hl].
    rewrite dump_list_cons. apply Forall_app. split; [|now apply IHl].
    destruct item as [s| |].
    + apply item_scalar_ok_inv in Hi as (Hs & _).
      constructor; [|constructor]. apply (closed_item_line i (" "%char :: _format_scalar s)).
      eauto.
    + constructor; [apply (closed_item_line i []); now left|now apply Hitem].
    + constructor; [apply (closed_item_line i []); now left|now apply Hitem].
  - rewrite container_ok_map in Hok. apply andb_prop in Hok as [_ Hm].
    induction IH as [|[k item] m Hitem _ IHm]; [constructor|].
    cbn [forallb] in Hm. apply andb_prop in Hm as [[Hk Hi]%entry_ok_inv Hm].
    rewrite dump_map_cons. apply Forall_app. split; [|now apply IHm].
    cbn [snd] in Hitem. destruct item as [s| |].
    + constructor; [|constructor].
      apply (closed_entry_line i k (" "%char :: _format_scalar s) Hk).
      right. eexists. split; [done|]. now apply entry_scalar_solid.
    + constructor; [apply (closed_entry_line i k [] Hk); now left|now apply Hitem].
    + constructor; [apply (closed_entry_line i k [] Hk); now left|now apply Hitem].
Qed.

Lemma splitlines_go_line (l cur rest : list ascii) (started : bool) :
  no_linebreak l ->
  splitlines_go cur started (l ++ LF :: rest)
  = (rev cur ++ l) :: splitlines_go [] false rest.
Proof.
  intros Hl. revert cur started.
  induction Hl as [|c l Hc _ IH]; intros cur started.
  - cbn [app splitlines_go]. rewrite LF_is_linebreak, app_nil_r.
    now destruct rest.
  - cbn [app splitlines_go]. rewrite Hc, IH. cbn [rev]. now rewrite <- app_assoc.
Qed.

Lemma splitlines_join (l : list ascii) (ls : list (list ascii)) :
  Forall no_linebreak (l :: ls) ->
  splitlines (join LF (l :: ls) ++ [LF]) = l :: ls.
Proof.
  revert l. induction ls as [|l2 ls IH]; intros l [Hl Hls]%Forall_cons.
  - unfold splitlines. cbn [join]. now rewrite splitlines_go_line.
  - unfold splitlines in *. change (join LF (l :: l2 :: ls)) with (l ++ LF :: join LF (l2 :: ls)).
    rewrite <- app_assoc. cbn [app]. rewrite splitlines_go_line by done.
    now rewrite IH.
Qed.

Lemma join_last (l : list ascii) (ls : list (list ascii)) :
  Forall closed_line (l :: ls) ->
  exists r d, join LF (l :: ls) = r ++ [d] /\ is_space d = false.
Proof.
  revert l. induction ls as [|l2 ls IH]; intros l [Hl Hls]%Forall_cons.
  - destruct Hl as (_ & r & d & -> & Hd). exists r, d. done.
  - destruct (IH l2 Hls) as (r & d & E & Hd).
    change (join LF (l :: l2 :: ls)) with (l ++ LF :: join LF (l2 :: ls)).
    rewrite E. exists (l ++ LF :: r), d. split; [|done]. now rewrite <- app_assoc.
Qed.

End RoundTrip.

(** * The scalars that survive the round trip *)

Section Cover.
Context {F : PyFloatOps}.

Lemma uint_digits_ne (d : Decimal.uint) :
  Forall (fun c => is_digit c = true) (chars (NilEmpty.string_of_uint d)).
Proof.
  unfold chars. induction d; simpl; constructor; try reflexivity; assumption.
Qed.

Lemma uint_digits (d : Decimal.uint) :
  Forall (fun c => is_digit c = true) (chars (NilZero.string_of_uint d)).
Proof.
  destruct d; try apply uint_digits_ne. repeat constructor.
Qed.

Lemma uint_nonempty (d : Decimal.uint) : chars (NilZero.string_of_uint d) <> [].
Proof. destruct d; discriminate. Qed.

(** The text of an [int]: an optional minus sign and digits without leading
    zeros. *)
Lemma str_of_int_shape (z : Z) :
  exists (neg : bool) (d : Decimal.uint),
    chars (str_of_int z) = (if neg then ["-"%char] else []) ++ chars (NilZero.string_of_uint d)
    /\ d <> Decimal.Nil
    /\ z = (if neg then - Z.of_uint d else Z.of_uint d)%Z
    /\ Decimal.unorm d = d.
Proof.
  assert (Hn : forall p, Decimal.unorm (Pos.to_uint p) = Pos.to_uint p).
  { intros p. rewrite <- DecimalPos.Unsigned.to_of, DecimalPos.Unsigned.of_to.
    reflexivity. }
  unfold str_of_int. pose proof (DecimalZ.of_to z) as Hz.
  destruct z as [|p|p]; cbn [Z.to_int NilZero.string_of_int] in *.
  - exists false, (Decimal.D0 Decimal.Nil). done.
  - exists false, (Pos.to_uint p). split; [done|]. split; [|done].
    apply DecimalPos.Unsigned.to_uint_nonnil.
  - exists true, (Pos.to_uint p). split; [done|]. split; [|done].
    apply DecimalPos.Unsigned.to_uint_nonnil.
Qed.

Lemma usize_length (d : Decimal.uint) :
  DecimalPos.Unsigned.usize d = N.of_nat (length (chars (NilEmpty.string_of_uint d))).
Proof.
  unfold chars.
  induction d;
    cbn [DecimalPos.Unsigned.usize NilEmpty.string_of_uint list_ascii_of_string length];
    rewrite ?IHd; lia.
Qed.

Lemma unorm_fixed_head (d : Decimal.uint) :
  Decimal.unorm d = d ->
  d = Decimal.zero
  \/ exists (acc : positive) (l : Decimal.uint),
       Pos.of_uint d = N.pos (Pos.of_uint_acc l acc)
       /\ DecimalPos.Unsigned.usize d = N.succ (DecimalPos.Unsigned.usize l).
Proof.
  intros H. destruct d; try (right; eexists _, d; split; reflexivity).
  - now left.
  - left. unfold Decimal.unorm in H. cbn [Decimal.nzhead] in H.
    destruct (Decimal.nzhead d) eqn:E;
      try (exfalso; apply (DecimalFacts.nzhead_nonzero d d); congruence).
    congruence.
Qed.

Lemma of_lu_upper (d : Decimal.uint) :
  (DecimalPos.Unsigned.of_lu d < 10 ^ DecimalPos.Unsigned.usize d)%N.
Proof.
  induction d; rewrite DecimalPos.Unsigned.of_lu_eqn;
    cbn [DecimalPos.Unsigned.hd DecimalPos.Unsigned.tl DecimalPos.Unsigned.usize];
    rewrite ?N.pow_succ_r'; try lia.
  cbn. lia.
Qed.

Lemma usize_rev (d : Decimal.uint) :
  DecimalPos.Unsigned.usize (Decimal.rev d) = DecimalPos.Unsigned.usize d.
Proof.
  assert (H : forall u, DecimalPos.Unsigned.usize u = N.of_nat (Decimal.nb_digits u)).
  { induction u; cbn [DecimalPos.Unsigned.usize Decimal.nb_digits]; rewrite ?IHu; lia. }
  now rewrite !H, DecimalFacts.nb_digits_rev.
Qed.

(** The value of a numeral without leading zeros lies between the powers of
    ten that its number of digits gives. *)
Lemma uint_value_bounds (d : Decimal.uint) :
  Decimal.unorm d = d ->
  let n := Z.of_nat (length (chars (NilZero.string_of_uint d))) in
  Z.of_uint d < 10 ^ n /\ (1 < n -> 10 ^ (n - 1) <= Z.of_uint d).
Proof.
  intros H. cbv zeta.
  assert (Hup : (Pos.of_uint d < 10 ^ DecimalPos.Unsigned.usize d)%N).
  { rewrite DecimalPos.Unsigned.of_uint_alt, <- usize_rev. apply of_lu_upper. }
  destruct (unorm_fixed_head d H) as [->|(acc & l & Hv & Hs)].
  { cbn. lia. }
  assert (Hd : NilZero.string_of_uint d = NilEmpty.string_of_uint d).
  { destruct d; try reflexivity. cbn in Hs. lia. }
  rewrite Hd. unfold Z.of_uint.
  pose proof (usize_length d) as Hlen.
  set (n := length _) in *.
  split.
  - rewrite Hlen in Hup. apply N2Z.inj_lt in Hup. rewrite N2Z.inj_pow in Hup.
    now rewrite nat_N_Z in Hup.
  - intros _. rewrite Hv, DecimalPos.Unsigned.of_uint_acc_rev.
    assert (Hl : DecimalPos.Unsigned.usize l = N.of_nat (n - 1)) by lia.
    rewrite Hl. rewrite N2Z.inj_add, N2Z.inj_mul, N2Z.inj_pow, nat_N_Z.
    replace (Z.of_nat (n - 1)) with (Z.of_nat n - 1) by lia.
    assert (0 < 10 ^ (Z.of_nat n - 1)) by (apply Z.pow_pos_nonneg; lia).
    nia.
Qed.

(** A numeral without leading zeros has at most [m] digits exactly when its
    value is below [10 ^ m]. *)
Lemma uint_digits_limit (d : Decimal.uint) (m : Z) :
  Decimal.unorm d = d -> 1 <= m ->
  Z.of_nat (length (chars (NilZero.string_of_uint d))) <= m <-> Z.of_uint d < 10 ^ m.
Proof.
  intros H Hm. destruct (uint_value_bounds d H) as [Hup Hlow].
  set (n := Z.of_nat (length _)) in *. split.
  - intros Hn. eapply Z.lt_le_trans; [exact Hup|].
    apply Z.pow_le_mono_r; lia.
  - intros Hv. destruct (Z.le_gt_cases n m) as [|Hgt]; [done|]. exfalso.
    assert (10 ^ m <= 10 ^ (n - 1)) by (apply Z.pow_le_mono_r; lia).
    specialize (Hlow ltac:(lia)). lia.
Qed.

Lemma digit_facts (c : ascii) :
  is_digit c = true ->
  is_space c = false /\ is_linebreak c = false /\ lower_char c = c
  /\ Ascii.eqb c "_" = false /\ Ascii.eqb c "-" = false /\ Ascii.eqb c "+" = false
  /\ Ascii.eqb "." c = false /\ Ascii.eqb ":" c = false
  /\ Ascii.eqb "n" c = false /\ Ascii.eqb "t" c = false /\ Ascii.eqb "f" c = false
  /\ Ascii.eqb "|" c = false /\ Ascii.eqb ">" c = false.
Proof. destruct c as [[] [] [] [] [] [] [] []]; vm_compute; intros; try discriminate; repeat split. Qed.

Lemma digitpart_digits (b : bool) (ds : list ascii) :
  Forall (fun c => is_digit c = true) ds -> ds <> [] \/ b = true ->
  digitpart_from b ds = true.
Proof.
  intros H. revert b. induction H as [|c ds Hc _ IH]; intros b Hb.
  - now destruct Hb.
  - cbn [digitpart_from]. rewrite Hc. apply IH. now right.
Qed.

Lemma drop_underscores_digits (ds : list ascii) :
  Forall (fun c => is_digit c = true) ds -> drop_underscores ds = ds.
Proof.
  unfold drop_underscores. induction 1 as [|c ds Hc _ IH]; [done|].
  cbn [List.filter]. destruct (digit_facts c Hc) as (_ & _ & _ & H & _).
  rewrite H. cbn [negb]. now rewrite IH.
Qed.


Lemma solid_intro (t : list ascii) :
  t <> [] -> strip t = t -> no_linebreak t -> solid t = true.
Proof.
  intros H1 H2 H3. unfold solid. rewrite H2.
  rewrite (proj2 (list_eqb_false t [])), (proj2 (list_eqb_true t t)) by done.
  cbn [negb andb]. apply forallb_forall. intros c Hc%list_elem_of_In.
  unfold no_linebreak in H3. rewrite Forall_forall in H3. now rewrite H3.
Qed.

Lemma has_char_forall (c : ascii) (l : list ascii) (P : ascii -> Prop) :
  Forall P l -> (forall d, P d -> Ascii.eqb c d = false) -> has_char c l = false.
Proof.
  intros H HP. unfold has_char. induction H as [|d l Hd _ IH]; [done|].
  cbn [existsb]. now rewrite (HP d Hd), IH.
Qed.

Lemma sign_or_digit_facts (c : ascii) :
  sign_or_digit c ->
  is_space c = false /\ is_linebreak c = false /\ lower_char c = c
  /\ Ascii.eqb "." c = false /\ Ascii.eqb ":" c = false
  /\ Ascii.eqb "n" c = false /\ Ascii.eqb "t" c = false /\ Ascii.eqb "f" c = false
  /\ Ascii.eqb "|" c = false /\ Ascii.eqb ">" c = false.
Proof.
  intros [H| ->]; [|repeat split].
  destruct (digit_facts c H) as (?&?&?&?&?&?&?&?&?&?&?&?&?). repeat split; done.
Qed.

Lemma head_differs (c d : ascii) (r t : list ascii) :
  Ascii.eqb d c = false -> list_eqb (c :: r) (d :: t) = false.
Proof.
  intros H. apply list_eqb_false. intros [= -> _]. now rewrite Ascii.eqb_refl in H.
Qed.

(** Every [int] within the digit limit of the interpreter survives
    [_format_scalar] followed by [_parse_scalar], in both positions. *)
Lemma int_scalar_ok (z : Z) :
  within_digit_limit z ->
  entry_scalar_ok (SInt z) = true /\ item_scalar_ok (SInt z) = true.
Proof.
  intros Hlimit.
  destruct (str_of_int_shape z) as (neg & d & E & Hd & Hz & Hnorm).
  assert (Hlen : Z.of_nat (length (chars (NilZero.string_of_uint d))) <= max_str_digits).
  { apply uint_digits_limit; [done|done|]. unfold within_digit_limit in Hlimit.
    pose proof (N2Z.is_nonneg (Pos.of_uint d)) as Hnn. unfold Z.of_uint in *.
    rewrite Hz in Hlimit. destruct neg; lia. }
  pose proof (uint_digits d) as Hds. pose proof (uint_nonempty d) as Hne.
  set (ds := chars (NilZero.string_of_uint d)) in *.
  set (fmt := chars (str_of_int z)) in *.
  assert (Hall : Forall sign_or_digit fmt).
  { rewrite E. apply Forall_app. split.
    - destruct neg; [constructor; [now right|constructor]|constructor].
    - eapply Forall_impl; [exact Hds|]. intros c Hc. now left. }
  assert (Hfn : fmt <> []).
  { rewrite E. destruct neg; [done|]. exact Hne. }
  assert (Hnb : no_linebreak fmt).
  { eapply Forall_impl; [exact Hall|]. intros c Hc. now apply sign_or_digit_facts. }
  assert (Hstrip : strip fmt = fmt).
  { apply strip_by_nop.
    - intros c r Ec. rewrite Ec in Hall. apply Forall_inv in Hall.
      now apply sign_or_digit_facts.
    - intros c r Ec. rewrite Ec in Hall. apply Forall_app in Hall as [_ Hall].
      apply Forall_inv in Hall. now apply sign_or_digit_facts. }
  assert (Hsolid : solid fmt = true) by now apply solid_intro.
  assert (Hlow : lower fmt = fmt).
  { unfold lower. rewrite <- (map_id fmt) at 2. apply map_ext_in.
    intros c Hc%list_elem_of_In. rewrite Forall_forall in Hall.
    now apply sign_or_digit_facts, Hall. }
  assert (Hsign : split_sign fmt = (neg, ds)).
  { rewrite E. destruct neg; [reflexivity|]. cbn [app].
    destruct ds as [|c r]; [done|]. apply Forall_inv in Hds.
    destruct (digit_facts c Hds) as (_ & _ & _ & _ & H1 & H2 & _).
    cbn [split_sign]. now rewrite H1, H2. }
  assert (Hint : int_of_text fmt = Some z).
  { unfold int_of_text. rewrite Hstrip, Hsign.
    unfold is_digitpart. rewrite digitpart_digits by (auto; now left).
    rewrite drop_underscores_digits by done.
    rewrite (proj2 (Z.leb_le _ _) Hlen). unfold ds. rewrite text_chars.
    rewrite NilZero.usu by done. now rewrite Hz. }
  assert (Hparse : _parse_scalar fmt = SInt z).
  { unfold _parse_scalar. destruct fmt as [|c r] eqn:Ef; [done|]. rewrite Hlow.
    apply Forall_inv in Hall as Hc.
    destruct (sign_or_digit_facts c Hc) as (_ & _ & _ & _ & _ & Hn & Ht & Hf & _).
    change (chars "null") with ("n"%char :: chars "ull").
    change (chars "true") with ("t"%char :: chars "rue").
    change (chars "false") with ("f"%char :: chars "alse").
    rewrite !head_differs by done.
    rewrite (has_char_forall "." _ sign_or_digit Hall)
      by (intros; now apply sign_or_digit_facts).
    now rewrite Hint. }
  assert (Hcolon : has_char ":" fmt = false).
  { apply (has_char_forall ":" _ sign_or_digit Hall). intros. now apply sign_or_digit_facts. }
  assert (Hbar : list_eqb fmt (chars "|") = false /\ list_eqb fmt (chars ">") = false).
  { destruct fmt as [|c r]; [done|]. apply Forall_inv in Hall.
    destruct (sign_or_digit_facts c Hall) as (_&_&_&_&_&_&_&_&H1&H2).
    split; now apply head_differs. }
  unfold entry_scalar_ok, item_scalar_ok, scalar_round_trips.
  change (_format_scalar (SInt z)) with fmt.
  rewrite Hsolid, Hparse, Hcolon, (proj1 Hbar), (proj2 Hbar).
  now rewrite bool_decide_eq_true_2.
Qed.


(** [_parse_scalar] gives an [int] only where [int] accepts the text. *)
Lemma parse_scalar_int (v : list ascii) (z : Z) :
  _parse_scalar v = SInt z -> int_of_text v = Some z.
Proof.
  unfold _parse_scalar. destruct v as [|c r]; [done|].
  repeat match goal with
         | |- context [if ?b then _ else _] => destruct b
         end; try done.
  all: destruct (int_of_text (c :: r)) as [z'|]; [now intros [= ->]|].
  all: repeat match goal with
         | |- context [if ?b then _ else _] => destruct b
         end; done.
Qed.

(** An [int] beyond the digit limit is outside the round trip: [int] refuses
    its decimal text, which [_parse_scalar] then returns as a string.  (In
    the interpreter [str] refuses the number before that.) *)
Lemma int_beyond_limit (z : Z) :
  ~ within_digit_limit z ->
  int_of_text (chars (str_of_int z)) = None /\ scalar_round_trips (SInt z) = false.
Proof.
  intros Hz.
  assert (Hint : int_of_text (chars (str_of_int z)) = None).
  { destruct (str_of_int_shape z) as (neg & d & E & Hd & Ez & Hnorm).
    pose proof (uint_digits d) as Hds. pose proof (uint_nonempty d) as Hne.
    set (ds := chars (NilZero.string_of_uint d)) in *.
    set (fmt := chars (str_of_int z)) in *.
    assert (Hall : Forall sign_or_digit fmt).
    { rewrite E. apply Forall_app. split.
      - destruct neg; [constructor; [now right|constructor]|constructor].
      - eapply Forall_impl; [exact Hds|]. intros c Hc. now left. }
    assert (Hstrip : strip fmt = fmt).
    { apply strip_by_nop.
      - intros c r Ec. rewrite Ec in Hall. apply Forall_inv in Hall.
        now apply sign_or_digit_facts.
      - intros c r Ec. rewrite Ec in Hall. apply Forall_app in Hall as [_ Hall].
        apply Forall_inv in Hall. now apply sign_or_digit_facts. }
    assert (Hsign : split_sign fmt = (neg, ds)).
    { rewrite E. destruct neg; [reflexivity|]. cbn [app].
      destruct ds as [|c r]; [done|]. apply Forall_inv in Hds.
      destruct (digit_facts c Hds) as (_ & _ & _ & _ & H1 & H2 & _).
      cbn [split_sign]. now rewrite H1, H2. }
    unfold int_of_text. rewrite Hstrip, Hsign.
    destruct (is_digitpart ds); [|done].
    rewrite drop_underscores_digits by done.
    destruct (Z.leb_spec (Z.of_nat (length ds)) max_str_digits) as [Hlen|]; [|done].
    exfalso. apply Hz. unfold within_digit_limit.
    apply (uint_digits_limit d max_str_digits Hnorm) in Hlen; [|done].
    pose proof (N2Z.is_nonneg (Pos.of_uint d)) as Hnn. unfold Z.of_uint in *.
    rewrite Ez. destruct neg; lia. }
  split; [exact Hint|].
  unfold scalar_round_trips. apply andb_false_iff. right.
  apply bool_decide_eq_false_2. intros Hp%parse_scalar_int.
  change (_format_scalar (SInt z)) with (chars (str_of_int z)) in Hp. congruence.
Qed.

Lemma escape_plain (t : list ascii) :
  BS ∉ t -> DQ ∉ t -> escape t = t.
Proof.
  intros Hb Hd. rewrite escape_flat_map.
  induction t as [|c t IH]; [done|].
  apply not_elem_of_cons in Hb as [Hb1 Hb2]. apply not_elem_of_cons in Hd as [Hd1 Hd2].
  cbn [flat_map]. rewrite IH by done. unfold escape_char.
  rewrite (proj2 (Ascii.eqb_neq c BS)), (proj2 (Ascii.eqb_neq c DQ)) by congruence.
  done.
Qed.

Lemma not_float_literal (c : ascii) (r : list ascii) :
  strip (c :: r) = c :: r ->
  starts_like_number (c :: r) = false ->
  has_char "." (c :: r) = true ->
  is_float_literal (c :: r) = false.
Proof.
  intros Hs Hn Hdot. unfold is_float_literal. rewrite Hs.
  cbn [starts_like_number] in Hn.
  apply orb_false_elim in Hn as [[[[H1 H2]%orb_false_elim H3]%orb_false_elim H4]%orb_false_elim H5].
  cbn [split_sign]. rewrite H3, H2. cbn [snd].
  assert (Hl : has_char "." (lower (c :: r)) = true).
  { apply has_char_elem in Hdot. apply has_char_elem. unfold lower.
    apply list_elem_of_fmap. exists "."%char. done. }
  assert (Hk : forall w, has_char "." w = false -> list_eqb (lower (c :: r)) w = false).
  { intros w Hw. apply list_eqb_false. intros E. rewrite E in Hl. congruence. }
  rewrite !Hk by reflexivity. cbn [orb].
  unfold is_floatnumber. cbn [span]. rewrite H1, H5. cbn [orb].
  rewrite Ascii.eqb_sym in H4. destruct c as [[] [] [] [] [] [] [] []]; try done.
Qed.

Lemma not_int_text (c : ascii) (r : list ascii) :
  strip (c :: r) = c :: r ->
  starts_like_number (c :: r) = false ->
  int_of_text (c :: r) = None.
Proof.
  intros Hs Hn. unfold int_of_text. rewrite Hs.
  cbn [starts_like_number] in Hn.
  apply orb_false_elim in Hn as [[[[H1 H2]%orb_false_elim H3]%orb_false_elim H4]%orb_false_elim H5].
  cbn [split_sign]. rewrite H3, H2.
  unfold is_digitpart. cbn [digitpart_from]. now rewrite H1, H5.
Qed.

(** [_parse_scalar] on a text that is no keyword, does not start like a
    numeral and is not wrapped in quotes. *)
Lemma parse_scalar_text (t : list ascii) :
  t <> [] -> strip t = t -> is_keyword t = false -> starts_like_number t = false ->
  startswith t (chars "'") = false -> startswith t [DQ] = false ->
  _parse_scalar t = SStr (text t).
Proof.
  intros Hne Hs Hk Hn Hq Hd. destruct t as [|c r]; [done|].
  unfold _parse_scalar. unfold is_keyword in Hk.
  apply orb_false_elim in Hk as [[-> ->]%orb_false_elim ->].
  destruct (has_char "." (c :: r)) eqn:Hdot.
  - rewrite not_float_literal by done. now rewrite Hq, Hd.
  - rewrite not_int_text by done. now rewrite Hq, Hd.
Qed.

(** [_parse_scalar] on a text in double quotes. *)
Lemma parse_scalar_quoted (t : list ascii) :
  _parse_scalar (DQ :: t ++ [DQ]) = SStr (text t).
Proof.
  assert (Hs : strip (DQ :: t ++ [DQ]) = DQ :: t ++ [DQ]).
  { apply strip_by_nop.
    - now intros c r [= <- _].
    - intros c r E. change (DQ :: t ++ [DQ]) with ((DQ :: t) ++ [DQ]) in E.
      now apply app_inj_tail in E as [_ <-]. }
  unfold _parse_scalar.
  change (lower (DQ :: t ++ [DQ])) with (DQ :: lower (t ++ [DQ])).
  change (chars "null") with ("n"%char :: chars "ull").
  change (chars "true") with ("t"%char :: chars "rue").
  change (chars "false") with ("f"%char :: chars "alse").
  rewrite !head_differs by reflexivity.
  assert (Hnum :
    (if has_char "." (DQ :: t ++ [DQ])
     then if is_float_literal (DQ :: t ++ [DQ])
          then Some (SFloat (float_of_literal (text (DQ :: t ++ [DQ])))) else None
     else match int_of_text (DQ :: t ++ [DQ]) with
          | Some z => Some (SInt z)
          | None => None
          end) = None).
  { destruct (has_char "." (DQ :: t ++ [DQ])) eqn:Hdot.
    - now rewrite not_float_literal.
    - now rewrite not_int_text. }
  rewrite Hnum.
  assert (He : endswith (DQ :: t ++ [DQ]) [DQ] = true).
  { unfold endswith. change (DQ :: t ++ [DQ]) with ((DQ :: t) ++ [DQ]).
    rewrite rev_app_distr. cbn [rev app startswith].
    now rewrite Ascii.eqb_refl, startswith_nil. }
  rewrite He. cbn [startswith]. rewrite Ascii.eqb_refl, startswith_nil.
  rewrite orb_true_r. unfold drop_ends. cbn [tl]. now rewrite removelast_last.
Qed.

Lemma must_quote_elem (t : list ascii) (c : ascii) :
  ~ must_quote t -> c ∈ quoting_chars -> c ∉ t.
Proof.
  intros H Hc Hin. apply H. left. apply Exists_exists. eauto.
Qed.

Lemma must_quote_strip (t : list ascii) : ~ must_quote t -> strip t = t.
Proof.
  intros H. destruct (decide (strip t = t)) as [|Hne]; [done|].
  exfalso. apply H. now right.
Qed.

(** A non-empty string that is emitted in double quotes and holds no
    backslash, no double quote and no line boundary survives the round
    trip as the value of an entry; as a list item it does when it holds no
    colon. *)
Lemma quoted_string_ok (s : string) :
  s <> "" -> must_quote (chars s) -> no_linebreak (chars s) ->
  BS ∉ chars s -> DQ ∉ chars s ->
  entry_scalar_ok (SStr s) = true
  /\ (":"%char ∉ chars s -> item_scalar_ok (SStr s) = true).
Proof.
  intros Hne Hq Hnb Hb Hd.
  assert (Hfmt : _format_scalar (SStr s) = DQ :: chars s ++ [DQ]).
  { rewrite format_scalar_str, bool_decide_eq_false_2, bool_decide_eq_true_2 by done.
    unfold double_quoted. now rewrite <- escape_flat_map, escape_plain. }
  assert (Hsolid : solid (DQ :: chars s ++ [DQ]) = true).
  { apply solid_intro; [done| |].
    - apply strip_by_nop.
      + now intros c r [= <- _].
      + intros c r E. change (DQ :: chars s ++ [DQ]) with ((DQ :: chars s) ++ [DQ]) in E.
        now apply app_inj_tail in E as [_ <-].
    - constructor; [done|]. apply Forall_app. split; [done|]. now constructor. }
  assert (Hm : is_block_marker (SStr s) = false).
  { cbn [is_block_marker]. destruct (String.eqb_spec s "__BLOCK__") as [->|]; [|done].
    assert (Hno : bool_decide (must_quote (chars "__BLOCK__")) = false) by reflexivity.
    now apply bool_decide_eq_false in Hno. }
  unfold entry_scalar_ok, item_scalar_ok, scalar_round_trips.
  rewrite Hfmt, Hsolid, parse_scalar_quoted, text_chars, Hm.
  rewrite bool_decide_eq_true_2 by done.
  change (chars "|") with ["|"%char]. change (chars ">") with [">"%char].
  rewrite !head_differs by reflexivity.
  split; [done|]. intros Hc. cbn [andb negb has_char existsb].
  change (existsb (Ascii.eqb ":") (chars s ++ [DQ])) with (has_char ":" (chars s ++ [DQ])).
  rewrite (proj2 (has_char_false ":" (chars s ++ [DQ]))); [done|].
  intros [H|H%list_elem_of_singleton]%elem_of_app; done.
Qed.

(** A non-empty string that is emitted as it is, holds no line boundary,
    is no keyword and does not start like a numeral survives the round trip
    as a list item; as the value of an entry it does unless it is the
    parser's block marker. *)
Lemma plain_string_ok (s : string) :
  s <> "" -> ~ must_quote (chars s) -> no_linebreak (chars s) ->
  is_keyword (chars s) = false -> starts_like_number (chars s) = false ->
  item_scalar_ok (SStr s) = true
  /\ (s <> "__BLOCK__" -> s <> "|" -> s <> ">" -> entry_scalar_ok (SStr s) = true).
Proof.
  intros Hne Hq Hnb Hk Hn.
  assert (Hc : chars s <> []) by (now destruct s).
  assert (Hfmt : _format_scalar (SStr s) = chars s).
  { now rewrite format_scalar_str, !bool_decide_eq_false_2. }
  pose proof (must_quote_strip _ Hq) as Hs.
  assert (Hsolid : solid (chars s) = true) by now apply solid_intro.
  assert (Hstart : forall c, c ∈ quoting_chars -> startswith (chars s) [c] = false).
  { intros c Hin. pose proof (must_quote_elem _ c Hq Hin) as Hni.
    destruct (chars s) as [|d r]; [done|]. cbn [startswith].
    rewrite startswith_nil, andb_true_r. apply Ascii.eqb_neq. intros ->.
    apply Hni. now left. }
  assert (Hparse : _parse_scalar (chars s) = SStr s).
  { rewrite parse_scalar_text, text_chars; try done.
    - apply (Hstart "'"%char). unfold quoting_chars. set_solver.
    - apply (Hstart DQ). unfold quoting_chars. set_solver. }
  assert (Hcolon : has_char ":" (chars s) = false).
  { apply has_char_false. apply must_quote_elem; [done|]. unfold quoting_chars. set_solver. }
  unfold entry_scalar_ok, item_scalar_ok, scalar_round_trips.
  rewrite Hfmt, Hsolid, Hparse, Hcolon. rewrite bool_decide_eq_true_2 by done.
  split; [done|]. intros Hbm Hbar Hgt.
  cbn [is_block_marker]. rewrite (proj2 (String.eqb_neq s "__BLOCK__")) by done.
  rewrite !(proj2 (list_eqb_false _ _)); [done| |].
  - intros E%chars_inj. done.
  - intros E%chars_inj. done.
Qed.

End Cover.

(** * Fuel *)

Section Fuel.
Context {F : PyFloatOps}.

Lemma peek_length (lines : list _Line) : (length (_peek lines) <= length lines)%nat.
Proof.
  induction lines as [|l lines IH]; simpl; [lia|].
  destruct (is_blank_or_comment l); simpl; lia.
Qed.

Lemma within_mono {A} (n m : nat) (r : result (A * list _Line)) :
  (n <= m)%nat -> within n r -> within m r.
Proof. destruct r as [[a rest]|e]; simpl; [lia|done]. Qed.

Lemma within_bind {A B} (n m : nat) (r : result (A * list _Line))
  (k : A * list _Line -> result (B * list _Line)) :
  within n r ->
  (forall a rest, (length rest <= n)%nat -> within m (k (a, rest))) ->
  within m (rbind r k).
Proof. destruct r as [[a rest]|e]; simpl; [auto|done]. Qed.

Lemma within_key_value {B} (n : nat) (t : list ascii)
  (k : string * option scalar -> result (B * list _Line)) :
  (forall kv, within n (k kv)) -> within n (rbind (_parse_key_value t) k).
Proof.
  intros H. unfold _parse_key_value.
  destruct (split_once ":" t) as [[key rem]|]; [|done].
  destruct (strip rem); [apply H|]. destruct (_ || _); [done|apply H].
Qed.

Lemma fuel_suffices (fuel : nat) :
  (forall ei coll items mapping lines,
      (2 * length lines + 2 <= fuel)%nat ->
      within (length lines) (block_loop fuel ei coll items mapping lines))
  /\ (forall t pi lines,
      (2 * length lines + 3 <= fuel)%nat ->
      within (length lines) (_parse_list_item fuel t pi lines))
  /\ (forall cur ind lines,
      (2 * length lines + 1 <= fuel)%nat ->
      within (length lines) (_collect_additional_mapping_entries fuel cur ind lines)).
Proof.
  induction fuel as [|fuel (IHb & IHi & IHc)].
  { repeat split; intros; lia. }
  split; [|split].
  - intros ei coll items mapping lines Hf. cbn [block_loop].
    pose proof (peek_length lines) as Hp.
    destruct (_peek lines) as [|line rest] eqn:Ep.
    { destruct coll; simpl; lia. }
    cbn [length] in Hp.
    destruct (line_indent line <? ei)%nat; [destruct coll; simpl; lia|].
    destruct (ei <? line_indent line)%nat; [done|].
    destruct (is_item_line _).
    + destruct coll; try done.
      * apply (within_bind (length rest)); [apply IHi; lia|].
        intros v rest' Hr. eapply within_mono; [|apply IHb; lia]. lia.
      * apply (within_bind (length rest)); [apply IHi; lia|].
        intros v rest' Hr. eapply within_mono; [|apply IHb; lia]. lia.
    + assert (Hkv : within (length lines)
        (let! (key, parsed) := _parse_key_value (strip (line_text line)) in
         let! (v, rest') :=
           match parsed with
           | None => block_loop fuel (ei + indent_size) CNone [] [] rest
           | Some s =>
               if is_block_marker s
               then block_loop fuel (ei + indent_size) CNone [] [] rest
               else Ok (VScalar s, rest)
           end in
         block_loop fuel ei CDict items (odict_set key v mapping) rest')).
      { apply within_key_value. intros [key parsed].
        apply (within_bind (length rest)).
        - destruct parsed as [s|]; [destruct (is_block_marker s)|].
          + apply IHb; lia.
          + simpl. lia.
          + apply IHb; lia.
        - intros v rest' Hr. eapply within_mono; [|apply IHb; lia]. lia. }
      destruct coll; [exact Hkv|done|exact Hkv].
  - intros t pi lines Hf. cbn [_parse_list_item].
    destruct t as [|c r]; [apply IHb; lia|].
    destruct (endswith _ _).
    { apply (within_bind (length lines)); [apply IHb; lia|].
      intros v rest Hr. simpl. lia. }
    destruct (split_once ":" (c :: r)) as [[key rem]|].
    + apply (within_bind (length lines)).
      * destruct (strip rem); [apply IHb; lia|simpl; lia].
      * intros v rest Hr. eapply within_mono; [|apply IHc; lia]. lia.
    + apply IHc. lia.
  - intros cur ind lines Hf. cbn [_collect_additional_mapping_entries].
    pose proof (peek_length lines) as Hp.
    destruct cur as [s|l|mapping].
    + destruct (_peek lines) as [|line rest]; [simpl; lia|].
      destruct (_ && _); [done|simpl; lia].
    + destruct (_peek lines) as [|line rest]; [simpl; lia|].
      destruct (_ && _); [done|simpl; lia].
    + destruct (_peek lines) as [|line rest] eqn:Ep; [simpl; lia|].
      cbn [length] in Hp.
      destruct (line_indent line <? ind)%nat; [simpl; lia|].
      destruct (ind <? line_indent line)%nat; [done|].
      destruct (startswith _ _); [simpl; lia|].
      apply within_key_value. intros [key parsed].
      apply (within_bind (length rest)).
      * destruct parsed as [s|]; [destruct (is_block_marker s)|].
        -- apply IHb; lia.
        -- simpl. lia.
        -- apply IHb; lia.
      * intros v rest' Hr. eapply within_mono; [|apply IHc; lia]. lia.
Qed.

(** The fuel that [parse] supplies is enough: [load] returns a document or
    raises an exception of the parser. *)
Lemma load_never_out_of_fuel (s : string) : load s <> Raise OutOfFuel.
Proof.
  unfold load, simple_yaml.parse, _parse_block.
  set (lines := map make_line (splitlines (chars s))).
  destruct (fuel_suffices (fuel_for lines)) as (Hb & _ & _).
  specialize (Hb 0%nat CNone [] [] lines ltac:(unfold fuel_for; lia)).
  destruct (block_loop _ _ _ _ _ _) as [[v rest]|e]; simpl in *.
  - now destruct (_skip_blank_lines rest).
  - congruence.
Qed.

End Fuel.

(** * The parser: what it returns and what it consumes *)

Section ParserFacts.
Context {F : PyFloatOps}.

(** Every block is a list or a mapping. *)
Lemma block_loop_container (fuel : nat) :
  forall e coll items mapping lines v rest,
    block_loop fuel e coll items mapping lines = Ok (v, rest) ->
    is_container v = true.
Proof.
  induction fuel as [|fuel IH]; intros e coll items mapping lines v rest H; [discriminate|].
  cbn [block_loop] in H.
  destruct (_peek lines) as [|line rest0].
  { destruct coll; injection H as <- _; reflexivity. }
  destruct (line_indent line <? e)%nat.
  { destruct coll; injection H as <- _; reflexivity. }
  destruct (e <? line_indent line)%nat; [discriminate|].
  destruct (is_item_line _).
  - destruct coll; try discriminate;
      (destruct (_parse_list_item _ _ _ _) as [[v0 r0]|]; [|discriminate]);
      cbn [rbind] in H; eapply IH; exact H.
  - destruct coll; try discriminate;
      (destruct (_parse_key_value _) as [[k p]|]; [|discriminate]);
      cbn [rbind] in H;
      match type of H with
      | rbind ?r _ = _ => destruct r as [[v0 r0]|]; [|discriminate]
      end; cbn [rbind] in H; eapply IH; exact H.
Qed.

(** The block at indentation 0 ends only at the end of the input. *)
Lemma block_loop_top_consumes (fuel : nat) :
  forall coll items mapping lines v rest,
    block_loop fuel 0 coll items mapping lines = Ok (v, rest) -> rest = [].
Proof.
  induction fuel as [|fuel IH]; intros coll items mapping lines v rest H; [discriminate|].
  cbn [block_loop] in H.
  destruct (_peek lines) as [|line rest0].
  { destruct coll; injection H as _ <-; reflexivity. }
  change (line_indent line <? 0)%nat with false in H.
  destruct (0 <? line_indent line)%nat; [discriminate|].
  destruct (is_item_line _).
  - destruct coll; try discriminate;
      (destruct (_parse_list_item _ _ _ _) as [[v0 r0]|]; [|discriminate]);
      cbn [rbind] in H; eapply IH; exact H.
  - destruct coll; try discriminate;
      (destruct (_parse_key_value _) as [[k p]|]; [|discriminate]);
      cbn [rbind] in H;
      match type of H with
      | rbind ?r _ = _ => destruct r as [[v0 r0]|]; [|discriminate]
      end; cbn [rbind] in H; eapply IH; exact H.
Qed.

Lemma raises_only_bind {A B} (errors : list exn) (r : result A) (k : A -> result B) :
  raises_only errors r -> (forall a, raises_only errors (k a)) ->
  raises_only errors (rbind r k).
Proof. destruct r; cbn; auto. Qed.

Lemma raises_only_key_value (t : list ascii) :
  raises_only block_errors (_parse_key_value t).
Proof.
  unfold _parse_key_value. destruct (split_once _ _) as [[k r]|]; cbn.
  - destruct (strip r); cbn; [exact I|].
    destruct (_ || _); cbn; [|exact I]. unfold block_errors. set_solver.
  - unfold block_errors. set_solver.
Qed.

(** The exceptions of the three mutually recursive methods. *)
Lemma block_raises (fuel : nat) :
  (forall e coll items mapping lines,
      raises_only block_errors (block_loop fuel e coll items mapping lines))
  /\ (forall t p lines, raises_only block_errors (_parse_list_item fuel t p lines))
  /\ (forall cur i lines,
        raises_only block_errors (_collect_additional_mapping_entries fuel cur i lines)).
Proof.
  assert (Hin : forall e, e ∈ block_errors -> forall A, raises_only block_errors (@Raise A e))
    by (intros e He A; exact He).
  induction fuel as [|fuel (IHb & IHi & IHc)].
  { repeat split; intros; cbn; unfold block_errors; set_solver. }
  assert (Hval : forall (parsed : option scalar) e rest,
            raises_only block_errors
              (match parsed with
               | None => block_loop fuel e CNone [] [] rest
               | Some s => if is_block_marker s then block_loop fuel e CNone [] [] rest
                           else Ok (VScalar s, rest)
               end)).
  { intros [s|] e rest; [destruct (is_block_marker s)|]; try apply IHb. exact I. }
  repeat split.
  - intros e coll items mapping lines. cbn [block_loop].
    destruct (_peek lines) as [|line rest]; [destruct coll; exact I|].
    destruct (_ <? _)%nat; [destruct coll; exact I|].
    destruct (_ <? _)%nat; [apply Hin; unfold block_errors; set_solver|].
    destruct (is_item_line _).
    + destruct coll; try (apply Hin; unfold block_errors; set_solver);
        (apply raises_only_bind; [apply IHi|intros [v r]; apply IHb]).
    + destruct coll; try (apply Hin; unfold block_errors; set_solver);
        (apply raises_only_bind; [apply raises_only_key_value|intros [k p]];
         apply raises_only_bind; [apply Hval|intros [v r]; apply IHb]).
  - intros t p lines. cbn [_parse_list_item].
    destruct t as [|c t]; [apply IHb|].
    destruct (endswith _ _).
    { apply raises_only_bind; [apply IHb|intros [v r]; exact I]. }
    destruct (split_once _ _) as [[k r]|]; [|apply IHc].
    apply raises_only_bind; [|intros [v r']; apply IHc].
    destruct (strip r); [apply IHb|exact I].
  - intros cur i lines. cbn [_collect_additional_mapping_entries].
    destruct cur as [s|l|m].
    + destruct (_peek lines) as [|line rest]; [exact I|].
      destruct (_ && _); [apply Hin; unfold block_errors; set_solver|exact I].
    + destruct (_peek lines) as [|line rest]; [exact I|].
      destruct (_ && _); [apply Hin; unfold block_errors; set_solver|exact I].
    + destruct (_peek lines) as [|line rest]; [exact I|].
      destruct (_ <? _)%nat; [exact I|].
      destruct (_ <? _)%nat; [apply Hin; unfold block_errors; set_solver|].
      destruct (startswith _ _); [exact I|].
      apply raises_only_bind; [apply raises_only_key_value|intros [k p]].
      apply raises_only_bind; [apply Hval|intros [v r]; apply IHc].
Qed.

End ParserFacts.

(** * Fuel is only a bound; blank lines and comments *)

Section Comments.
Context {F : PyFloatOps}.

Lemma rbind_stable {A B} (r r' : result A) (k k' : A -> result B) :
  (r <> Raise OutOfFuel -> r' = r) ->
  (forall a, k a <> Raise OutOfFuel -> k' a = k a) ->
  rbind r k <> Raise OutOfFuel -> rbind r' k' = rbind r k.
Proof.
  intros Hr Hk H. destruct r as [a|e]; cbn in *.
  - rewrite Hr by discriminate. cbn. now apply Hk.
  - rewrite Hr; [reflexivity|]. intros E. apply H. now injection E as ->.
Qed.

(** A run that did not run out of fuel gives the same result with more. *)
Lemma fuel_mono (fuel : nat) :
  (forall fuel' e coll items mapping lines,
      (fuel <= fuel')%nat ->
      block_loop fuel e coll items mapping lines <> Raise OutOfFuel ->
      block_loop fuel' e coll items mapping lines
      = block_loop fuel e coll items mapping lines)
  /\ (forall fuel' t p lines,
      (fuel <= fuel')%nat ->
      _parse_list_item fuel t p lines <> Raise OutOfFuel ->
      _parse_list_item fuel' t p lines = _parse_list_item fuel t p lines)
  /\ (forall fuel' cur i lines,
      (fuel <= fuel')%nat ->
      _collect_additional_mapping_entries fuel cur i lines <> Raise OutOfFuel ->
      _collect_additional_mapping_entries fuel' cur i lines
      = _collect_additional_mapping_entries fuel cur i lines).
Proof.
  induction fuel as [|fuel (IHb & IHi & IHc)].
  { repeat split; intros; cbn in *; congruence. }
  assert (Hval : forall fuel' (parsed : option scalar) e rest,
            (fuel <= fuel')%nat ->
            let body f :=
              match parsed with
              | None => block_loop f e CNone [] [] rest
              | Some s => if is_block_marker s then block_loop f e CNone [] [] rest
                          else Ok (VScalar s, rest)
              end in
            body fuel <> Raise OutOfFuel -> body fuel' = body fuel).
  { intros fuel' [s|] e rest Hle; cbn; [destruct (is_block_marker s)|];
      intros H; try reflexivity; now apply IHb. }
  repeat split.
  - intros [|fuel'] e coll items mapping lines Hle H; [lia|].
    assert (Hle' : (fuel <= fuel')%nat) by lia.
    cbn [block_loop] in *.
    destruct (_peek lines) as [|line rest]; [reflexivity|].
    destruct (_ <? _)%nat; [reflexivity|].
    destruct (_ <? _)%nat; [reflexivity|].
    destruct (is_item_line _).
    + destruct coll; try reflexivity;
        (apply rbind_stable; [now apply IHi|intros [v r]; now apply IHb|exact H]).
    + destruct coll; try reflexivity;
        (apply rbind_stable; [reflexivity| |exact H]; intros [k p] H1;
         apply rbind_stable; [now apply Hval|intros [v r]; now apply IHb|exact H1]).
  - intros [|fuel'] t p lines Hle H; [lia|].
    assert (Hle' : (fuel <= fuel')%nat) by lia.
    cbn [_parse_list_item] in *.
    destruct t as [|c t]; [now apply IHb|].
    destruct (endswith _ _).
    { apply rbind_stable; [now apply IHb|reflexivity|exact H]. }
    destruct (split_once _ _) as [[k r]|]; [|now apply IHc].
    apply rbind_stable; [|intros [v r']; now apply IHc|exact H].
    destruct (strip r); [now apply IHb|reflexivity].
  - intros [|fuel'] cur i lines Hle H; [lia|].
    assert (Hle' : (fuel <= fuel')%nat) by lia.
    cbn [_collect_additional_mapping_entries] in *.
    destruct cur as [s|l|m]; try reflexivity.
    destruct (_peek lines) as [|line rest]; [reflexivity|].
    destruct (_ <? _)%nat; [reflexivity|].
    destruct (_ <? _)%nat; [reflexivity|].
    destruct (startswith _ _); [reflexivity|].
    apply rbind_stable; [reflexivity| |exact H]. intros [k p] H1.
    apply rbind_stable; [now apply Hval|intros [v r]; now apply IHc|exact H1].
Qed.

(** [_peek] on the content lines. *)
Lemma peek_content (lines : list _Line) :
  match _peek lines with
  | [] => content_lines lines = []
  | line :: rest =>
      is_blank_or_comment line = false
      /\ content_lines lines = line :: content_lines rest
  end.
Proof.
  induction lines as [|l lines IH]; [reflexivity|].
  cbn [_peek content_lines List.filter].
  destruct (is_blank_or_comment l) eqn:E; cbn [negb]; [exact IH|].
  split; [exact E|reflexivity].
Qed.

Lemma peek_of_content (lines : list _Line) :
  _peek (content_lines lines) = content_lines lines.
Proof.
  induction lines as [|l lines IH]; [reflexivity|].
  cbn [content_lines List.filter].
  destruct (is_blank_or_comment l) eqn:E; cbn [negb]; [exact IH|].
  cbn [_peek]. now rewrite E.
Qed.

Lemma content_of_peek (lines : list _Line) :
  content_lines (_peek lines) = content_lines lines.
Proof.
  induction lines as [|l lines IH]; [reflexivity|].
  cbn [_peek]. destruct (is_blank_or_comment l) eqn:E.
  - rewrite IH. cbn [content_lines List.filter]. now rewrite E.
  - reflexivity.
Qed.

Lemma rbind_map_rest {A B} (f : list _Line -> list _Line)
  (r : result (A * list _Line)) (k k' : A * list _Line -> result (B * list _Line)) :
  (forall a rest, k' (a, f rest) = map_rest f (k (a, rest))) ->
  rbind (map_rest f r) k' = map_rest f (rbind r k).
Proof. intros Hk. destruct r as [[a rest]|e]; cbn; [apply Hk|reflexivity]. Qed.

(** The three methods on the content lines: the same result, and of the
    lines that are left their content lines. *)
Lemma content_sim (fuel : nat) :
  (forall e coll items mapping lines,
      block_loop fuel e coll items mapping (content_lines lines)
      = map_rest content_lines (block_loop fuel e coll items mapping lines))
  /\ (forall t p lines,
      _parse_list_item fuel t p (content_lines lines)
      = map_rest content_lines (_parse_list_item fuel t p lines))
  /\ (forall cur i lines,
      _collect_additional_mapping_entries fuel cur i (content_lines lines)
      = map_rest content_lines (_collect_additional_mapping_entries fuel cur i lines)).
Proof.
  induction fuel as [|fuel (IHb & IHi & IHc)]; [repeat split; reflexivity|].
  assert (Hval : forall (parsed : option scalar) e rest,
            match parsed with
            | None => block_loop fuel e CNone [] [] (content_lines rest)
            | Some s => if is_block_marker s
                        then block_loop fuel e CNone [] [] (content_lines rest)
                        else Ok (VScalar s, content_lines rest)
            end
            = map_rest content_lines
                match parsed with
                | None => block_loop fuel e CNone [] [] rest
                | Some s => if is_block_marker s then block_loop fuel e CNone [] [] rest
                            else Ok (VScalar s, rest)
                end).
  { intros [s|] e rest; [destruct (is_block_marker s)|]; try apply IHb. reflexivity. }
  repeat split.
  - intros e coll items mapping lines. cbn [block_loop].
    rewrite peek_of_content. pose proof (peek_content lines) as Hp.
    destruct (_peek lines) as [|line rest].
    { rewrite Hp. destruct coll; reflexivity. }
    destruct Hp as [Hnb Hc]. rewrite Hc.
    destruct (_ <? _)%nat; [destruct coll; cbn [map_rest]; now rewrite Hc|].
    destruct (_ <? _)%nat; [reflexivity|].
    destruct (is_item_line _).
    + destruct coll; try reflexivity;
        (rewrite IHi; apply rbind_map_rest; intros v r; apply IHb).
    + destruct coll; try reflexivity;
        (destruct (_parse_key_value _) as [[k p]|]; [|reflexivity]; cbn [rbind];
         rewrite Hval; apply rbind_map_rest; intros v r; apply IHb).
  - intros t p lines. cbn [_parse_list_item].
    destruct t as [|c t]; [apply IHb|].
    destruct (endswith _ _).
    { rewrite IHb. apply rbind_map_rest. reflexivity. }
    destruct (split_once _ _) as [[k r]|]; [|apply IHc].
    destruct (strip r).
    + rewrite IHb. apply rbind_map_rest. intros v r'. apply IHc.
    + cbn [rbind]. apply IHc.
  - intros cur i lines. cbn [_collect_additional_mapping_entries].
    rewrite peek_of_content. pose proof (peek_content lines) as Hp.
    destruct cur as [s|l|m].
    + destruct (_peek lines) as [|line rest]; [cbn [map_rest]; now rewrite Hp|].
      destruct Hp as [Hnb Hc]. rewrite Hc.
      destruct (_ && _); cbn [map_rest]; now rewrite ?Hc.
    + destruct (_peek lines) as [|line rest]; [cbn [map_rest]; now rewrite Hp|].
      destruct Hp as [Hnb Hc]. rewrite Hc.
      destruct (_ && _); cbn [map_rest]; now rewrite ?Hc.
    + pose proof (content_of_peek lines) as Hcp.
      destruct (_peek lines) as [|line rest]; [cbn [map_rest]; now rewrite Hp|].
      destruct Hp as [Hnb Hc]. rewrite Hc.
      destruct (_ <? _)%nat; [cbn [map_rest]; now rewrite Hcp, Hc|].
      destruct (_ <? _)%nat; [reflexivity|].
      destruct (startswith _ _); [cbn [map_rest]; now rewrite Hcp, Hc|].
      destruct (_parse_key_value _) as [[k p]|]; [|reflexivity]. cbn [rbind].
      rewrite Hval. apply rbind_map_rest. intros v r. apply IHc.
Qed.

Lemma length_content (lines : list _Line) :
  (length (content_lines lines) <= length lines)%nat.
Proof.
  induction lines as [|l lines IH]; [reflexivity|].
  cbn [content_lines List.filter]. destruct (negb _); cbn [length]; fold (content_lines lines); lia.
Qed.

End Comments.

(** * Indentation of the accepted lines *)

Section Indentation.
Context {F : PyFloatOps}.

Lemma consumed_refl (lines : list _Line) : consumed_evenly lines lines.
Proof. exists []. now split. Qed.

Lemma consumed_trans (a b c : list _Line) :
  consumed_evenly a b -> consumed_evenly b c -> consumed_evenly a c.
Proof.
  intros (p & -> & Hp) (q & -> & Hq). exists (p ++ q).
  split; [now rewrite <- app_assoc|]. now rewrite forallb_app, Hp, Hq.
Qed.

Lemma consumed_peek (lines : list _Line) : consumed_evenly lines (_peek lines).
Proof.
  induction lines as [|l lines IH]; [apply consumed_refl|].
  cbn [_peek]. destruct (is_blank_or_comment l) eqn:E; [|apply consumed_refl].
  destruct IH as (p & Hp & Hf). exists (l :: p). split.
  - cbn [app]. now rewrite <- Hp.
  - cbn [forallb]. unfold evenly_indented at 1. now rewrite E, Hf.
Qed.

(** Past the line that [_peek] returned, when its indentation is the even
    one the block expects. *)
Lemma consumed_line (lines rest : list _Line) (line : _Line) (e : nat) :
  _peek lines = line :: rest -> Nat.even e = true ->
  (line_indent line <? e)%nat = false -> (e <? line_indent line)%nat = false ->
  consumed_evenly lines rest.
Proof.
  intros Hp He H1 H2. apply Nat.ltb_ge in H1, H2.
  assert (line_indent line = e) as Hi by lia.
  eapply consumed_trans; [apply consumed_peek|]. rewrite Hp.
  exists [line]. split; [reflexivity|]. cbn [forallb]. unfold evenly_indented.
  now rewrite Hi, He, orb_true_r.
Qed.

Lemma even_step (e : nat) : Nat.even e = true -> Nat.even (e + indent_size) = true.
Proof.
  intros He. unfold indent_size. rewrite Nat.even_add, He. reflexivity.
Qed.

(** What the three methods consume: lines that are blank, comments, or at
    the even indentation of the block they belong to. *)
Lemma consumes_evenly (fuel : nat) :
  (forall e coll items mapping lines v rest,
      Nat.even e = true ->
      block_loop fuel e coll items mapping lines = Ok (v, rest) ->
      consumed_evenly lines rest)
  /\ (forall t p lines v rest,
      Nat.even p = true ->
      _parse_list_item fuel t p lines = Ok (v, rest) ->
      consumed_evenly lines rest)
  /\ (forall cur i lines v rest,
      Nat.even i = true ->
      _collect_additional_mapping_entries fuel cur i lines = Ok (v, rest) ->
      consumed_evenly lines rest).
Proof.
  induction fuel as [|fuel (IHb & IHi & IHc)]; [repeat split; discriminate|].
  assert (Hval : forall (parsed : option scalar) e rest v rest',
            Nat.even e = true ->
            match parsed with
            | None => block_loop fuel (e + indent_size) CNone [] [] rest
            | Some s => if is_block_marker s
                        then block_loop fuel (e + indent_size) CNone [] [] rest
                        else Ok (VScalar s, rest)
            end = Ok (v, rest') ->
            consumed_evenly rest rest').
  { intros [s|] e rest v rest' He H; [destruct (is_block_marker s)|];
      try (eapply IHb; [apply even_step, He|exact H]).
    injection H as _ <-. apply consumed_refl. }
  repeat split.
  - intros e coll items mapping lines v rest He H. cbn [block_loop] in H.
    destruct (_peek lines) as [|line rest0] eqn:Hp.
    { assert (rest = []) as -> by (destruct coll; now injection H as _ <-).
      rewrite <- Hp. apply consumed_peek. }
    destruct (line_indent line <? e)%nat eqn:H1.
    { assert (rest = lines) as -> by (destruct coll; now injection H as _ <-).
      apply consumed_refl. }
    destruct (e <? line_indent line)%nat eqn:H2; [discriminate|].
    pose proof (consumed_line _ _ _ _ Hp He H1 H2) as Hline.
    destruct (is_item_line _).
    + destruct coll; try discriminate;
        (destruct (_parse_list_item _ _ _ _) as [[v0 r0]|] eqn:E1; [|discriminate]);
        cbn [rbind] in H;
        (eapply consumed_trans; [exact Hline|]);
        (eapply consumed_trans; [eapply IHi; [exact He|exact E1]|]);
        (eapply IHb; [exact He|exact H]).
    + destruct coll; try discriminate;
        (destruct (_parse_key_value _) as [[k p]|]; [|discriminate]);
        cbn [rbind] in H;
        match type of H with
        | rbind ?r _ = _ => destruct r as [[v0 r0]|] eqn:E1; [|discriminate]
        end; cbn [rbind] in H;
        (eapply consumed_trans; [exact Hline|]);
        (eapply consumed_trans; [eapply Hval; [exact He|exact E1]|]);
        (eapply IHb; [exact He|exact H]).
  - intros t p lines v rest He H. cbn [_parse_list_item] in H.
    destruct t as [|c t]; [eapply IHb; [apply even_step, He|exact H]|].
    destruct (endswith _ _).
    { destruct (block_loop _ _ _ _ _ _) as [[v0 r0]|] eqn:E1; [|discriminate].
      cbn [rbind] in H. injection H as _ <-.
      eapply IHb; [apply even_step, He|exact E1]. }
    destruct (split_once _ _) as [[k r]|];
      [|eapply IHc; [apply even_step, He|exact H]].
    destruct (strip r).
    + destruct (block_loop _ _ _ _ _ _) as [[v0 r0]|] eqn:E1; [|discriminate].
      cbn [rbind] in H.
      eapply consumed_trans; [eapply IHb; [apply even_step, He|exact E1]|].
      eapply IHc; [apply even_step, He|exact H].
    + cbn [rbind] in H. eapply IHc; [apply even_step, He|exact H].
  - intros cur i lines v rest He H. cbn [_collect_additional_mapping_entries] in H.
    destruct cur as [s|l|m].
    + destruct (_peek lines) as [|line rest0];
        [|destruct (_ && _); [discriminate|]];
        injection H as _ <-; apply consumed_refl.
    + destruct (_peek lines) as [|line rest0];
        [|destruct (_ && _); [discriminate|]];
        injection H as _ <-; apply consumed_refl.
    + destruct (_peek lines) as [|line rest0] eqn:Hp.
      { injection H as _ <-. rewrite <- Hp. apply consumed_peek. }
      destruct (line_indent line <? i)%nat eqn:H1.
      { injection H as _ <-. rewrite <- Hp. apply consumed_peek. }
      destruct (i <? line_indent line)%nat eqn:H2; [discriminate|].
      destruct (startswith _ _).
      { injection H as _ <-. rewrite <- Hp. apply consumed_peek. }
      pose proof (consumed_line _ _ _ _ Hp He H1 H2) as Hline.
      destruct (_parse_key_value _) as [[k p]|]; [|discriminate].
      cbn [rbind] in H.
      match type of H with
      | rbind ?r _ = _ => destruct r as [[v0 r0]|] eqn:E1; [|discriminate]
      end. cbn [rbind] in H.
      eapply consumed_trans; [exact Hline|].
      eapply consumed_trans; [eapply Hval; [exact He|exact E1]|].
      eapply IHc; [exact He|exact H].
Qed.

End Indentation.

(** * Flat mappings and compact list items *)

Section Flat.
Context {F : PyFloatOps}.

Lemma unlines_join (l : list ascii) (ls : list (list ascii)) :
  unlines (l :: ls) = join LF (l :: ls) ++ [LF].
Proof.
  revert l. induction ls as [|m ls IH]; intros l.
  - cbn. now rewrite app_nil_r.
  - change (unlines (l :: m :: ls)) with ((l ++ [LF]) ++ unlines (m :: ls)).
    rewrite IH. cbn [join]. now rewrite <- !app_assoc.
Qed.

Lemma splitlines_unlines (ls : list (list ascii)) :
  Forall no_linebreak ls -> splitlines (unlines ls) = ls.
Proof.
  destruct ls as [|l ls]; [reflexivity|]. intros H.
  rewrite unlines_join. now apply splitlines_join.
Qed.

Lemma load_unlines (ls : list (list ascii)) :
  Forall no_linebreak ls ->
  load (text (unlines ls)) = simple_yaml.parse (map make_line ls).
Proof. intros H. unfold load. now rewrite chars_text, splitlines_unlines. Qed.

Lemma flat_entry_ok_inv (kv : string * scalar) :
  flat_entry_ok kv = true ->
  key_ok kv.1 = true /\ entry_scalar_ok kv.2 = true
  /\ solid (_format_scalar kv.2) = true.
Proof.
  intros [Hk Hs]%andb_prop. repeat split; try done. now apply entry_scalar_solid.
Qed.

Lemma entry_text_no_break (i : nat) (kv : string * scalar) :
  flat_entry_ok kv = true -> no_linebreak (spaces i ++ entry_text kv).
Proof.
  intros (Hk & _ & Hs)%flat_entry_ok_inv.
  apply (closed_entry_line i kv.1 (" "%char :: _format_scalar kv.2)); eauto.
Qed.

(** The loop of [_parse_block] over the lines of a flat mapping. *)
Lemma read_flat (entries : list (string * scalar)) :
  forallb flat_entry_ok entries = true ->
  forall fuel i coll items mapping rest,
    coll <> CList -> ends_at i rest -> (length entries < fuel)%nat ->
    block_loop fuel i coll items mapping
      (map (fun kv => make_line (spaces i ++ entry_text kv)) entries ++ rest)
    = Ok (match entries with
          | [] => block_result coll items mapping
          | _ => VMap (set_all entries mapping)
          end, rest).
Proof.
  induction entries as [|[k s] entries IH]; intros Hok fuel i coll items mapping rest
    Hcoll Hrest Hfuel.
  - destruct fuel as [|fuel]; [cbn in Hfuel; lia|]. now apply block_loop_end.
  - cbn [forallb] in Hok. apply andb_prop in Hok as [Hkv Hok].
    destruct (flat_entry_ok_inv _ Hkv) as (Hk & Hs & _). cbn [fst snd] in Hk, Hs.
    destruct fuel as [|fuel]; [cbn in Hfuel; lia|]. cbn [length] in Hfuel.
    cbn [map app]. unfold entry_text at 1. cbn [fst snd].
    rewrite block_loop_entry_scalar by done.
    rewrite IH by (try done; lia).
    cbn [set_all fold_left fst snd]. destruct entries; reflexivity.
Qed.

Lemma endswith_app (a b : list ascii) (c : ascii) :
  b <> [] -> endswith (a ++ b) [c] = endswith b [c].
Proof.
  intros Hb. unfold endswith. rewrite rev_app_distr.
  destruct (rev b) as [|d r] eqn:E.
  - apply (f_equal (@rev ascii)) in E. rewrite rev_involutive in E. done.
  - change (rev [c]) with [c]. cbn [app startswith]. now rewrite !startswith_nil.
Qed.

(** One more entry of a compact item. *)
Lemma collect_entry (fuel j : nat) (mapping : list (string * value))
  (kv : string * scalar) (rest : list _Line) :
  flat_entry_ok kv = true ->
  _collect_additional_mapping_entries (S fuel) (VMap mapping) j
    (make_line (spaces j ++ entry_text kv) :: rest)
  = _collect_additional_mapping_entries fuel
      (VMap (odict_set kv.1 (VScalar kv.2) mapping)) j rest.
Proof.
  destruct kv as [k s]. intros (Hk & Hs & Hsolid)%flat_entry_ok_inv.
  cbn [fst snd] in *. unfold entry_scalar_ok in Hs.
  apply andb_prop in Hs as [[[Hrt Hm]%andb_prop Hbar]%andb_prop Hgt].
  unfold scalar_round_trips in Hrt. apply andb_prop in Hrt as [_ Hparse].
  apply bool_decide_eq_true in Hparse. apply negb_true_iff in Hm, Hbar, Hgt.
  unfold entry_text. cbn [fst snd]. set (fmt := _format_scalar s) in *.
  change (chars k ++ chars ": " ++ fmt) with (chars k ++ ":"%char :: " "%char :: fmt).
  destruct (entry_line j k (" "%char :: fmt) Hk) as (Hi & Hb & Ht); [eauto|].
  set (line := make_line _) in *.
  cbn [_collect_additional_mapping_entries _peek]. rewrite Hb, Hi, Nat.ltb_irrefl, Ht.
  pose proof (entry_not_item k (" "%char :: fmt) Hk) as Hni.
  unfold is_item_line in Hni. apply orb_false_elim in Hni as [_ ->].
  rewrite parse_key_value_entry by done. rewrite strip_blank_solid by done.
  rewrite Hbar, Hgt. cbn [orb].
  destruct (solid_inv _ Hsolid) as (_ & _ & (c & r & E & _) & _). rewrite E.
  rewrite <- E, Hparse. cbn [rbind]. now rewrite Hm.
Qed.

Lemma collect_end (fuel j : nat) (mapping : list (string * value)) (rest : list _Line) :
  ends_at j rest ->
  _collect_additional_mapping_entries (S fuel) (VMap mapping) j rest
  = Ok (VMap mapping, rest).
Proof.
  intros H. cbn [_collect_additional_mapping_entries].
  rewrite (ends_at_peek _ _ H). destruct rest as [|l rest]; [reflexivity|].
  destruct H as [_ H]. apply Nat.ltb_lt in H. now rewrite H.
Qed.

Lemma collect_entries (more : list (string * scalar)) :
  forallb flat_entry_ok more = true ->
  forall fuel j mapping rest,
    ends_at j rest -> (length more < fuel)%nat ->
    _collect_additional_mapping_entries fuel (VMap mapping) j
      (map (fun kv => make_line (spaces j ++ entry_text kv)) more ++ rest)
    = Ok (VMap (set_all more mapping), rest).
Proof.
  induction more as [|kv more IH]; intros Hok fuel j mapping rest Hrest Hfuel.
  - destruct fuel as [|fuel]; [cbn in Hfuel; lia|]. now apply collect_end.
  - cbn [forallb] in Hok. apply andb_prop in Hok as [Hkv Hok].
    destruct fuel as [|fuel]; [cbn in Hfuel; lia|]. cbn [length] in Hfuel.
    cbn [map app]. rewrite collect_entry by done.
    rewrite IH by (try done; lia). reflexivity.
Qed.

(** The text after the hyphen of a compact item fills the rest of the line. *)
Lemma entry_text_solid (kv : string * scalar) :
  flat_entry_ok kv = true -> solid (entry_text kv) = true.
Proof.
  intros Hkv. destruct (flat_entry_ok_inv _ Hkv) as (Hk & _ & Hs).
  pose proof (entry_body_cons kv.1 (" "%char :: _format_scalar kv.2) Hk)
    as (c & r & E & Hc & _).
  pose proof (entry_body_last kv.1 (" "%char :: _format_scalar kv.2) ltac:(eauto)) as Hl.
  pose proof (entry_text_no_break 0 kv Hkv) as Hn.
  change (spaces 0 ++ entry_text kv) with (entry_text kv) in Hn.
  change (entry_text kv) with (chars kv.1 ++ ":"%char :: " "%char :: _format_scalar kv.2) in *.
  apply solid_intro; [rewrite E; done| |exact Hn].
  apply strip_by_nop.
  - intros c' r' E'. rewrite E in E'. now injection E' as <- _.
  - intros c' r'. apply Hl.
Qed.

(** One iteration of [_parse_block] on a compact item. *)
Lemma block_loop_item_inline (fuel i : nat) (coll : collection) (items : list value)
  (mapping : list (string * value)) (first : string * scalar)
  (more : list (string * scalar)) (rest : list _Line) :
  coll <> CDict -> inline_item_ok (first :: more) = true ->
  ends_at (i + indent_size) rest -> (length more < fuel)%nat ->
  block_loop (S (S fuel)) i coll items mapping
    (make_line (spaces i ++ chars "- " ++ entry_text first)
       :: map (fun kv => make_line (spaces (i + indent_size) ++ entry_text kv)) more
       ++ rest)
  = block_loop (S fuel) i CList (items ++ [VMap (set_all (first :: more) [])]) mapping rest.
Proof.
  intros Hcoll Hok Hrest Hfuel. cbn [inline_item_ok] in Hok.
  apply andb_prop in Hok as [[Hkv Hcolon]%andb_prop Hmore].
  apply negb_true_iff in Hcolon.
  pose proof (entry_text_solid _ Hkv) as Hsolid.
  destruct first as [k s]. destruct (flat_entry_ok_inv _ Hkv) as (Hk & Hs & Hfs).
  cbn [fst snd] in *. unfold entry_scalar_ok in Hs.
  apply andb_prop in Hs as [[[Hrt Hm]%andb_prop Hbar]%andb_prop Hgt].
  unfold scalar_round_trips in Hrt. apply andb_prop in Hrt as [_ Hparse].
  apply bool_decide_eq_true in Hparse.
  set (body := entry_text (k, s)) in *.
  change (spaces i ++ chars "- " ++ body) with (spaces i ++ "-"%char :: " "%char :: body).
  destruct (item_line i (" "%char :: body)) as (Hi & Hb & Ht); [eauto|].
  set (line := make_line _) in *.
  cbn [block_loop _peek]. rewrite Hb, Hi, Nat.ltb_irrefl, Ht.
  rewrite is_item_line_dash. cbn [tl].
  destruct (solid_inv _ Hsolid) as (_ & _ & (c & r & E & Hc) & _).
  assert (Hl : lstrip (" "%char :: body) = body).
  { unfold lstrip. rewrite E.
    change (lstrip_by is_space (" "%char :: c :: r))
      with (if is_space " " then lstrip_by is_space (c :: r) else " "%char :: c :: r).
    rewrite space_is_space. now apply lstrip_by_nop. }
  rewrite Hl. cbn [_parse_list_item]. rewrite E. rewrite <- E.
  destruct (solid_inv _ Hfs) as (Hstrip & _ & (c' & r' & E' & _) & _).
  assert (Hends : endswith body (chars ":") = false).
  { unfold body, entry_text. cbn [fst snd]. rewrite app_assoc.
    change (chars ":") with [":"%char]. rewrite endswith_app by (rewrite E'; done).
    exact Hcolon. }
  rewrite Hends.
  destruct (key_ok_inv _ Hk) as (Hnc & Hks & _).
  assert (Hsplit : split_once ":" body = Some (chars k, " "%char :: _format_scalar s)).
  { now apply split_once_app. }
  rewrite Hsplit, Hks, text_chars.
  rewrite strip_blank_solid by done. rewrite E'. rewrite <- E', Hparse. cbn [rbind].
  rewrite collect_entries by (try done; lia). cbn [rbind].
  destruct coll; done.
Qed.

(** The loop of [_parse_block] over a list of compact items. *)
Lemma read_inline_items (l : list (list (string * scalar))) :
  forallb inline_item_ok l = true ->
  forall fuel coll acc mapping,
    coll <> CDict ->
    (length (flat_map inline_item_lines l) + 2 <= fuel)%nat ->
    block_loop fuel 0 coll acc mapping
      (map make_line (flat_map inline_item_lines l))
    = Ok (match l with
          | [] => block_result coll acc mapping
          | _ => VList (acc ++ map (fun item => VMap (set_all item [])) l)
          end, []).
Proof.
  induction l as [|item l IH]; intros Hok fuel coll acc mapping Hcoll Hfuel.
  - destruct fuel as [|fuel]; [cbn in Hfuel; lia|]. now apply block_loop_end.
  - cbn [forallb] in Hok. apply andb_prop in Hok as [Hitem Hok].
    destruct item as [|first more]; [discriminate|].
    cbn [flat_map inline_item_lines] in *. cbn [app length] in Hfuel.
    rewrite length_app, length_map in Hfuel.
    destruct fuel as [|[|fuel]]; try lia.
    rewrite map_app. cbn [map]. rewrite map_map.
    pose proof (block_loop_item_inline fuel 0 coll acc mapping first more
                  (map make_line (flat_map inline_item_lines l)) Hcoll Hitem) as Hstep.
    cbn [spaces repeat app Nat.add indent_size] in Hstep.
    change (chars "  ") with (spaces 2). cbn [app] in *.
    etransitivity; [apply Hstep; [|lia]|].
    2: { rewrite IH by (try done; lia).
         destruct l; cbn [map block_result]; [reflexivity|].
         now rewrite <- app_assoc. }
    destruct l as [|[|f2 m2] l]; [exact I| |].
    + cbn [forallb inline_item_ok] in Hok. discriminate.
    + cbn [flat_map inline_item_lines map app].
      cbn [forallb inline_item_ok] in Hok.
      apply andb_prop in Hok as [[[Hf2 _]%andb_prop _]%andb_prop _].
      pose proof (entry_text_solid _ Hf2) as Hsol.
      destruct (item_line 0 (" "%char :: entry_text f2)) as (Hi & Hb & _); [eauto|].
      cbn [spaces repeat app] in Hi, Hb. split; [exact Hb|].
      change (chars "- " ++ entry_text f2) with ("-"%char :: " "%char :: entry_text f2).
      rewrite Hi. unfold indent_size. lia.
Qed.

End Flat.

(** * Pages, files and entries *)

Section Pages.
Context {F : PyFloatOps}.
Variable client : StoplightClient.
Variable config : MigrationConfig.

(** A node without an entry leaves the state as it was. *)
Lemma create_page_entry_none (n : StoplightNode) (st st' : State) :
  _create_page_entry client config n st = (Ok None, st') -> st' = st.
Proof.
  unfold _create_page_entry, bind, lift, ret.
  destruct (get_markdown client n) as [[md|]|e]; [| |done].
  2:{ now intros [= <-]. }
  destruct (_ensure_unique_slug (slug_or_title n) st) as [[s|e] st1]; [|done].
  destruct (dry_run config); unfold with_world; destruct (relative_to _ _); done.
Qed.

Lemma section_entry_some (n : StoplightNode) (contents : list value) (st st' : State) :
  section_entry n contents st <> (Ok None, st').
Proof.
  unfold section_entry, bind, ret.
  destruct (_ensure_unique_slug (slug_or_title n) st) as [[s|e] st1]; done.
Qed.

Lemma convert_nodes_none_step (nodes : list StoplightNode) :
  Forall (fun n => forall st st',
            _convert_node client config n st = (Ok None, st') -> st' = st) nodes ->
  forall st st', convert_nodes client config nodes st = (Ok [], st') -> st' = st.
Proof.
  induction 1 as [|n nodes Hn _ IH]; intros st st'; cbn [convert_nodes].
  { unfold ret. now intros [= <-]. }
  unfold bind at 1.
  destruct (_convert_node client config n st) as [[o|e] st1] eqn:E1; [|done].
  unfold bind at 1.
  destruct (convert_nodes client config nodes st1) as [[nav|e] st2] eqn:E2; [|done].
  unfold ret. destruct o as [entry|]; [done|]. intros [= -> <-].
  apply Hn in E1. apply IH in E2. congruence.
Qed.

Lemma convert_node_none (n : StoplightNode) :
  forall st st', _convert_node client config n st = (Ok None, st') -> st' = st.
Proof.
  induction n as [ty t s i r kids IH] using StoplightNode_forall_ind.
  intros st st'. rewrite _convert_node_unfold.
  set (node := mkNode ty t s i r kids).
  pose proof (convert_nodes_none_step kids IH) as Hkids.
  destruct (is_markdown node); [apply create_page_entry_none|].
  destruct (is_section node).
  - unfold bind at 1. change (children node) with kids.
    destruct (convert_nodes client config kids st) as [[contents|e] st1] eqn:E; [|done].
    destruct contents as [|c contents].
    + unfold ret. intros [= <-]. now apply Hkids.
    + intros H. now apply section_entry_some in H.
  - change (children node) with kids. destruct kids as [|k kids'] eqn:Ek.
    + apply create_page_entry_none.
    + rewrite <- Ek in *. unfold bind at 1.
      destruct (convert_nodes client config kids st) as [[contents|e] st1] eqn:E; [|done].
      destruct contents as [|c contents].
      * intros H%create_page_entry_none. apply Hkids in E. congruence.
      * intros H. now apply section_entry_some in H.
Qed.

(** ** The files of a real run *)

Lemma wrote_pages_nil (w : World) : wrote_pages config w [] w.
Proof.
  repeat split; try done.
  - exists []. split; [now rewrite app_nil_r|constructor].
  - intros s Hs. now apply elem_of_nil in Hs.
Qed.

Lemma wrote_pages_app (w w1 w2 : World) (a b : list string) :
  wrote_pages config w a w1 -> wrote_pages config w1 b w2 ->
  wrote_pages config w (a ++ b) w2.
Proof.
  intros (Hd1 & Ho1 & (ops1 & Hl1 & Hf1) & Hk1 & Hs1)
         (Hd2 & Ho2 & (ops2 & Hl2 & Hf2) & Hk2 & Hs2).
  split; [congruence|]. split; [congruence|]. split; [|split].
  - exists (ops1 ++ ops2). split; [rewrite Hl2, Hl1; now rewrite app_assoc|].
    now apply Forall2_app.
  - intros p Hp. auto.
  - intros s [Hs|Hs]%elem_of_app; auto.
Qed.

Lemma page_slugs_contents (l : list value) :
  (fix each (l : list value) : list string :=
     match l with
     | [] => []
     | e :: l' => page_slugs e ++ each l'
     end) l = navigation_pages l.
Proof. induction l as [|e l IH]; simpl; [done|]. now rewrite IH. Qed.

Lemma page_slugs_section (t s : string) (contents : list value) :
  page_slugs (VMap [("section", VStr t); ("slug", VStr s); ("contents", VList contents)])
  = navigation_pages contents.
Proof. simpl. now rewrite page_slugs_contents, app_nil_r. Qed.

Lemma page_slugs_page (t s p : string) :
  page_slugs (VMap [("page", VStr t); ("slug", VStr s); ("path", VStr p)]) = [s].
Proof. reflexivity. Qed.

Lemma create_page_entry_wrote (n : StoplightNode) (st st' : State) (o : option value) :
  dry_run config = false ->
  _create_page_entry client config n st = (Ok o, st') ->
  wrote_pages config (world st) (entry_pages o) (world st').
Proof.
  intros Hdry. unfold _create_page_entry, bind, lift, ret. rewrite Hdry.
  destruct (get_markdown client n) as [[md|]|e]; [| |done].
  2:{ intros [= <- <-]. apply wrote_pages_nil. }
  unfold _ensure_unique_slug.
  destruct (ensure_unique (slug_registry st) (slug_or_title n)) as [s registry].
  unfold with_world. cbn [world slug_registry].
  destruct (relative_to _ _) as [rel|]; [|done].
  intros [= <- <-]. cbn [entry_pages world]. rewrite page_slugs_page.
  unfold write_text. repeat split; cbn [dirs stdout fs_log files]; try done.
  - eexists. split; [reflexivity|]. constructor; [|constructor].
    exists (title n), md. reflexivity.
  - intros p Hp. destruct (decide (p = path_join (pages_dir config) (s +:+ ".mdx"))) as [->|Hne].
    + rewrite lookup_insert_eq. eauto.
    + now rewrite lookup_insert_ne.
  - intros s' ->%list_elem_of_singleton. unfold page_file.
    rewrite lookup_insert_eq. eauto.
Qed.

Lemma section_entry_wrote (n : StoplightNode) (contents : list value)
  (st st' : State) (o : option value) :
  section_entry n contents st = (Ok o, st') ->
  world st' = world st /\ entry_pages o = navigation_pages contents.
Proof.
  unfold section_entry, bind, ret, _ensure_unique_slug.
  destruct (ensure_unique (slug_registry st) (slug_or_title n)) as [s registry].
  intros [= <- <-]. cbn [world entry_pages]. now rewrite page_slugs_section.
Qed.

Lemma convert_nodes_wrote_step (nodes : list StoplightNode) :
  Forall (fun n => forall st o st',
            _convert_node client config n st = (Ok o, st') ->
            wrote_pages config (world st) (entry_pages o) (world st')) nodes ->
  forall st nav st',
    convert_nodes client config nodes st = (Ok nav, st') ->
    wrote_pages config (world st) (navigation_pages nav) (world st').
Proof.
  induction 1 as [|n nodes Hn _ IH]; intros st nav st'; cbn [convert_nodes].
  { unfold ret. intros [= <- <-]. apply wrote_pages_nil. }
  unfold bind at 1.
  destruct (_convert_node client config n st) as [[o|e] st1] eqn:E1; [|done].
  unfold bind at 1.
  destruct (convert_nodes client config nodes st1) as [[nav1|e] st2] eqn:E2; [|done].
  unfold ret. intros [= <- <-]. apply Hn in E1. apply IH in E2.
  pose proof (wrote_pages_app _ _ _ _ _ E1 E2) as H.
  destruct o as [entry|]; exact H.
Qed.

Lemma convert_node_wrote (n : StoplightNode) :
  dry_run config = false ->
  forall st o st',
    _convert_node client config n st = (Ok o, st') ->
    wrote_pages config (world st) (entry_pages o) (world st').
Proof.
  intros Hdry.
  induction n as [ty t s i r kids IH] using StoplightNode_forall_ind.
  intros st o st'. rewrite _convert_node_unfold.
  set (node := mkNode ty t s i r kids).
  pose proof (convert_nodes_wrote_step kids IH) as Hkids.
  destruct (is_markdown node); [now apply create_page_entry_wrote|].
  destruct (is_section node).
  - unfold bind at 1. change (children node) with kids.
    destruct (convert_nodes client config kids st) as [[contents|e] st1] eqn:E; [|done].
    apply Hkids in E. destruct contents as [|c contents].
    + unfold ret. intros [= <- <-]. exact E.
    + intros [Hw ->]%section_entry_wrote. now rewrite Hw.
  - change (children node) with kids. destruct kids as [|k kids'] eqn:Ek.
    + now apply create_page_entry_wrote.
    + rewrite <- Ek in *. unfold bind at 1.
      destruct (convert_nodes client config kids st) as [[contents|e] st1] eqn:E; [|done].
      apply Hkids in E. destruct contents as [|c contents].
      * intros H%create_page_entry_wrote; [|done].
        exact (wrote_pages_app _ _ _ _ _ E H).
      * intros [Hw ->]%section_entry_wrote. now rewrite Hw.
Qed.

Lemma convert_nodes_wrote (nodes : list StoplightNode) :
  dry_run config = false ->
  forall st nav st',
    convert_nodes client config nodes st = (Ok nav, st') ->
    wrote_pages config (world st) (navigation_pages nav) (world st').
Proof.
  intros Hdry. apply convert_nodes_wrote_step.
  apply Forall_forall. intros n _. now apply convert_node_wrote.
Qed.

(** The page slugs of an entry are among its slugs, in the same order. *)
Lemma page_slugs_sublist_items (v : value) :
  page_slugs v `sublist_of` nav_slugs v
  /\ match v with
     | VList l => Forall (fun e => page_slugs e `sublist_of` nav_slugs e) l
     | _ => True
     end.
Proof.
  induction v as [s|items IH|entries IH] using value_forall_ind.
  - split; [constructor|exact I].
  - split; [constructor|]. eapply Forall_impl; [exact IH|]. now intros e [He _].
  - split; [|exact I].
    cbn [page_slugs nav_slugs]. generalize (odict_mem "page" entries) as is_page.
    intros is_page. induction IH as [|[k v] entries Hv _ IHe]; [constructor|].
    apply sublist_app; [|exact IHe]. cbn [snd] in Hv.
    destruct (String.eqb k "slug").
    { destruct v as [[| | | |s]| |]; try solve [constructor].
      destruct is_page; [reflexivity|]. apply sublist_nil_l. }
    destruct (String.eqb k "contents"); [|constructor].
    destruct v as [|l|]; try solve [constructor].
    destruct Hv as [_ Hl].
    induction Hl as [|e l He _ IHl]; [constructor|]. now apply sublist_app.
Qed.

Lemma navigation_pages_sublist (navigation : list value) :
  navigation_pages navigation `sublist_of` navigation_slugs navigation.
Proof.
  induction navigation as [|e l IH]; [constructor|].
  apply sublist_app; [apply page_slugs_sublist_items|exact IH].
Qed.

Lemma page_file_inj (a b : string) : page_file config a = page_file config b -> a = b.
Proof.
  unfold page_file, path_join. intros H%app_inv_head. injection H as H.
  apply (f_equal chars) in H. rewrite !chars_app in H.
  apply app_inv_tail in H. now apply chars_inj.
Qed.

End Pages.

(** * The dry run as a preview of the real run *)

Section Preview.
Context {F : PyFloatOps}.
Variable client : StoplightClient.
Variable config : MigrationConfig.

Let dry := with_dry_run config true.












End Preview.

(** * A pages directory outside the directory of [docs.yml] *)

Section Outside.
Context {F : PyFloatOps}.
Variable client : StoplightClient.
Variable config : MigrationConfig.
Hypothesis Houtside :
  forall name,
    is_prefix_of (parent (docs_yml_path config)) (path_join (pages_dir config) name) = false.





End Outside.

(** * The place of the navigation in the merged document *)

Section MergePlace.

Lemma odict_set_absent {V} (k : string) (v : V) (m : list (string * V)) :
  odict_get k m = None -> odict_set k v m = m ++ [(k, v)].
Proof.
  induction m as [|[k' v'] m IH]; cbn [odict_get odict_set app]; [done|].
  destruct (String.eqb k' k); [done|]. intros H. now rewrite IH.
Qed.

Lemma odict_set_present {V} (k : string) (v : V) (m : list (string * V)) :
  is_Some (odict_get k m) -> map fst (odict_set k v m) = map fst m.
Proof.
  induction m as [|[k' v'] m IH]; cbn [odict_get odict_set map fst].
  { now intros [? ?]. }
  destruct (String.eqb k' k); [done|]. intros H. cbn [map fst]. now rewrite IH.
Qed.

End MergePlace.

(** * Repeated candidates *)

Section Repeats.

Lemma suffixed_ne (base : string) (n : Z) : suffixed base n <> base.
Proof.
  unfold suffixed. intros H. apply (f_equal chars) in H.
  rewrite !chars_app in H. apply (f_equal (@length ascii)) in H.
  rewrite !length_app in H. cbn in H. lia.
Qed.

Lemma ensure_unique_first (candidate : string) :
  ensure_unique ∅ candidate = (slugify candidate, <[slugify candidate := 1]> ∅).
Proof. unfold ensure_unique. now rewrite lookup_empty. Qed.

Lemma handed_out_first (s : string) : handed_out s 1 (<[s := 1]> ∅).
Proof.
  split; [apply lookup_insert_eq|]. intros k. right.
  rewrite lookup_insert_ne by (intros E; symmetry in E; now apply suffixed_ne in E).
  apply lookup_empty.
Qed.

Lemma ensure_unique_again (candidate : string) (n : Z) (registry : gmap string Z) :
  1 <= n -> handed_out (slugify candidate) n registry ->
  exists registry',
    ensure_unique registry candidate = (suffixed (slugify candidate) (n + 1), registry')
    /\ handed_out (slugify candidate) (n + 1) registry'.
Proof.
  intros Hn [Hs Hk]. unfold ensure_unique. rewrite Hs.
  assert (Hfree : registry !! suffixed (slugify candidate) (n + 1) = None).
  { destruct (Hk (n + 1)) as [?|H]; [lia|exact H]. }
  cbn [probe]. rewrite Hfree.
  rewrite bool_decide_eq_false_2 by (intros [? ?]; done).
  eexists. split; [reflexivity|]. split.
  - rewrite lookup_insert_ne by apply suffixed_ne. apply lookup_insert_eq.
  - intros k. destruct (decide (2 <= k <= n + 1)) as [?|Hout]; [now left|right].
    rewrite lookup_insert_ne by (intros E%suffixed_inj; lia).
    rewrite lookup_insert_ne by (intros E; symmetry in E; now apply suffixed_ne in E).
    destruct (Hk k) as [?|H]; [lia|exact H].
Qed.

Lemma allocate_again (s : string) (candidates : list string) :
  Forall (fun c => slugify c = s) candidates ->
  forall (j : nat) (registry : gmap string Z),
    (1 <= j)%nat -> handed_out s (Z.of_nat j) registry ->
    allocate registry candidates
    = map (fun k => suffixed s (Z.of_nat k)) (seq (S j) (length candidates)).
Proof.
  induction 1 as [|c cs Hc _ IH]; intros j registry Hj Hreg; [reflexivity|].
  cbn [allocate length seq map]. rewrite <- Hc in Hreg.
  destruct (ensure_unique_again c (Z.of_nat j) registry ltac:(lia) Hreg)
    as (registry' & -> & Hreg').
  rewrite Hc in *. replace (Z.of_nat j + 1) with (Z.of_nat (S j)) in * by lia.
  f_equal. apply IH; [lia|exact Hreg'].
Qed.

End Repeats.

(** * The helpers of [clients] *)

Section ClientFacts.

Import clients.

Lemma subvalue_scalar (j v : json) :
  subvalue j v ->
  match v with
  | JList _ | JDict _ => True
  | _ => j = v
  end.
Proof. intros H. destruct H; [destruct j; done|done|done]. Qed.

Lemma subvalue_trans (a b c : json) : subvalue a b -> subvalue b c -> subvalue a c.
Proof.
  intros Hab Hbc. induction Hbc as [|items x Hx _ IH|fields k x Hx _ IH]; [done| |].
  - eapply sub_item; eauto.
  - eapply sub_field; eauto.
Qed.

(** ** [find_table_of_contents] *)

Lemma own_candidates_spec (fields : list (string * json)) (l : list json) :
  l ∈ own_candidates fields
  <-> exists key, key ∈ toc_keys /\ get key fields = JList l /\ _looks_like_toc l = true.
Proof.
  unfold own_candidates. rewrite list_elem_of_In, in_flat_map. split.
  - intros (key & Hk & Hin). exists key. apply list_elem_of_In in Hk.
    destruct (get key fields) as [| | | | |c|]; try done.
    destruct (_looks_like_toc c) eqn:E; [|done].
    destruct Hin as [->|[]]. done.
  - intros (key & Hk & Hg & Hl). exists key. split; [now apply list_elem_of_In|].
    rewrite Hg, Hl. now left.
Qed.

Lemma toc_candidates_list (items : list json) :
  toc_candidates (JList items) = flat_map toc_candidates items.
Proof.
  cbn [toc_candidates]. induction items as [|x items IH]; [reflexivity|].
  cbn [flat_map]. now rewrite IH.
Qed.

Lemma toc_candidates_dict (fields : list (string * json)) :
  toc_candidates (JDict fields)
  = own_candidates fields ++ flat_map (fun kv => toc_candidates kv.2) fields.
Proof.
  cbn [toc_candidates]. f_equal. induction fields as [|[k x] fields IH]; [reflexivity|].
  cbn [flat_map snd]. now rewrite IH.
Qed.

Lemma toc_candidates_spec (data : json) (l : list json) :
  l ∈ toc_candidates data
  <-> exists fields key,
        subvalue (JDict fields) data /\ key ∈ toc_keys
        /\ get key fields = JList l /\ _looks_like_toc l = true.
Proof.
  revert l. induction data as [| | | | |items IH|fs IH] using json_forall_ind; intros l;
    try (split; [intros H; now apply elem_of_nil in H
                |intros (fl & k & H%subvalue_scalar & _); discriminate]).
  - rewrite toc_candidates_list, list_elem_of_In, in_flat_map.
    rewrite Forall_forall in IH. split.
    + intros (x & Hx%list_elem_of_In & Hin%list_elem_of_In).
      apply (IH x Hx) in Hin as (f & k & Hs & Hr). exists f, k. split; [|exact Hr].
      eapply sub_item; eauto.
    + intros (f & k & Hs & Hr). inversion Hs as [|items' y Hy Hsy|]; subst.
      exists y. split; [now apply list_elem_of_In|]. apply list_elem_of_In.
      apply (IH y Hy). eauto.
  - rewrite toc_candidates_dict, elem_of_app, own_candidates_spec.
    rewrite list_elem_of_In, in_flat_map. rewrite Forall_forall in IH. split.
    + intros [(k & Hk & Hr)|([kx x] & Hx%list_elem_of_In & Hin%list_elem_of_In)].
      { exists fs, k. split; [constructor|]. now split. }
      apply (IH _ Hx) in Hin as (f & k & Hs & Hr). exists f, k. split; [|exact Hr].
      eapply sub_field; eauto.
    + intros (f & k & Hs & Hk & Hr).
      inversion Hs as [|?|fs' ky y Hy Hsy]; subst.
      * left. eauto.
      * right. exists (ky, y). split; [now apply list_elem_of_In|].
        apply list_elem_of_In. apply (IH _ Hy). eauto.
Qed.

(** ** [collect_nodes_by_id] *)

Lemma files_nodes_none (nodes : list (string * json)) :
  files_nodes (fun _ => False) nodes nodes.
Proof. repeat split; [now left|done|done]. Qed.

Lemma files_nodes_trans (S1 S2 S : json -> Prop) (a b c : list (string * json)) :
  (forall v, S1 v \/ S2 v -> S v) ->
  (forall v k, S v -> is_node v k -> S1 v \/ S2 v) ->
  files_nodes S1 a b -> files_nodes S2 b c -> files_nodes S a c.
Proof.
  intros HS HS' (H1 & H2 & H3) (G1 & G2 & G3). repeat split.
  - intros k v Hc. destruct (G1 k v Hc) as [Hb|[Hs Hn]].
    + destruct (H1 k v Hb) as [Ha|[Hs Hn]]; [now left|right]. split; [|done].
      apply HS. now left.
    + right. split; [|done]. apply HS. now right.
  - auto.
  - intros v k Hs Hn. destruct (HS' v k Hs Hn); eauto.
Qed.

Lemma record_node_files (fields : list (string * json)) (nodes nodes' : list (string * json)) :
  record_node (JDict fields) fields nodes = Ok nodes' ->
  files_nodes (fun v => v = JDict fields) nodes nodes'.
Proof.
  unfold record_node.
  destruct (truthy (get "id" fields)) eqn:Hid; cbn [andb].
  2: { intros [= <-]. repeat split; [now left|done|].
       intros v k -> (f & [= <-] & Hk & Hne & _). rewrite Hk in Hid. cbn in Hid.
       destruct k; done. }
  destruct (truthy (py_or _ _)) eqn:Hty.
  2: { intros [= <-]. repeat split; [now left|done|].
       intros v k -> (f & [= <-] & _ & _ & Ht). congruence. }
  destruct (get "id" fields) as [| | | |s| |] eqn:Hg; try discriminate.
  intros [= <-]. repeat split.
  - intros k v. destruct (decide (k = s)) as [->|Hne].
    + rewrite odict_get_set_eq. intros [= <-]. right. split; [done|].
      exists fields. repeat split; try done. intros ->. discriminate.
    + rewrite odict_get_set_ne by done. now left.
  - intros k Hk. destruct (decide (k = s)) as [->|Hne].
    + rewrite odict_get_set_eq. eauto.
    + now rewrite odict_get_set_ne.
  - intros v k -> (f & [= <-] & Hk & _). rewrite Hg in Hk. injection Hk as <-.
    rewrite odict_get_set_eq. eauto.
Qed.

Lemma visit_each (items : list json) :
  Forall (fun x => forall nodes nodes',
            visit x nodes = Ok nodes' ->
            files_nodes (fun v => subvalue v x) nodes nodes') items ->
  forall nodes nodes',
    (fix each (l : list json) (nodes : list (string * json))
       : result (list (string * json)) :=
       match l with
       | [] => Ok nodes
       | item :: l' => let! nodes := visit item nodes in each l' nodes
       end) items nodes = Ok nodes' ->
    files_nodes (fun v => exists x, x ∈ items /\ subvalue v x) nodes nodes'.
Proof.
  induction 1 as [|x items Hx _ IHi]; intros nodes nodes'.
  - intros [= <-]. eapply files_nodes_trans;
      [| |apply files_nodes_none|apply files_nodes_none]; [tauto|].
    intros v k (x & Hx & _). now apply elem_of_nil in Hx.
  - destruct (visit x nodes) as [nodes1|] eqn:E; [|discriminate]. cbn [rbind].
    intros H. eapply files_nodes_trans; [| |apply Hx, E|apply IHi, H].
    + intros v [Hs|(y & Hy & Hs)]; [exists x|exists y]; split; try done;
        [now left|now right].
    + intros v k (y & [->|Hy]%elem_of_cons & Hs) _; eauto.
Qed.

Lemma visit_each_field (fields : list (string * json)) :
  Forall (fun kv => forall nodes nodes',
            visit kv.2 nodes = Ok nodes' ->
            files_nodes (fun v => subvalue v kv.2) nodes nodes') fields ->
  forall nodes nodes',
    (fix each (fs : list (string * json)) (nodes : list (string * json))
       : result (list (string * json)) :=
       match fs with
       | [] => Ok nodes
       | (_, item) :: fs' => let! nodes := visit item nodes in each fs' nodes
       end) fields nodes = Ok nodes' ->
    files_nodes (fun v => exists k x, (k, x) ∈ fields /\ subvalue v x) nodes nodes'.
Proof.
  induction 1 as [|[kx x] fields Hx _ IHf]; intros nodes nodes'.
  - intros [= <-]. eapply files_nodes_trans;
      [| |apply files_nodes_none|apply files_nodes_none]; [tauto|].
    intros v k (k' & x & Hx & _). now apply elem_of_nil in Hx.
  - cbn [snd] in Hx.
    destruct (visit x nodes) as [nodes1|] eqn:E; [|discriminate]. cbn [rbind].
    intros H. eapply files_nodes_trans; [| |apply Hx, E|apply IHf, H].
    + intros v [Hs|(k & y & Hy & Hs)]; [exists kx, x|exists k, y]; split; try done;
        [now left|now right].
    + intros v k (k' & y & [[= -> ->]|Hy]%elem_of_cons & Hs) _; eauto.
Qed.

Lemma visit_files (data : json) :
  forall nodes nodes',
    visit data nodes = Ok nodes' ->
    files_nodes (fun v => subvalue v data) nodes nodes'.
Proof.
  induction data as [| | | | |items IH|fs IH] using json_forall_ind; intros nodes nodes';
    try (intros [= <-]; repeat split; [now left|done|];
         intros v k Hs%subvalue_scalar (fl & -> & _); discriminate).
  - cbn [visit]. intros H%(visit_each items IH).
    eapply files_nodes_trans; [| |apply files_nodes_none|exact H].
    + intros v [[]|(x & Hx & Hs)]. eapply sub_item; eauto.
    + intros v k Hs (fl & -> & _). right.
      inversion Hs as [|items' y Hy Hsy|]; subst. eauto.
  - cbn [visit].
    destruct (record_node (JDict fs) fs nodes) as [nodes1|] eqn:E; [|discriminate].
    cbn [rbind]. intros H%(visit_each_field fs IH).
    eapply files_nodes_trans; [| |apply record_node_files, E|exact H].
    + intros v [->|(k & x & Hx & Hs)]; [constructor|]. eapply sub_field; eauto.
    + intros v k Hs _. inversion Hs as [|?|fs' ky y Hy Hsy]; subst; [now left|right].
      eauto.
Qed.

(** ** [_extract_json_object] *)

Lemma scan_cons (depth : Z) (in_string escape : bool) (char : ascii)
  (tail : list ascii) (index : nat) :
  scan depth in_string escape (char :: tail) index
  = match scan_next depth in_string escape char with
    | None => Some index
    | Some (d, s, e) => scan d s e tail (S index)
    end.
Proof.
  unfold scan_next. cbn [scan].
  destruct in_string, escape, (Ascii.eqb char BS), (Ascii.eqb char DQ),
    (Ascii.eqb char "{"), (Ascii.eqb char "}"), (depth - 1 =? 0)%Z; reflexivity.
Qed.

Lemma scan_next_none (depth : Z) (in_string escape : bool) (char : ascii) :
  scan_next depth in_string escape char = None -> char = "}"%char.
Proof.
  unfold scan_next.
  destruct in_string, escape, (Ascii.eqb char BS), (Ascii.eqb char DQ),
    (Ascii.eqb char "{"), (Ascii.eqb char "}") eqn:E, (depth - 1 =? 0)%Z;
    try discriminate; intros _; now apply Ascii.eqb_eq in E.
Qed.

(** Where the scan returns: after [p] more characters, at a closing brace;
    the characters up to it decide, whatever the index they start at and
    whatever follows them. *)
Lemma scan_spec (l : list ascii) :
  forall depth in_string escape index j,
    scan depth in_string escape l index = Some j ->
    exists p body,
      j = (index + p)%nat
      /\ take (S p) l = body ++ ["}"%char]
      /\ length body = p
      /\ forall index' more,
           scan depth in_string escape (take (S p) l ++ more) index'
           = Some (index' + p)%nat.
Proof.
  induction l as [|char rest IH]; intros depth in_string escape index j H; [discriminate|].
  rewrite scan_cons in H.
  destruct (scan_next depth in_string escape char) as [[[d s] e]|] eqn:N.
  - destruct (IH _ _ _ _ _ H) as (p & body & -> & Ht & Hl & Hm).
    exists (S p), (char :: body). split; [lia|].
    change (take (S (S p)) (char :: rest)) with (char :: take (S p) rest).
    split; [cbn [app]; now rewrite Ht|]. split; [cbn [length]; now rewrite Hl|].
    intros index' more. cbn [app]. rewrite scan_cons, N, Hm. f_equal. lia.
  - injection H as <-. apply scan_next_none in N as Hc. subst char.
    exists 0%nat, []. split; [lia|]. split; [reflexivity|]. split; [reflexivity|].
    intros index' more. cbn [take app]. rewrite scan_cons, N. f_equal. lia.
Qed.

(** Inside a string literal that holds no escape, up to its closing quote. *)
Lemma scan_string (body : list ascii) :
  plain_text body = true ->
  forall depth tail index,
    scan depth true false (body ++ DQ :: tail) index
    = scan depth false false tail (index + length body + 1).
Proof.
  induction body as [|c body IH]; intros Hp depth tail index.
  - cbn [app length]. rewrite scan_cons. cbn. f_equal. lia.
  - cbn [plain_text forallb] in Hp. apply andb_prop in Hp as [[Hq Hb]%andb_prop Hp].
    apply negb_true_iff in Hq, Hb.
    cbn [app length]. rewrite scan_cons. unfold scan_next. rewrite Hb, Hq.
    rewrite IH by exact Hp. f_equal. lia.
Qed.

(** ** [StoplightDirectoryClient.get_markdown] *)

Lemma read_first_found (w : World) (first : Path) (rest : list Path) (t : string) :
  files w !! first = Some t ->
  read_first w (first :: rest) = Some (Ok t).
Proof.
  intros H. cbn [read_first]. unfold path_exists, read_text. rewrite H.
  rewrite bool_decide_eq_true_2 by eauto. reflexivity.
Qed.

End ClientFacts.

(** * Shapes: slugs and canonical nodes *)

Section Shapes.

Lemma slug_sub_no_slug_char (l : list ascii) (in_run : bool) :
  Forall (fun c => is_slug_char c = false) l ->
  slug_sub in_run l = if in_run then [] else match l with [] => [] | _ => ["-"%char] end.
Proof.
  intros H. revert in_run. induction H as [|c l Hc _ IH]; intros in_run.
  - now destruct in_run.
  - cbn [slug_sub]. rewrite Hc. destruct in_run; rewrite IH; reflexivity.
Qed.

Lemma Forall_strip_by (P : ascii -> Prop) (p : ascii -> bool) (l : list ascii) :
  Forall P l -> Forall P (strip_by p l).
Proof.
  intros H. unfold strip_by.
  destruct (lstrip_by_split p l) as (t & E & _).
  destruct (rstrip_by_split p (lstrip_by p l)) as (u & E' & _).
  rewrite E, E' in H. apply Forall_app in H as [_ H]. now apply Forall_app in H as [H _].
Qed.

Lemma slugify_fallback (value : string) :
  Forall (fun c => is_slug_char (lower_char c) = false) (chars value) ->
  slugify value = "page".
Proof.
  intros H. unfold slugify, slugify_chars.
  apply (Forall_strip_by _ is_space) in H. fold strip in H.
  assert (Hl : Forall (fun c => is_slug_char c = false) (lower (strip (chars value)))).
  { unfold lower. now apply Forall_map. }
  rewrite (slug_sub_no_slug_char _ false Hl).
  destruct (lower (strip (chars value))); reflexivity.
Qed.

Lemma title_of_truthy (fields : list (string * json)) : truthy (title_of fields) = true.
Proof.
  unfold title_of. destruct (truthy (py_or _ (py_or _ _))) eqn:E; [exact E|].
  unfold py_or. destruct (truthy (get "slug" fields)) eqn:E1; [exact E1|].
  destruct (truthy (get "id" fields)) eqn:E2; [exact E2|reflexivity].
Qed.

Lemma build_node_shape (kind : string) (item : json) (fields : list (string * json))
  (kids : list StoplightNode) (n : StoplightNode) :
  build_node kind item fields kids = Ok (Some n) ->
  type n = kind /\ children n = kids /\ title n <> "".
Proof.
  unfold build_node. pose proof (title_of_truthy fields) as Ht.
  destruct (title_of fields) as [| | | |t| |]; try discriminate. cbn [as_str rbind].
  destruct (as_optional_str "slug" _) as [s|]; [|discriminate]. cbn [rbind].
  destruct (as_optional_str "id" _) as [i|]; [|discriminate]. cbn [rbind].
  intros [= <-]. cbn. repeat split. intros ->. discriminate.
Qed.

Lemma parse_item_shape (item : json) (n : StoplightNode) :
  _parse_item item = Ok (Some n) -> node_shape n.
Proof.
  destruct item as [| | | | | |fields]; try discriminate.
  rewrite _parse_item_unfold. cbv zeta.
  destruct (node_type_of fields) as [ty|]; [|discriminate]. cbn [rbind].
  assert (Hg : forall kids, build_node "group" (JDict fields) fields kids = Ok (Some n) ->
                            node_shape n).
  { intros kids (Ht & _ & Hti)%build_node_shape. unfold node_shape, is_markdown, is_section.
    rewrite Ht. repeat split; [now left|exact Hti]. }
  assert (Ha : build_node "article" (JDict fields) fields [] = Ok (Some n) -> node_shape n).
  { intros (Ht & Hk & Hti)%build_node_shape. unfold node_shape, is_markdown, is_section.
    rewrite Ht. repeat split; [now right|exact Hti]. }
  destruct (str_in ty group_tags).
  { destruct (toc.parse _) as [kids|]; [|discriminate]. cbn [rbind]. apply Hg. }
  destruct (str_in ty article_tags); [exact Ha|].
  destruct (find_children child_keys fields) as [[|c l]|].
  - destruct (truthy _); [exact Ha|discriminate].
  - destruct (toc.parse _) as [kids|]; [|discriminate]. cbn [rbind]. apply Hg.
  - destruct (truthy _); [exact Ha|discriminate].
Qed.

Lemma parse_all_canonical (items : list json) (nodes : list StoplightNode) :
  toc.parse items = Ok nodes -> Forall canonical (forest_nodes nodes).
Proof.
  apply parse_canonical. apply Forall_forall. intros c _ n. apply parse_item_canonical.
Qed.

End Shapes.

(** * Quoted scalars, line endings, inline markdown *)

Section More.
Context {F : PyFloatOps}.

(** [_parse_scalar] on a text in single quotes. *)
Lemma parse_scalar_single_quoted (t : list ascii) :
  _parse_scalar ("'"%char :: t ++ ["'"%char]) = SStr (text t).
Proof.
  assert (Hs : strip ("'"%char :: t ++ ["'"%char]) = "'"%char :: t ++ ["'"%char]).
  { apply strip_by_nop.
    - now intros c r [= <- _].
    - intros c r E. change ("'"%char :: t ++ ["'"%char]) with (("'"%char :: t) ++ ["'"%char]) in E.
      now apply app_inj_tail in E as [_ <-]. }
  unfold _parse_scalar.
  change (lower ("'"%char :: t ++ ["'"%char])) with ("'"%char :: lower (t ++ ["'"%char])).
  change (chars "null") with ("n"%char :: chars "ull").
  change (chars "true") with ("t"%char :: chars "rue").
  change (chars "false") with ("f"%char :: chars "alse").
  rewrite !head_differs by reflexivity.
  assert (Hnum :
    (if has_char "." ("'"%char :: t ++ ["'"%char])
     then if is_float_literal ("'"%char :: t ++ ["'"%char])
          then Some (SFloat (float_of_literal (text ("'"%char :: t ++ ["'"%char])))) else None
     else match int_of_text ("'"%char :: t ++ ["'"%char]) with
          | Some z => Some (SInt z)
          | None => None
          end) = None).
  { destruct (has_char "." ("'"%char :: t ++ ["'"%char])) eqn:Hdot.
    - now rewrite not_float_literal.
    - now rewrite not_int_text. }
  rewrite Hnum.
  assert (He : endswith ("'"%char :: t ++ ["'"%char]) (chars "'") = true).
  { unfold endswith. change ("'"%char :: t ++ ["'"%char]) with (("'"%char :: t) ++ ["'"%char]).
    rewrite rev_app_distr. cbn [rev app startswith chars list_ascii_of_string].
    now rewrite Ascii.eqb_refl, startswith_nil. }
  rewrite He. cbn [startswith chars list_ascii_of_string].
  rewrite Ascii.eqb_refl, startswith_nil.
  cbn [andb orb]. unfold drop_ends. cbn [tl]. now rewrite removelast_last.
Qed.

(** ** Line endings *)

Lemma splitlines_go_crlf (l cur rest : list ascii) (started : bool) :
  no_linebreak l ->
  splitlines_go cur started (l ++ CR :: LF :: rest)
  = (rev cur ++ l) :: splitlines_go [] false rest.
Proof.
  intros Hl. revert cur started.
  induction Hl as [|c l Hc _ IH]; intros cur started.
  - cbn [app splitlines_go]. change (is_linebreak CR) with true. cbn iota.
    change (Ascii.eqb CR CR && Ascii.eqb LF LF) with true. cbn iota.
    now rewrite app_nil_r.
  - cbn [app splitlines_go]. rewrite Hc, IH. cbn [rev]. now rewrite <- app_assoc.
Qed.

Lemma splitlines_unlines_crlf (ls : list (list ascii)) :
  Forall no_linebreak ls -> splitlines (unlines_crlf ls) = ls.
Proof.
  unfold splitlines. induction 1 as [|l ls Hl _ IH]; [reflexivity|].
  cbn [unlines_crlf flat_map]. rewrite <- app_assoc. cbn [app].
  rewrite splitlines_go_crlf by exact Hl. cbn [rev app]. f_equal. exact IH.
Qed.

(** ** [extract_markdown_from_node] *)

Lemma first_text_spec (keys : list string) (fields : list (string * json)) :
  match clients.first_text keys fields with
  | Some s => exists key, key ∈ keys /\ odict_get key fields = Some (JStr s)
  | None => forall key s, key ∈ keys -> odict_get key fields <> Some (JStr s)
  end.
Proof.
  induction keys as [|k keys IH]; cbn [clients.first_text].
  { intros key s H. now apply elem_of_nil in H. }
  destruct (odict_get k fields) as [[| | | |s| |]|] eqn:E;
    try (destruct (clients.first_text keys fields) as [s'|];
         [destruct IH as (key & Hk & Hg); exists key; split; [now right|exact Hg]
         |intros key s' [->|Hk]%elem_of_cons; [congruence|now apply IH]]).
  exists k. split; [now left|exact E].
Qed.

Lemma extract_along_spec (paths : list (list string)) (node : json) :
  match clients.extract_along paths node with
  | Some s => exists path, path ∈ paths /\ markdown_at path node s
  | None => forall path s, path ∈ paths -> ~ markdown_at path node s
  end.
Proof.
  induction paths as [|p paths IH]; cbn [clients.extract_along].
  { intros path s H. now apply elem_of_nil in H. }
  assert (Hrest : (forall s, ~ markdown_at p node s) ->
            match clients.extract_along paths node with
            | Some s => exists path, path ∈ p :: paths /\ markdown_at path node s
            | None => forall path s, path ∈ p :: paths -> ~ markdown_at path node s
            end).
  { intros Hp. destruct (clients.extract_along paths node) as [s|].
    - destruct IH as (path & Hin & Hm). exists path. split; [now right|exact Hm].
    - intros path s [->|Hin]%elem_of_cons; [apply Hp|now apply IH]. }
  destruct (clients.follow p node) as [[| | | |s|l|fields]|] eqn:E;
    try (apply Hrest; intros s' [Hm|(fl & key & Hm & _)]; congruence).
  - exists p. split; [now left|]. now left.
  - pose proof (first_text_spec clients.text_keys fields) as Hft.
    destruct (clients.first_text clients.text_keys fields) as [s|].
    + destruct Hft as (key & Hk & Hg). exists p. split; [now left|]. right. eauto.
    + apply Hrest. intros s [Hm|(fl & key & Hm & Hk & Hg)]; [congruence|].
      rewrite E in Hm. injection Hm as <-. now apply (Hft key s).
Qed.

(** ** The two encoders of a string *)

Lemma has_any_cons (c : ascii) (cs l : list ascii) :
  has_any (c :: cs) l = has_char c l || has_any cs l.
Proof. reflexivity. Qed.

End More.

(** * Records of the declared types *)

Section Typed.
Import clients.

Lemma build_node_typed (kind : string) (item : json) (fields : list (string * json))
  (kids : list StoplightNode) :
  text_fields fields = true -> exists n, build_node kind item fields kids = Ok (Some n).
Proof.
  unfold text_fields, build_node. intros [[Ht Hs]%andb_prop Hi]%andb_prop.
  destruct (title_of fields); try discriminate.
  destruct (slug_of fields); try discriminate;
    destruct (id_of fields); try discriminate; cbn; eauto.
Qed.

Lemma parse_typed (l : list json) :
  Forall (fun c => forall field, _parse_item c <> Raise (IllTyped field)) l ->
  forall field, toc.parse l <> Raise (IllTyped field).
Proof.
  induction 1 as [|c l Hc _ IH]; intros field; [done|].
  cbn [toc.parse]. specialize (Hc field). specialize (IH field).
  destruct (_parse_item c) as [o|e]; cbn [rbind]; [|congruence].
  destruct (toc.parse l) as [cs|e]; cbn [rbind]; [done|congruence].
Qed.

Lemma all_records_item (p : list (string * json) -> bool) (items : list json) (x : json) :
  x ∈ items -> all_records p (JList items) = true -> all_records p x = true.
Proof.
  intros Hx%list_elem_of_In H. cbn [all_records] in H.
  rewrite forallb_forall in H. now apply H.
Qed.

Lemma all_records_field (p : list (string * json) -> bool)
  (fields : list (string * json)) (k : string) (x : json) :
  (k, x) ∈ fields -> all_records p (JDict fields) = true -> all_records p x = true.
Proof.
  intros Hx%list_elem_of_In H. cbn [all_records] in H.
  apply andb_prop in H as [_ H]. rewrite forallb_forall in H. now apply (H (k, x)).
Qed.

Lemma all_records_here (p : list (string * json) -> bool) (fields : list (string * json)) :
  all_records p (JDict fields) = true -> p fields = true.
Proof. cbn [all_records]. now intros [H _]%andb_prop. Qed.

(** [all_records] reaches every record of the value. *)
Lemma all_records_sub (p : list (string * json) -> bool) (j : json)
  (fields : list (string * json)) :
  all_records p j = true -> subvalue (JDict fields) j -> p fields = true.
Proof.
  intros H Hs. induction Hs as [|items x Hx _ IH|fs k x Hx _ IH].
  - now apply all_records_here.
  - apply IH. eapply all_records_item; eauto.
  - apply IH. eapply all_records_field; eauto.
Qed.

(** On records of the declared types the normaliser never leaves the typed
    fragment: it returns, or raises an exception of the program. *)
Lemma parse_item_typed (item : json) :
  well_typed item = true -> forall field, _parse_item item <> Raise (IllTyped field).
Proof.
  enough (H : (well_typed item = true ->
               forall field, _parse_item item <> Raise (IllTyped field))
              /\ (forall l, item = JList l -> well_typed item = true ->
                    Forall (fun c => forall field, _parse_item c <> Raise (IllTyped field)) l))
    by apply H.
  induction item as [ |b|z|f|s|items IH|fields IH] using json_forall_ind;
    try solve [split; [intros _ field; discriminate|intros l [=]]].
  - split; [intros _ field; discriminate|]. intros l [= <-] Hw.
    rewrite Forall_forall in IH. apply Forall_forall. intros c Hc.
    apply (IH c Hc). eapply all_records_item; eauto.
  - split; [|intros l [=]]. intros Hw field.
    assert (Hkids : forall l, find_children child_keys fields = Some l ->
                              toc.parse l <> Raise (IllTyped field)).
    { intros l [key Hin]%find_children_field. apply parse_typed.
      rewrite Forall_forall in IH. apply (IH _ Hin); [done|].
      eapply all_records_field; eauto. }
    assert (Hb : forall kind kids,
              build_node kind (JDict fields) fields kids <> Raise (IllTyped field)).
    { intros kind kids.
      destruct (build_node_typed kind (JDict fields) fields kids) as [n ->]; [|done].
      now apply all_records_here. }
    rewrite _parse_item_unfold. cbv zeta.
    unfold node_type_of.
    destruct (py_or _ _) as [| | | |ty| |]; cbn [rbind]; try discriminate.
    destruct (str_in _ group_tags).
    { destruct (find_children child_keys fields) as [l|] eqn:El.
      - specialize (Hkids l eq_refl).
        destruct (toc.parse l) as [kids|e]; cbn [rbind]; [apply Hb|congruence].
      - cbn [toc.parse rbind]. apply Hb. }
    destruct (str_in _ article_tags); [apply Hb|].
    destruct (find_children child_keys fields) as [[|c l]|] eqn:El.
    + destruct (truthy _); [apply Hb|discriminate].
    + specialize (Hkids (c :: l) eq_refl).
      destruct (toc.parse (c :: l)) as [kids|e]; cbn [rbind]; [apply Hb|congruence].
    + destruct (truthy _); [apply Hb|discriminate].
Qed.

(** With texts for the ids that are filed, the walk returns. *)
Lemma visit_returns (data : json) :
  text_ids data = true -> forall nodes, exists nodes', visit data nodes = Ok nodes'.
Proof.
  induction data as [| | | | |items IH|fs IH] using json_forall_ind; intros Ht nodes;
    try (eexists; reflexivity).
  - cbn [visit].
    assert (Hall : Forall (fun x => forall nodes, exists nodes', visit x nodes = Ok nodes') items).
    { rewrite Forall_forall in IH. apply Forall_forall. intros x Hx.
      apply (IH x Hx). eapply all_records_item; eauto. }
    clear IH Ht. revert nodes. induction Hall as [|x items Hx _ IHi]; intros nodes.
    + eexists; reflexivity.
    + destruct (Hx nodes) as [n1 ->]. cbn [rbind]. apply IHi.
  - cbn [visit].
    assert (Hrec : exists nodes1, record_node (JDict fs) fs nodes = Ok nodes1).
    { apply all_records_here in Ht as Hid. unfold text_id in Hid. unfold record_node.
      destruct (truthy (get "id" fs) && truthy (py_or _ _)); [|eauto].
      destruct (get "id" fs); try discriminate. eauto. }
    destruct Hrec as [nodes1 ->]. cbn [rbind].
    assert (Hall : Forall (fun kv => forall nodes, exists nodes', visit kv.2 nodes = Ok nodes') fs).
    { rewrite Forall_forall in IH. apply Forall_forall. intros [k x] Hx.
      apply (IH _ Hx). eapply all_records_field; eauto. }
    clear IH Ht. generalize nodes1. induction Hall as [|[k x] fs' Hx _ IHf]; intros nodes2.
    + eexists; reflexivity.
    + destruct (Hx nodes2) as [n1 E]. cbn [snd] in E. rewrite E. cbn [rbind]. apply IHf.
Qed.

End Typed.

(** * The claims *)

Section Claims.

(** C1.  Round trip, as the code has it.  [load (dump v)] is [v] for every
    document [v] that is a mapping or a non-empty list in which no list is
    empty, no mapping repeats a key, every key can be emitted as it is
    ([key_ok]) and every scalar survives [_format_scalar] followed by
    [_parse_scalar] on one line and is fit for its place ([entry_scalar_ok],
    [item_scalar_ok]); null, the booleans and the integers of at most
    [max_str_digits] decimal digits are such scalars ([int_scalar_ok]; the
    interpreter converts no longer integer, see [int_beyond_limit]), and so
    are the strings of [quoted_string_ok] and [plain_string_ok]. *)
Theorem load_inverts_dump (F : PyFloatOps) (v : value) :
  container_ok v = true -> load (dump v) = Ok v.
Proof.
  intros Hok. unfold load, dump. rewrite chars_text.
  pose proof (closed_lines_dump v Hok 0) as Hc.
  pose proof (reads_back_all v Hok) as Hr.
  unfold lines_of in Hr.
  destruct (_dump_value v 0) as [|l ls] eqn:E.
  - destruct v as [s|[|x l]|[|[k x] m]]; [done|done| |reflexivity|].
    + rewrite dump_list_cons in E. destruct x; discriminate.
    + rewrite dump_map_cons in E. destruct x; discriminate.
  - destruct (join_last l ls Hc) as (r & d & Ej & Hd).
    unfold rstrip. rewrite Ej, rstrip_by_nop by done. rewrite <- Ej.
    rewrite splitlines_join by (eapply Forall_impl; [exact Hc|now intros ? [? _]]).
    unfold simple_yaml.parse, _parse_block.
    specialize (Hr (fuel_for (map make_line (l :: ls))) 0%nat []).
    rewrite <- E, app_nil_r in Hr. rewrite <- E, Hr; [done|done|].
    unfold fuel_for. lia.
Qed.

Lemma load_inverts_dump_witness :
  @container_ok nan_only sample_document = true
  /\ @load nan_only (@dump nan_only sample_document) = Ok sample_document.
Proof.
  split; [reflexivity|].
  apply (load_inverts_dump nan_only sample_document). reflexivity.
Defined.

(** Strings on which the round trip fails although nothing in them is
    unusual: a double quote is escaped by [dump] and the backslash stays
    after [load]; a string that reads as a keyword or a numeral comes back
    as a boolean or a number; a list item with a colon comes back as a
    mapping. *)
Lemma round_trip_losses :
  @load nan_only (@dump nan_only (VMap [("k", VStr (text ["a"; DQ; "b"]%char))]))
  = Ok (VMap [("k", VStr (text ["a"; BS; DQ; "b"]%char))])
  /\ @load nan_only (@dump nan_only (VMap [("k", VStr "true")]))
     = Ok (VMap [("k", VScalar (SBool true))])
  /\ @load nan_only (@dump nan_only (VMap [("k", VStr "12")]))
     = Ok (VMap [("k", VScalar (SInt 12))])
  /\ @load nan_only (@dump nan_only (VList [VStr "a: b"]))
     = Ok (VList [VMap [(text [DQ; "a"]%char, VStr (text ["b"; DQ]%char))]]).
Proof. repeat split; reflexivity. Qed.

(** The empty list is dumped as a single newline and loads as the empty
    mapping: the round trip fails on it. *)
Lemma empty_list_loads_as_mapping :
  @load nan_only (@dump nan_only (VList [])) = Ok (VMap [])
  /\ @load nan_only (@dump nan_only (VList [])) <> Ok (VList []).
Proof. split; [reflexivity|discriminate]. Qed.

(** C2.  Slug uniqueness.  For every input tree (titles and slug fields may
    repeat), every client and every starting state, the [slug] fields of the
    navigation entries that one run of the conversion loop of [migrate]
    generates, pages and sections at every depth, are pairwise distinct. *)
Theorem generated_slugs_unique (F : PyFloatOps) (client : StoplightClient)
  (config : MigrationConfig) (nodes : list StoplightNode)
  (st st' : State) (navigation : list value) :
  convert_nodes client config nodes st = (Ok navigation, st') ->
  NoDup (navigation_slugs navigation).
Proof.
  intros H. apply convert_nodes_allocated in H as (_ & H & _). exact H.
Qed.

Lemma generated_slugs_unique_witness :
  exists navigation st',
    convert_nodes (sample_client sample_tree) (sample_config true false)
      sample_tree fresh_state = (Ok navigation, st')
    /\ navigation_slugs navigation
       = ["faq-4"; "faq"; "faq-2"; "faq-3"; "faq-2-2"; "setup"; "faq-2-3"]
    /\ NoDup (navigation_slugs navigation).
Proof.
  eexists. eexists. split; [vm_compute; reflexivity|]. split; [reflexivity|].
  eapply (generated_slugs_unique nan_only (sample_client sample_tree)
            (sample_config true false) sample_tree fresh_state).
  vm_compute. reflexivity.
Defined.

(** C3.  Dry run.  The claim (no file system change at all in a dry run,
    no directory created) fails on the code: the constructor creates the
    pages directory whatever the flag says.  With the dry-run flag set, a
    run ([__init__] followed by [migrate]) on a world that has no directory
    yet, with an empty tree, makes the directories [docs] and [docs/pages];
    it prints the merged document and writes no file. *)
Theorem dry_run_creates_pages_dir (F : PyFloatOps) :
  let w := world (snd (run (sample_client []) (sample_config true true) empty_world)) in
  fs_log w = [FsMkdir ["docs"]; FsMkdir ["docs"; "pages"]]
  /\ dirs w <> dirs empty_world
  /\ files w = files empty_world
  /\ stdout w = [dump (VMap [("navigation", VList [])])].
Proof.
  assert (Hw : world (__init__ (sample_config true true) empty_world)
               = {| files := ∅;
                    dirs := ∅ ∪ list_to_set [["docs"]; ["docs"; "pages"]];
                    fs_log := [FsMkdir ["docs"]; FsMkdir ["docs"; "pages"]];
                    stdout := [] |}).
  { reflexivity. }
  unfold run.
  pose proof (migrate_dry_run (sample_client []) (sample_config true true)
                (__init__ (sample_config true true) empty_world) eq_refl) as (Hf & Hd & Hl).
  cbv zeta. rewrite Hl, Hd, Hf, Hw. cbn [fs_log dirs files].
  split; [done|]. split; [|split; [done|]].
  - intros E. assert (H : ["docs"] ∈ (∅ : gset Path)); [|set_solver].
    unfold empty_world in E. cbn [dirs] in E. rewrite <- E. set_solver.
  - reflexivity.
Qed.

(** C4.  Append merge.  With [overwrite_navigation] false, when the
    document that [migrate] loads from [docs.yml] is a mapping with a list
    under [navigation], the run completes and the document that it writes
    to [docs.yml] (prints, in a dry run) is the dump of the loaded mapping
    with, under [navigation], the loaded list followed by the generated
    one, no entry dropped or reordered, the key in its place. *)
Theorem append_merge (F : PyFloatOps) (client : StoplightClient)
  (config : MigrationConfig) (st st1 : State) (nodes : list StoplightNode)
  (navigation : list value) (t : string) (entries : list (string * value))
  (existing : list value) :
  overwrite_navigation config = false ->
  load_tree client = Ok nodes ->
  convert_nodes client config nodes st = (Ok navigation, st1) ->
  files (world st1) !! docs_yml_path config = Some t ->
  load t = Ok (VMap entries) ->
  odict_get "navigation" entries = Some (VList existing) ->
  let merged := odict_set "navigation" (VList (existing ++ navigation)) entries in
  odict_get "navigation" merged = Some (VList (existing ++ navigation))
  /\ migrate client config st
     = (Ok tt,
        {| slug_registry := slug_registry st1;
           world := (if dry_run config then print (dump (VMap merged))
                     else write_text (docs_yml_path config) (dump (VMap merged)))
                      (world st1) |}).
Proof.
  intros Ho Ht Hc Hf Hl He merged. split; [apply odict_get_set_eq|].
  eapply migrate_merged; try eassumption.
  now apply merge_navigation_append.
Qed.

Lemma append_merge_witness :
  let t := text (chars "title: Docs" ++ [LF] ++ chars "navigation:" ++ [LF]
                 ++ chars "  - page: Home" ++ [LF] ++ chars "    path: home.mdx" ++ [LF]
                 ++ chars "tabs:" ++ [LF]) in
  let client := sample_client [article "FAQ" None] in
  let config := sample_config false false in
  let home := VMap [("page", VStr "Home"); ("path", VStr "home.mdx")] in
  let faq := VMap [("page", VStr "FAQ"); ("slug", VStr "faq");
                   ("path", VStr "docs/pages/faq.mdx")] in
  exists st1,
    convert_nodes client config [article "FAQ" None] (__init__ config (docs_world t))
    = (Ok [faq], st1)
    /\ @run nan_only client config (docs_world t)
       = (Ok tt,
          {| slug_registry := slug_registry st1;
             world := write_text ["docs.yml"]
                        (@dump nan_only
                           (VMap [("title", VStr "Docs");
                                  ("navigation", VList [home; faq]);
                                  ("tabs", VMap [])]))
                        (world st1) |}).
Proof.
  cbv zeta. eexists. split; [vm_compute; reflexivity|].
  match goal with
  | |- @run _ ?client ?config (docs_world ?t) = (_, {| slug_registry := slug_registry ?st1 |}) =>
      assert (Hc : convert_nodes client config [article "FAQ" None]
                     (__init__ config (docs_world t))
                   = (Ok [VMap [("page", VStr "FAQ"); ("slug", VStr "faq");
                                ("path", VStr "docs/pages/faq.mdx")]], st1))
        by (vm_compute; reflexivity);
      assert (Hf : files (world st1) !! docs_yml_path config = Some t)
        by (vm_compute; reflexivity);
      assert (Hl : @load nan_only t
                   = Ok (VMap [("title", VStr "Docs");
                               ("navigation",
                                VList [VMap [("page", VStr "Home");
                                             ("path", VStr "home.mdx")]]);
                               ("tabs", VMap [])]))
        by (vm_compute; reflexivity);
      exact (proj2 (append_merge nan_only client config _ st1 _ _ t _ _
                      eq_refl eq_refl Hc Hf Hl eq_refl))
  end.
Defined.

(** The frame of the merge, on the documents as values: for an existing
    document that is a mapping, in both merge modes, the merged document has
    under the keys other than [navigation] the entries of the existing
    document, with their values and in their order. *)
Lemma merge_navigation_keeps_others (config : MigrationConfig)
  (entries : list (string * value)) (navigation : list value) :
  exists merged,
    merge_navigation config (VMap entries) navigation = Ok (VMap merged)
    /\ other_entries "navigation" merged = other_entries "navigation" entries
    /\ (forall key, key <> "navigation" -> odict_get key merged = odict_get key entries).
Proof.
  destruct (merge_navigation_mapping config entries navigation) as (final & E & _).
  eexists. split; [exact E|]. split.
  - apply other_entries_set.
  - intros key Hk. now apply odict_get_set_ne.
Qed.

(** C6.  Frame condition of the merge.  The claim fails on the code for the
    document that a run leaves behind: the merge itself keeps every other
    entry ([merge_navigation_keeps_others]), but the run writes the merged
    document with [dump], which emits the string [true] without quotes.  A
    [docs.yml] whose only line is [enabled: 'true'] maps [enabled] to the
    string [true]; after a run (one article in the tree, real run, either
    merge mode) the file maps [enabled] to the boolean. *)
Theorem run_rewrites_quoted_string (F : PyFloatOps) (overwrite : bool) :
  let t := text (chars "enabled: 'true'" ++ [LF]) in
  let result := run (sample_client [article "FAQ" None]) (sample_config overwrite false)
                  (docs_world t) in
  let faq := VMap [("page", VStr "FAQ"); ("slug", VStr "faq");
                   ("path", VStr "docs/pages/faq.mdx")] in
  load t = Ok (VMap [("enabled", VStr "true")])
  /\ fst result = Ok tt
  /\ files (world (snd result)) !! ["docs.yml"]
     = Some (text (chars "enabled: true" ++ [LF] ++ chars "navigation:" ++ [LF]
                   ++ chars "  -" ++ [LF] ++ chars "    page: FAQ" ++ [LF]
                   ++ chars "    slug: faq" ++ [LF]
                   ++ chars "    path: docs/pages/faq.mdx" ++ [LF]))
  /\ load (text (chars "enabled: true" ++ [LF] ++ chars "navigation:" ++ [LF]
                 ++ chars "  -" ++ [LF] ++ chars "    page: FAQ" ++ [LF]
                 ++ chars "    slug: faq" ++ [LF]
                 ++ chars "    path: docs/pages/faq.mdx" ++ [LF]))
     = Ok (VMap [("enabled", VScalar (SBool true)); ("navigation", VList [faq])])
  /\ VStr "true" <> VScalar (SBool true).
Proof.
  cbv zeta. destruct overwrite; repeat split; try (vm_compute; reflexivity); discriminate.
Qed.

(** C7.  Dropped-node law.  The claim fails on the code where it says that
    such a record does not make the run fail: a record whose [type] is the
    number 5 has no recognised discriminator, no child list and no inline
    content, and [_parse_item] raises [AttributeError] on it (it calls
    [lower] on the number), so [TocParser.parse] raises on any list that
    holds it. *)
Theorem parse_item_raises_on_numeric_type :
  _parse_item (JDict [("type", JInt 5)])
  = Raise (AttributeError "object has no attribute 'lower'")
  /\ toc.parse [JDict [("type", JStr "markdown"); ("title", JStr "Overview")];
                JDict [("type", JInt 5)]]
     = Raise (AttributeError "object has no attribute 'lower'").
Proof. split; reflexivity. Qed.



(** C10.  [slugify] is idempotent, and every slug that the allocation
    returns is a fixed point of [slugify], or such a fixed point followed
    by the suffix [-n] of the disambiguation; the fixed point is the
    normalised candidate, whatever the candidate is. *)
Theorem slugify_idempotent :
  (forall s : string, slugify (slugify s) = slugify s)
  /\ (forall (registry : gmap string Z) (candidate : string),
        exists base : string,
          slugify base = base
          /\ base = slugify candidate
          /\ (fst (ensure_unique registry candidate) = base
              \/ exists n : Z, fst (ensure_unique registry candidate) = suffixed base n)).
Proof.
  split; [apply slugify_idem|].
  intros registry candidate. exists (slugify candidate).
  split; [apply slugify_idem|]. split; [done|]. apply ensure_unique_form.
Qed.

(** C5.  String encoding, as the code has it: the empty string is emitted
    as two single quotes; a non-empty string that contains one of the
    characters newline, colon, hash, braces, brackets, double quote, single
    quote, at-sign, backtick, or that differs from its trimmed form, is
    emitted in double quotes with every backslash and double quote preceded
    by a backslash; every other string is emitted as it is. *)
Theorem string_encoding (F : PyFloatOps) (s : string) :
  _format_scalar (SStr s) =
  if bool_decide (s = "") then chars "''"
  else if bool_decide (must_quote (chars s)) then double_quoted (chars s)
  else chars s.
Proof. apply format_scalar_str. Qed.

(** The empty string is not emitted in double quotes. *)
Lemma empty_string_single_quoted :
  @_format_scalar nan_only (SStr "") = chars "''"
  /\ @_format_scalar nan_only (SStr "") <> double_quoted (chars "").
Proof. split; [reflexivity|discriminate]. Qed.

(** C9.  Blank input.  A text whose lines are all blank or comments (the
    empty text among them) loads as the empty mapping; so does the dump of
    the empty list, which is a single newline. *)
Theorem blank_input_is_empty_mapping (F : PyFloatOps) (s : string) :
  Forall blank_or_comment (splitlines (chars s)) ->
  load s = Ok (VMap [])
  /\ load "" = Ok (VMap [])
  /\ dump (VList []) = text [LF]
  /\ load (dump (VList [])) = Ok (VMap []).
Proof.
  intros H. split; [now apply load_blank|]. repeat split; reflexivity.
Qed.

Lemma blank_input_is_empty_mapping_witness :
  let s := text (chars "# generated" ++ [LF] ++ chars "   " ++ [LF; LF]
                 ++ chars "  # indented comment") in
  Forall blank_or_comment (splitlines (chars s))
  /\ @load nan_only s = Ok (VMap []).
Proof.
  assert (H : Forall blank_or_comment
                (splitlines (chars (text (chars "# generated" ++ [LF] ++ chars "   "
                                          ++ [LF; LF] ++ chars "  # indented comment"))))).
  { match goal with |- Forall _ ?ls => let v := eval vm_compute in ls in change ls with v end.
    repeat (apply Forall_cons; split); try apply Forall_nil;
      unfold blank_or_comment; vm_compute; auto. }
  split; [exact H|].
  exact (proj1 (blank_input_is_empty_mapping nan_only _ H)).
Defined.

End Claims.

(** * Further properties of the code *)

Section Extras.

(** X1.  [load] returns a list or a mapping, never a bare scalar: a text
    that holds a single scalar does not load as that scalar. *)
Theorem load_returns_container (F : PyFloatOps) (s : string) (v : value) :
  load s = Ok v -> is_container v = true.
Proof.
  unfold load, simple_yaml.parse, _parse_block. intros H.
  destruct (block_loop _ _ _ _ _ _) as [[v0 rest]|] eqn:E; [|discriminate].
  cbn [rbind] in H. destruct (_skip_blank_lines rest); [|discriminate].
  injection H as <-. eapply block_loop_container; exact E.
Qed.

Lemma load_returns_container_witness :
  @load nan_only "title: Docs" = Ok (VMap [("title", VStr "Docs")])
  /\ is_container (VMap [("title", VStr "Docs")]) = true.
Proof.
  assert (H : @load nan_only "title: Docs" = Ok (VMap [("title", VStr "Docs")]))
    by (vm_compute; reflexivity).
  split; [exact H|]. exact (load_returns_container nan_only _ _ H).
Defined.

(** X2.  [SimpleYaml.parse] never raises its error for trailing content:
    the block at indentation 0 ends only at the end of the input, so the
    test after it always finds the index at the end. *)
Theorem load_never_reports_trailing_content (F : PyFloatOps) (s : string) :
  load s <> Raise (YamlError "Unexpected trailing content in YAML input").
Proof.
  unfold load, simple_yaml.parse, _parse_block.
  destruct (block_loop _ _ _ _ _ _) as [[v0 rest]|e] eqn:E; cbn [rbind].
  - apply block_loop_top_consumes in E. subst rest. discriminate.
  - intros H. injection H as ->.
    pose proof (proj1 (block_raises (fuel_for (map make_line (splitlines (chars s)))))
                  0%nat CNone [] [] (map make_line (splitlines (chars s)))) as Hr.
    rewrite E in Hr. cbn in Hr. unfold block_errors in Hr.
    repeat (apply elem_of_cons in Hr as [Hr|Hr]; [discriminate|]).
    inversion Hr.
Qed.

(** X3.  Blank lines and comment lines do not count: [SimpleYaml.parse]
    gives the same result, value or exception, on the lines of the input
    and on those of them that are neither blank nor comments. *)
Theorem parse_ignores_comments (F : PyFloatOps) (lines : list _Line) :
  simple_yaml.parse (content_lines lines) = simple_yaml.parse lines.
Proof.
  unfold simple_yaml.parse, _parse_block.
  pose proof (proj1 (fuel_suffices (fuel_for (content_lines lines)))
                0%nat CNone [] [] (content_lines lines)) as Hw.
  specialize (Hw ltac:(unfold fuel_for; lia)).
  assert (Hne : block_loop (fuel_for (content_lines lines)) 0 CNone [] []
                  (content_lines lines) <> Raise OutOfFuel).
  { intros E. rewrite E in Hw. now apply Hw. }
  pose proof (proj1 (fuel_mono (fuel_for (content_lines lines)))
                (fuel_for lines) 0%nat CNone [] [] (content_lines lines)) as Hm.
  specialize (Hm ltac:(pose proof (length_content lines); unfold fuel_for; lia) Hne).
  rewrite <- Hm, (proj1 (content_sim _)).
  destruct (block_loop (fuel_for lines) 0 CNone [] [] lines) as [[v rest]|e] eqn:E;
    [|reflexivity].
  apply block_loop_top_consumes in E. subst rest. reflexivity.
Qed.

(** X4.  [load] accepts only texts indented in steps of two spaces: when
    it returns a value, every line of the text is blank, a comment, or
    indented by an even number of spaces. *)
Theorem loaded_lines_evenly_indented (F : PyFloatOps) (s : string) (v : value) :
  load s = Ok v ->
  Forall (fun l => is_blank_or_comment l = true \/ Nat.even (line_indent l) = true)
    (map make_line (splitlines (chars s))).
Proof.
  unfold load, simple_yaml.parse, _parse_block. intros H.
  destruct (block_loop _ _ _ _ _ _) as [[v0 rest]|] eqn:E; [|discriminate].
  pose proof (block_loop_top_consumes _ _ _ _ _ _ _ E) as ->.
  apply (proj1 (consumes_evenly _)) in E; [|reflexivity].
  destruct E as (pre & -> & Hpre). rewrite app_nil_r.
  apply Forall_forall. intros l Hl.
  rewrite forallb_forall in Hpre. apply list_elem_of_In in Hl.
  specialize (Hpre l Hl). unfold evenly_indented in Hpre.
  now apply orb_prop in Hpre.
Qed.

Lemma loaded_lines_evenly_indented_witness :
  let s := text (chars "a:" ++ [LF] ++ chars "  b: 1" ++ [LF] ++ chars "   # note") in
  @load nan_only s = Ok (VMap [("a", VMap [("b", VScalar (SInt 1))])])
  /\ Forall (fun l => is_blank_or_comment l = true \/ Nat.even (line_indent l) = true)
       (map make_line (splitlines (chars s))).
Proof.
  cbv zeta.
  assert (H : @load nan_only (text (chars "a:" ++ [LF] ++ chars "  b: 1" ++ [LF]
                                    ++ chars "   # note"))
              = Ok (VMap [("a", VMap [("b", VScalar (SInt 1))])]))
    by (vm_compute; reflexivity).
  split; [exact H|]. exact (loaded_lines_evenly_indented nan_only _ _ H).
Defined.

(** X5.  A text of lines [key: value] loads as the mapping built by
    assigning the entries in order: a key that is repeated raises no error,
    it keeps the position of its first line and takes the value of its last
    one. *)
Theorem repeated_key_last_wins (F : PyFloatOps) (entries : list (string * scalar)) :
  forallb flat_entry_ok entries = true ->
  load (text (unlines (map entry_text entries))) = Ok (VMap (set_all entries [])).
Proof.
  intros Hok.
  rewrite load_unlines.
  2: { apply Forall_forall. intros l (kv & -> & Hin)%list_elem_of_fmap.
       rewrite forallb_forall in Hok.
       apply (entry_text_no_break 0 kv). apply Hok. now apply list_elem_of_In. }
  unfold simple_yaml.parse, _parse_block. rewrite map_map.
  pose proof (read_flat entries Hok (fuel_for (map (fun x => make_line (entry_text x)) entries))
                0%nat CNone [] [] [] ltac:(done) I) as H.
  rewrite app_nil_r in H. cbn [spaces repeat app] in H.
  rewrite H by (unfold fuel_for; rewrite length_map; lia).
  cbn [rbind _skip_blank_lines]. destruct entries; reflexivity.
Qed.

Lemma repeated_key_last_wins_witness :
  let entries := [("title", SStr "Old"); ("version", SInt 2); ("title", SStr "New")] in
  forallb (@flat_entry_ok nan_only) entries = true
  /\ @load nan_only (text (unlines (map (@entry_text nan_only) entries)))
     = Ok (VMap [("title", VStr "New"); ("version", VScalar (SInt 2))]).
Proof.
  cbv zeta.
  assert (H : forallb (@flat_entry_ok nan_only)
                [("title", SStr "Old"); ("version", SInt 2); ("title", SStr "New")] = true)
    by (vm_compute; reflexivity).
  split; [exact H|]. exact (repeated_key_last_wins nan_only _ H).
Defined.

(** X6.  The compact form of a list of mappings, which [dump] never
    emits, loads as that list: each item has its first entry on the line of
    the hyphen ([- key: value]) and its other entries on the lines below,
    two columns in; the entries of an item are assigned in order. *)
Theorem compact_items_load (F : PyFloatOps) (items : list (list (string * scalar))) :
  items <> [] -> forallb inline_item_ok items = true ->
  load (text (unlines (flat_map inline_item_lines items)))
  = Ok (VList (map (fun item => VMap (set_all item [])) items)).
Proof.
  intros Hne Hok.
  rewrite load_unlines.
  2: { apply Forall_forall. intros l (item & Hl & Hin)%list_elem_of_In%in_flat_map.
       rewrite forallb_forall in Hok. specialize (Hok item Hl).
       destruct item as [|first more]; [discriminate|].
       cbn [inline_item_ok] in Hok.
       apply andb_prop in Hok as [[Hf _]%andb_prop Hmore].
       cbn [inline_item_lines] in Hin. destruct Hin as [<-|Hin].
       - pose proof (entry_text_solid _ Hf) as Hs.
         apply (closed_item_line 0 (" "%char :: entry_text first)). eauto.
       - apply in_map_iff in Hin as (kv & <- & Hkv).
         rewrite forallb_forall in Hmore.
         apply (entry_text_no_break 2 kv). now apply Hmore. }
  unfold simple_yaml.parse, _parse_block.
  rewrite (read_inline_items items Hok) by (try done; unfold fuel_for; rewrite length_map; lia).
  cbn [rbind _skip_blank_lines]. destruct items; [done|reflexivity].
Qed.

Lemma compact_items_load_witness :
  let items := [[("page", SStr "Welcome"); ("path", SStr "docs/pages/welcome.mdx")];
                [("page", SStr "FAQ"); ("slug", SStr "faq"); ("hidden", SBool true)]] in
  items <> []
  /\ forallb (@inline_item_ok nan_only) items = true
  /\ @load nan_only (text (unlines (flat_map (@inline_item_lines nan_only) items)))
     = Ok (VList [VMap [("page", VStr "Welcome"); ("path", VStr "docs/pages/welcome.mdx")];
                  VMap [("page", VStr "FAQ"); ("slug", VStr "faq");
                        ("hidden", VScalar (SBool true))]]).
Proof.
  cbv zeta.
  assert (H : forallb (@inline_item_ok nan_only)
                [[("page", SStr "Welcome"); ("path", SStr "docs/pages/welcome.mdx")];
                 [("page", SStr "FAQ"); ("slug", SStr "faq"); ("hidden", SBool true)]]
              = true) by (vm_compute; reflexivity).
  assert (Hne : [[("page", SStr "Welcome"); ("path", SStr "docs/pages/welcome.mdx")];
                 [("page", SStr "FAQ"); ("slug", SStr "faq"); ("hidden", SBool true)]]
                <> []) by discriminate.
  split; [exact Hne|]. split; [exact H|].
  exact (compact_items_load nan_only _ Hne H).
Defined.

(** X7.  A node for which [_convert_node] returns no entry leaves the
    migrator as it was: no slug is taken from the registry, no file is
    written, nothing is printed. *)
Theorem node_without_entry_leaves_state (F : PyFloatOps) (client : StoplightClient)
  (config : MigrationConfig) (node : StoplightNode) (st st' : State) :
  _convert_node client config node st = (Ok None, st') -> st' = st.
Proof. apply convert_node_none. Qed.

Lemma node_without_entry_leaves_state_witness :
  let client := {| load_tree := Ok []; get_markdown := fun _ => Ok None |} in
  let node := group "Guides" [group "Empty" []; article "Draft" None] in
  _convert_node client (sample_config true false) node fresh_state = (Ok None, fresh_state)
  /\ fresh_state = fresh_state.
Proof.
  cbv zeta.
  assert (H : _convert_node
                {| load_tree := Ok []; get_markdown := fun _ => Ok None |}
                (sample_config true false)
                (group "Guides" [group "Empty" []; article "Draft" None]) fresh_state
              = (Ok None, fresh_state)) by reflexivity.
  split; [exact H|].
  exact (node_without_entry_leaves_state nan_only _ _ _ _ _ H).
Defined.

(** X8.  The files of a real run.  When the conversion loop of [migrate]
    returns a navigation with the dry-run flag off, the file system log has
    grown by exactly one write per page entry of the navigation, in the
    order of the entries, each to [pages_dir/<slug>.mdx] with the front
    matter of that slug; no directory was made, nothing was printed, no
    file was removed, and no two page entries share a file. *)
Theorem real_run_writes_pages (F : PyFloatOps) (client : StoplightClient)
  (config : MigrationConfig) (nodes : list StoplightNode)
  (st st' : State) (navigation : list value) :
  dry_run config = false ->
  convert_nodes client config nodes st = (Ok navigation, st') ->
  wrote_pages config (world st) (navigation_pages navigation) (world st')
  /\ NoDup (map (page_file config) (navigation_pages navigation)).
Proof.
  intros Hdry H. split; [now apply (convert_nodes_wrote client config nodes Hdry st)|].
  apply convert_nodes_allocated in H as (_ & Hnd & _).
  apply NoDup_fmap_2; [intros a b; apply page_file_inj|].
  eapply sublist_NoDup; [exact Hnd|apply navigation_pages_sublist].
Qed.

Lemma real_run_writes_pages_witness :
  exists navigation st',
    dry_run (sample_config true false) = false
    /\ convert_nodes (sample_client sample_tree) (sample_config true false)
         sample_tree fresh_state = (Ok navigation, st')
    /\ navigation_pages navigation = ["faq"; "faq-2"; "faq-3"; "faq-2-2"; "faq-2-3"]
    /\ wrote_pages (sample_config true false) (world fresh_state)
         (navigation_pages navigation) (world st')
    /\ NoDup (map (page_file (sample_config true false)) (navigation_pages navigation)).
Proof.
  eexists. eexists. split; [reflexivity|].
  split; [vm_compute; reflexivity|]. split; [reflexivity|].
  eapply (real_run_writes_pages nan_only (sample_client sample_tree)
            (sample_config true false) sample_tree fresh_state).
  - reflexivity.
  - vm_compute. reflexivity.
Defined.





(** X11.  The place of the navigation in the merged document.  The merge
    keeps the keys of the existing mapping in their order: a [navigation]
    key that is there keeps its position, one that is missing is added
    last with the generated list, in both merge modes.  In overwrite mode
    the existing navigation is replaced by the generated list, and an
    existing navigation that is not a list is replaced in both modes. *)
Theorem merge_places_navigation (config : MigrationConfig)
  (entries : list (string * value)) (navigation : list value) :
  exists merged,
    merge_navigation config (VMap entries) navigation = Ok (VMap merged)
    /\ (is_Some (odict_get "navigation" entries) -> map fst merged = map fst entries)
    /\ (odict_get "navigation" entries = None ->
        merged = entries ++ [("navigation", VList navigation)])
    /\ (overwrite_navigation config = true ->
        is_Some (odict_get "navigation" entries) ->
        odict_get "navigation" merged = Some (VList navigation))
    /\ (forall x, odict_get "navigation" entries = Some x ->
                  (forall l, x <> VList l) ->
                  odict_get "navigation" merged = Some (VList navigation)).
Proof.
  unfold merge_navigation, odict_mem. eexists. split; [reflexivity|].
  split; [apply odict_set_present|]. split; [|split].
  - intros H. rewrite H. cbn [negb orb app]. now apply odict_set_absent.
  - intros -> [x ->]. cbn [negb orb]. apply odict_get_set_eq.
  - intros x Hx Hnl. rewrite Hx, odict_get_set_eq.
    destruct x as [sc|l|m]; try (destruct (_ || _); reflexivity).
    now destruct (Hnl l).
Qed.

(** X12.  Candidates that normalise to the same slug are numbered: from
    an empty registry, [_ensure_unique_slug] returns the slug itself for
    the first of them and the slug followed by [-2], [-3], ... for the
    others, in order. *)
Theorem repeated_candidates_numbered (candidate : string) (candidates : list string) :
  Forall (fun c => slugify c = slugify candidate) candidates ->
  allocate ∅ (candidate :: candidates)
  = slugify candidate
      :: map (fun k => suffixed (slugify candidate) (Z.of_nat k))
           (seq 2 (length candidates)).
Proof.
  intros H. cbn [allocate]. rewrite ensure_unique_first. f_equal.
  apply (allocate_again _ _ H 1%nat); [lia|]. apply handed_out_first.
Qed.

Lemma repeated_candidates_numbered_witness :
  Forall (fun c => slugify c = slugify "FAQ") ["faq"; "  Faq  "; "faq?"; "FAQ!"]
  /\ allocate ∅ ["FAQ"; "faq"; "  Faq  "; "faq?"; "FAQ!"]
     = ["faq"; "faq-2"; "faq-3"; "faq-4"; "faq-5"].
Proof.
  split.
  - repeat constructor.
  - apply (repeated_candidates_numbered "FAQ" ["faq"; "  Faq  "; "faq?"; "FAQ!"]).
    repeat constructor.
Defined.

(** X13.  The shape of a slug.  [slugify] returns a text that is not
    empty, is made of [a-z], [0-9] and single hyphens, and starts and ends
    with a letter or a digit.  A value of code points below 256 (the texts
    of this development) none of which is an ASCII letter or digit gives
    ["page"]; beyond that range [str.lower] can give an ASCII letter (the
    Kelvin sign gives [k]), and the fallback is not claimed there. *)
Theorem slugify_shape (value : string) :
  let s := chars (slugify value) in
  hyphenated false s = true
  /\ (exists c r, s = c :: r /\ is_slug_char c = true)
  /\ (exists r c, s = r ++ [c] /\ is_slug_char c = true)
  /\ (Forall (fun c => is_slug_char (lower_char c) = false) (chars value) ->
      slugify value = "page").
Proof.
  cbv zeta. unfold slugify at 1 2 3. rewrite chars_text.
  destruct (slugify_chars_shape (chars value)) as (H1 & H2 & H3).
  repeat split; try done. apply slugify_fallback.
Qed.

(** X14.  The nodes of a normalised tree.  For raw items whose records
    give texts where [StoplightNode] declares them (the title that
    [_parse_item] computes is a [str], the slug and the id a [str] or
    [None]), [TocParser.parse] returns, or raises an exception of the
    program; every node that it returns, at every depth, is a group or an
    article without children, has a title that is not empty, satisfies
    exactly one of [is_markdown] and [is_section], and is the normal form
    of its own raw record: [_parse_item(node.raw)] gives the node back. *)
Theorem parsed_nodes_shape (items : list json) :
  forallb well_typed items = true ->
  match toc.parse items with
  | Ok nodes =>
      Forall (fun m => node_shape m /\ _parse_item (raw m) = Ok (Some m))
        (forest_nodes nodes)
  | Raise e => forall field, e <> IllTyped field
  end.
Proof.
  intros Hw. destruct (toc.parse items) as [nodes|e] eqn:E.
  - apply parse_all_canonical in E. eapply Forall_impl; [exact E|].
    intros m Hm. split; [|exact Hm]. eapply parse_item_shape, Hm.
  - intros field ->. revert E. apply parse_typed.
    rewrite forallb_forall in Hw. apply Forall_forall.
    intros c Hc%list_elem_of_In. now apply parse_item_typed, Hw.
Qed.

Lemma parsed_nodes_shape_witness :
  let items := [JDict [("type", JStr "Group"); ("name", JStr "Guides");
                       ("items", JList [JDict [("type", JStr "article"); ("slug", JStr "intro")];
                                        JStr "stray";
                                        JDict [("children", JList [JDict [("markdown", JStr "# Hi")]])]])]] in
  forallb well_typed items = true
  /\ exists nodes,
       toc.parse items = Ok nodes
       /\ map title (forest_nodes nodes) = ["Guides"; "intro"; "Untitled"; "Untitled"]
       /\ Forall (fun m => node_shape m /\ _parse_item (raw m) = Ok (Some m))
            (forest_nodes nodes).
Proof.
  cbv zeta. split; [reflexivity|]. eexists. split; [reflexivity|]. split; [reflexivity|].
  exact (parsed_nodes_shape
           [JDict [("type", JStr "Group"); ("name", JStr "Guides");
                   ("items", JList [JDict [("type", JStr "article"); ("slug", JStr "intro")];
                                    JStr "stray";
                                    JDict [("children", JList [JDict [("markdown", JStr "# Hi")]])]])]]
           eq_refl).
Defined.

(** X15.  [find_table_of_contents] returns a list that looks like a table
    of contents and is the value of one of the six accepted keys in a
    [dict] of the data; it returns [None] only when the data holds no such
    list. *)
Theorem found_table_of_contents (data : json) :
  match clients.find_table_of_contents data with
  | Some l =>
      clients._looks_like_toc l = true
      /\ exists fields key,
           subvalue (JDict fields) data /\ key ∈ clients.toc_keys
           /\ get key fields = JList l
  | None =>
      forall fields key l,
        subvalue (JDict fields) data -> key ∈ clients.toc_keys ->
        get key fields = JList l -> clients._looks_like_toc l = false
  end.
Proof.
  unfold clients.find_table_of_contents.
  destruct (clients.toc_candidates data) as [|l rest] eqn:E; cbn [head].
  - intros fields key l Hs Hk Hg.
    destruct (clients._looks_like_toc l) eqn:Hl; [|reflexivity].
    assert (Hin : l ∈ clients.toc_candidates data) by (apply toc_candidates_spec; eauto 6).
    rewrite E in Hin. now apply elem_of_nil in Hin.
  - assert (Hin : l ∈ clients.toc_candidates data) by (rewrite E; now left).
    apply toc_candidates_spec in Hin as (fields & key & Hs & Hk & Hg & Hl). eauto 6.
Qed.

(** X16.  [collect_nodes_by_id].  For data in which every record that is
    filed (a truthy [id] and a truthy [type] or [kind]) has a text for its
    [id], the function returns a dictionary; every entry of it is a record
    of the data filed under its own [id], and every such record of the
    data, at any depth, has its [id] among the keys. *)
Theorem collected_nodes (data : json) :
  text_ids data = true ->
  exists nodes,
    clients.collect_nodes_by_id data = Ok nodes
    /\ (forall k v, odict_get k nodes = Some v -> subvalue v data /\ is_node v k)
    /\ (forall v k, subvalue v data -> is_node v k -> is_Some (odict_get k nodes)).
Proof.
  intros Ht. unfold clients.collect_nodes_by_id.
  destruct (visit_returns data Ht []) as [nodes E]. exists nodes. split; [exact E|].
  apply visit_files in E as (H1 & _ & H3). split; [|exact H3].
  intros k v Hv. destruct (H1 k v Hv) as [Hn|H]; [discriminate|exact H].
Qed.

Lemma collected_nodes_witness :
  let page := JDict [("id", JStr "b"); ("kind", JStr "article")] in
  let data := JDict [("id", JStr "a"); ("type", JStr "group");
                     ("children", JList [page; JDict [("id", JInt 7)]])] in
  text_ids data = true
  /\ exists nodes,
       clients.collect_nodes_by_id data = Ok nodes
       /\ nodes = [("a", data); ("b", page)]
       /\ (forall v k, subvalue v data -> is_node v k -> is_Some (odict_get k nodes)).
Proof.
  cbv zeta. split; [reflexivity|].
  destruct (collected_nodes
              (JDict [("id", JStr "a"); ("type", JStr "group");
                      ("children", JList [JDict [("id", JStr "b"); ("kind", JStr "article")];
                                          JDict [("id", JInt 7)]])])
              eq_refl) as (nodes & E & _ & H).
  exists nodes. split; [exact E|]. split; [|exact H].
  vm_compute in E. now injection E as <-.
Defined.

(** X17.  The text that [_extract_json_object] returns starts at [start],
    ends with a closing brace, does not depend on what follows it in the
    source, and is a fixed point: extracting from it at 0 returns it. *)
Theorem extracted_object (source : list ascii) (start : nat) (t : list ascii) :
  clients._extract_json_object source start = Some t ->
  (exists rest, drop start source = t ++ rest)
  /\ (exists body, t = body ++ ["}"%char])
  /\ clients._extract_json_object t 0 = Some t
  /\ (forall more, clients._extract_json_object (source ++ more) start = Some t).
Proof.
  unfold clients._extract_json_object.
  destruct (clients.scan 0 false false (drop start source) start) as [j|] eqn:E;
    [|discriminate].
  destruct (scan_spec _ _ _ _ _ _ E) as (p & body & -> & Ht & Hl & Hm).
  replace (start + p + 1 - start)%nat with (S p) by lia. intros [= <-].
  assert (Hlen : (S p <= length (drop start source))%nat).
  { apply (f_equal (@length ascii)) in Ht. rewrite length_app, length_take in Ht.
    cbn [length] in Ht. lia. }
  assert (Hstart : (start <= length source)%nat).
  { rewrite length_drop in Hlen. lia. }
  split; [exists (drop (S p) (drop start source)); now rewrite take_drop|].
  split; [eauto|]. split.
  - rewrite !drop_0. pose proof (Hm 0%nat []) as H0. rewrite app_nil_r in H0. rewrite H0.
    f_equal. cbn [Nat.add]. replace (p + 1 - 0)%nat with (S p) by lia.
    apply take_ge. rewrite length_take. lia.
  - intros more. rewrite drop_app_le by exact Hstart.
    rewrite <- (take_drop (S p) (drop start source)) at 1. rewrite <- app_assoc, Hm.
    replace (start + p + 1 - start)%nat with (S p) by lia. f_equal.
    rewrite take_app_le by exact Hlen. reflexivity.
Qed.

Lemma extracted_object_witness :
  let source := chars "x = {'a': {}} ; y = {}" in
  clients._extract_json_object source 4 = Some (chars "{'a': {}}")
  /\ clients._extract_json_object (chars "{'a': {}}") 0 = Some (chars "{'a': {}}").
Proof.
  cbv zeta.
  assert (H : clients._extract_json_object (chars "x = {'a': {}} ; y = {}") 4
              = Some (chars "{'a': {}}")) by reflexivity.
  split; [exact H|]. exact (proj1 (proj2 (proj2 (extracted_object _ _ _ H)))).
Defined.

(** X18.  Braces inside a string literal do not count: an object whose
    only member name is any text without double quote and backslash,
    braces included, is extracted whole. *)
Theorem braces_in_strings_are_skipped (name tail : list ascii) :
  plain_text name = true ->
  let object := "{"%char :: DQ :: name ++ DQ :: chars ":1}" in
  clients._extract_json_object (object ++ tail) 0 = Some object.
Proof.
  intros Hp. cbv zeta. unfold clients._extract_json_object. rewrite drop_0.
  assert (Hscan : clients.scan 0 false false
                    (("{"%char :: DQ :: name ++ DQ :: chars ":1}") ++ tail) 0
                  = Some (length name + 5)%nat).
  { cbn [app]. rewrite <- app_assoc. rewrite <- app_comm_cons.
    change (chars ":1}" ++ tail) with (":"%char :: "1"%char :: "}"%char :: tail).
    rewrite scan_cons. change (scan_next 0 false false "{") with (Some (1, false, false)).
    cbv iota beta. rewrite scan_cons.
    change (scan_next 1 false false DQ) with (Some (1, true, false)). cbv iota beta.
    rewrite scan_string by exact Hp.
    rewrite scan_cons. change (scan_next 1 false false ":") with (Some (1, false, false)).
    cbv iota beta. rewrite scan_cons.
    change (scan_next 1 false false "1") with (Some (1, false, false)).
    cbv iota beta. rewrite scan_cons.
    change (scan_next 1 false false "}") with (@None (Z * bool * bool)).
    cbv iota beta. f_equal. lia. }
  rewrite Hscan. f_equal. apply take_app_length'.
  cbn [length]. rewrite length_app. cbn [length chars list_ascii_of_string]. lia.
Qed.

Lemma braces_in_strings_are_skipped_witness :
  plain_text (chars "a}{b") = true
  /\ clients._extract_json_object
       ("{"%char :: DQ :: chars "a}{b" ++ DQ :: chars ":1}" ++ chars "; more }") 0
     = Some ("{"%char :: DQ :: chars "a}{b" ++ DQ :: chars ":1}").
Proof.
  split; [reflexivity|].
  apply (braces_in_strings_are_skipped (chars "a}{b") (chars "; more }")). reflexivity.
Defined.

(** X19.  A local export gives no markdown for a node without a slug:
    when [node.slug] and [node.id] are missing or empty and the raw record
    has no truthy [slug], [StoplightDirectoryClient.get_markdown] returns
    [None] without looking at the file system, even when the raw record
    carries the markdown inline. *)
Theorem directory_markdown_needs_slug
  (rglob : World -> Path -> string -> list Path)
  (self : clients.StoplightDirectoryClient) (w : World)
  (node : StoplightNode) (fields : list (string * json)) :
  slug node = None \/ slug node = Some "" ->
  id node = None \/ id node = Some "" ->
  raw node = JDict fields ->
  truthy (get "slug" fields) = false ->
  clients.get_markdown rglob self w node = Ok None.
Proof.
  intros Hs Hi Hr Ht. unfold clients.get_markdown, clients.node_slug.
  destruct Hs as [-> | ->], Hi as [-> | ->]; rewrite Hr; cbn [rbind]; now rewrite Ht.
Qed.

Lemma directory_markdown_needs_slug_witness :
  let fields := [("type", JStr "article"); ("title", JStr "Intro");
                 ("markdown", JStr "# Intro")] in
  let node := mkNode "article" "Intro" None None (JDict fields) [] in
  let self := clients.mkDirectoryClient ["export"] "table_of_contents.json" "documents" in
  clients.extract_markdown_from_node (raw node) = Some "# Intro"
  /\ clients.get_markdown (fun _ _ _ => []) self empty_world node = Ok None.
Proof.
  cbv zeta. split; [reflexivity|].
  apply (directory_markdown_needs_slug (fun _ _ _ => [])
           (clients.mkDirectoryClient ["export"] "table_of_contents.json" "documents")
           empty_world
           (mkNode "article" "Intro" None None
              (JDict [("type", JStr "article"); ("title", JStr "Intro");
                      ("markdown", JStr "# Intro")]) [])
           [("type", JStr "article"); ("title", JStr "Intro"); ("markdown", JStr "# Intro")]);
    try reflexivity; now left.
Defined.

(** X20.  A local export reads the [.md] file of the slug first: for a
    node whose slug is not empty, when the documents directory holds the
    file named by the slug with every slash replaced by a hyphen and the
    extension [.md], [get_markdown] returns the text of that file, whatever
    else the export holds. *)
Theorem directory_markdown_reads_md_file
  (rglob : World -> Path -> string -> list Path)
  (self : clients.StoplightDirectoryClient) (w : World)
  (node : StoplightNode) (s t : string) :
  slug node = Some s -> s <> "" ->
  files w !! path_join (path_join (clients.root self) (clients.documents_dirname self))
               (clients.slug_base s +:+ ".md") = Some t ->
  clients.get_markdown rglob self w node = Ok (Some t).
Proof.
  intros Hs Hne Hf. unfold clients.get_markdown, clients.node_slug. rewrite Hs.
  destruct s as [|c s]; [done|]. cbn [rbind truthy negb String.eqb].
  unfold clients._candidate_markdown_paths, clients.markdown_extensions. cbn [map].
  rewrite (read_first_found _ _ _ _ Hf). reflexivity.
Qed.

Lemma directory_markdown_reads_md_file_witness :
  let self := clients.mkDirectoryClient ["export"] "table_of_contents.json" "documents" in
  let w := {| files := {[ ["export"; "documents"; "guides-intro.md"] := "# Intro" ]};
              dirs := ∅; fs_log := []; stdout := [] |} in
  let node := mkNode "article" "Intro" (Some "guides/intro") None (JDict []) [] in
  clients.slug_base "guides/intro" = "guides-intro"
  /\ clients.get_markdown (fun _ _ _ => []) self w node = Ok (Some "# Intro").
Proof.
  cbv zeta. split; [reflexivity|].
  apply (directory_markdown_reads_md_file (fun _ _ _ => [])
           (clients.mkDirectoryClient ["export"] "table_of_contents.json" "documents")
           {| files := {[ ["export"; "documents"; "guides-intro.md"] := "# Intro" ]};
              dirs := ∅; fs_log := []; stdout := [] |}
           (mkNode "article" "Intro" (Some "guides/intro") None (JDict []) [])
           "guides/intro" "# Intro"); [reflexivity|discriminate|].
  apply lookup_singleton_eq.
Defined.

(** X21.  A scalar text in matching quotes, double or single, is read as
    the text between the quotes, as it is: no escape is undone, and a
    quoted keyword or numeral stays a string. *)
Theorem quoted_scalars_are_strings (F : PyFloatOps) (t : list ascii) :
  _parse_scalar (DQ :: t ++ [DQ]) = SStr (text t)
  /\ _parse_scalar ("'"%char :: t ++ ["'"%char]) = SStr (text t).
Proof. split; [apply parse_scalar_quoted|apply parse_scalar_single_quoted]. Qed.

(** X22.  Line endings.  A text whose lines end with CR LF loads as the
    same text with the lines ended by LF. *)
Theorem crlf_text_loads_alike (F : PyFloatOps) (ls : list (list ascii)) :
  Forall no_linebreak ls ->
  load (text (unlines_crlf ls)) = load (text (unlines ls)).
Proof.
  intros H. rewrite (load_unlines ls H). unfold load.
  now rewrite chars_text, splitlines_unlines_crlf.
Qed.

Lemma crlf_text_loads_alike_witness :
  let ls := [chars "title: Docs"; chars "navigation:"; chars "  - page: FAQ"] in
  Forall no_linebreak ls
  /\ @load nan_only (text (unlines_crlf ls)) = @load nan_only (text (unlines ls)).
Proof.
  cbv zeta.
  assert (H : Forall no_linebreak
                [chars "title: Docs"; chars "navigation:"; chars "  - page: FAQ"])
    by (repeat constructor).
  split; [exact H|]. exact (crlf_text_loads_alike nan_only _ H).
Defined.

(** X23.  [extract_markdown_from_node] returns a text that the record
    holds at one of the four places [markdown], [data.markdown],
    [document.markdown], [body.markdown], as the value itself or under one
    of the keys [content], [raw], [plain], [text] of the [dict] there; it
    returns [None] only when none of these holds a text. *)
Theorem extracted_markdown (node : json) :
  match clients.extract_markdown_from_node node with
  | Some s => exists path, path ∈ clients.markdown_fields /\ markdown_at path node s
  | None => forall path s, path ∈ clients.markdown_fields -> ~ markdown_at path node s
  end.
Proof. apply extract_along_spec. Qed.

(** X24.  [TocParser.parse] normalises the items one by one, in order:
    on a concatenation it gives the nodes of the first part followed by
    those of the second, and the first exception on the way. *)
Theorem parse_of_concatenation (a b : list json) :
  toc.parse (a ++ b)
  = let! x := toc.parse a in let! y := toc.parse b in Ok (x ++ y).
Proof.
  induction a as [|item a IH]; cbn [app toc.parse rbind].
  { destruct (toc.parse b); reflexivity. }
  destruct (_parse_item item) as [o|]; [|reflexivity]. cbn [rbind]. rewrite IH.
  destruct (toc.parse a) as [x|]; [|reflexivity]. cbn [rbind].
  destruct (toc.parse b) as [y|]; [|reflexivity]. cbn [rbind].
  now destruct o.
Qed.

(** X25.  The two encoders of a string agree where they can: for a value
    without any of the characters [#], braces, brackets, double quote,
    single quote, [@] and backtick, the title that [_wrap_markdown] puts in
    the front matter of a page ([_format_front_matter_value]) is the text
    that [dump] writes for the same string ([_format_scalar]). *)
Theorem front_matter_title_as_dumped (F : PyFloatOps) (value : string) :
  has_any yaml_only_chars (chars value) = false ->
  chars (_format_front_matter_value value) = _format_scalar (SStr value).
Proof.
  intros H. unfold _format_front_matter_value, _format_scalar.
  destruct (chars value) as [|c r] eqn:E; [reflexivity|]. rewrite <- E in *.
  assert (Hq : has_any [LF; ":"%char] (chars value) || negb (list_eqb (chars value) (strip (chars value)))
               = needs_quotes (chars value)).
  { unfold needs_quotes, special_chars.
    change (LF :: chars ":#{}[]" ++ DQ :: chars "'@`") with (LF :: ":"%char :: yaml_only_chars).
    rewrite !has_any_cons, H. cbn [has_any existsb]. rewrite !orb_false_r.
    f_equal. f_equal. unfold list_eqb.
    destruct (decide (chars value = strip (chars value))) as [Heq|Hne].
    - rewrite !bool_decide_eq_true_2; done.
    - rewrite !bool_decide_eq_false_2; done. }
  rewrite Hq. destruct (needs_quotes (chars value)).
  - rewrite chars_text. reflexivity.
  - reflexivity.
Qed.

Lemma front_matter_title_as_dumped_witness :
  has_any yaml_only_chars (chars "Setup: first steps\") = false
  /\ chars (_format_front_matter_value "Setup: first steps\")
     = @_format_scalar nan_only (SStr "Setup: first steps\").
Proof.
  split; [reflexivity|].
  apply (front_matter_title_as_dumped nan_only "Setup: first steps\"). reflexivity.
Defined.

End Extras.
